(** * Harvest planner: the expected-value solver and its state keys

    A shallow embedding of the solver module ([getSeedEV],
    [getCropMultiplier], [generateKey], [solve], [clearMemo]) and of the
    types it works on ([CropColor], [GameParams], [LogicPlot],
    [SolveResult]).

    Conventions of the embedding.
    - A JavaScript [number] that holds a quantity, a price or a probability
      is an exact rational ([Qc], canonical fractions, so that equality of
      values is Leibniz equality): the theorems on numbers say what the
      program computes when its arithmetic is exact.  The module [Binary64]
      gives [getSeedEV] and [getCropMultiplier] once more over binary64
      floating-point numbers, operation for operation, and is used to show
      where rounding breaks a property that holds in exact arithmetic.
      Overflow to [Infinity] and [NaN] are outside the exact model; the
      theorems on the results of [solve] that need no arithmetic (which
      plot is named, how long the path is, what the cache holds) do not
      depend on it.
    - The upgrade count [k] of a plot is a natural number; it is printed in
      decimal inside keys and step descriptions.
    - Strings are [string]s (sequences of bytes; the Chinese labels are
      their UTF-8 encodings).
    - The module-level [memo] is a finite map from keys to results that is
      threaded through [solve] explicitly.
    - [String.prototype.localeCompare] is a parameter of the development,
      and [Array.prototype.sort] is a stable sort.
    - A call of [solve] that would nest deeper than a given bound returns
      [None]; [solve_is_Some] shows that the bound [solve] uses is never
      reached. *)

From Stdlib Require Import QArith Qcanon Lqa Ascii String.
From Stdlib Require PrimFloat.
From Stdlib Require Import DecimalString DecimalNat OrderedTypeEx.
From stdpp Require Import gmap strings list fin_maps sorting.

Local Open Scope Qc_scope.

(** ** Numbers *)

(** [x > y] on numbers, as a test. *)
Definition Qc_gtb (x y : Qc) : bool :=
  match (this x ?= this y)%Q with Gt => true | _ => false end.

(** [x <= y] on numbers, as a test. *)
Definition Qc_leb (x y : Qc) : bool := negb (Qc_gtb x y).

(** [Math.max] and its dual on two numbers. *)
Definition Qc_max (x y : Qc) : Qc := if Qc_gtb y x then y else x.
Definition Qc_min (x y : Qc) : Qc := if Qc_gtb x y then y else x.

(** ** Types *)

Inductive CropColor := purple | blue | yellow.

Inductive Side := left | right.

Record GameParams := {
  buyCountPurple : Qc;
  buyCountBlue : Qc;
  buyCountYellow : Qc;
  probSurvival : Qc;
  valL1 : Qc;
  valL2 : Qc;
  valL3 : Qc;
  valL4 : Qc;
  probL1toL2 : Qc;
  probL2toL3 : Qc;
  probL3toL4 : Qc
}.

Record LogicPlot := {
  fieldId : string;
  side : Side;
  color : CropColor;
  k : nat
}.

Record SolveResult := {
  maxEV : Qc;
  path : list string;
  bestMoveId : option string
}.

Global Instance CropColor_eq_dec : EqDecision CropColor.
Proof. solve_decision. Defined.

Global Instance Side_eq_dec : EqDecision Side.
Proof. solve_decision. Defined.

Global Instance LogicPlot_eq_dec : EqDecision LogicPlot.
Proof. solve_decision. Defined.

(** ** Seed value: [getSeedEV] *)

(** The state vector [[ProbL1, ProbL2, ProbL3, ProbL4]]. *)
Definition ProbVec : Type := Qc * Qc * Qc * Qc.

(** One turn of the loop of [getSeedEV]: [nextP] starts at zero and
    receives the four groups of transitions. *)
Definition nextP (params : GameParams) (p : ProbVec) : ProbVec :=
  let '(p0, p1, p2, p3) := p in
  (0 + p0 * (1 - probL1toL2 params),
   0 + p0 * probL1toL2 params + p1 * (1 - probL2toL3 params),
   0 + p1 * probL2toL3 params + p2 * (1 - probL3toL4 params),
   0 + p2 * probL3toL4 params + p3 * 1).

(** The vector after [k] turns, from [[1, 0, 0, 0]]. *)
Definition seedProbs (k : nat) (params : GameParams) : ProbVec :=
  Nat.iter k (nextP params) (1, 0, 0, 0).

Definition weightedValue (params : GameParams) (p : ProbVec) : Qc :=
  let '(p0, p1, p2, p3) := p in
  p0 * valL1 params + p1 * valL2 params + p2 * valL3 params + p3 * valL4 params.

Definition getSeedEV (k : nat) (params : GameParams) : Qc :=
  weightedValue params (seedProbs k params).

(** The least and the greatest of the four tier values. *)
Definition minTierValue (params : GameParams) : Qc :=
  Qc_min (Qc_min (valL1 params) (valL2 params)) (Qc_min (valL3 params) (valL4 params)).
Definition maxTierValue (params : GameParams) : Qc :=
  Qc_max (Qc_max (valL1 params) (valL2 params)) (Qc_max (valL3 params) (valL4 params)).

(** A probability vector: no negative entry, entries summing to one. *)
Definition isDistribution (p : ProbVec) : Prop :=
  let '(p0, p1, p2, p3) := p in
  0 <= p0 /\ 0 <= p1 /\ 0 <= p2 /\ 0 <= p3 /\ p0 + p1 + p2 + p3 = 1.

(** The three upgrade probabilities are probabilities. *)
Definition validUpgradeProbs (params : GameParams) : Prop :=
  (0 <= probL1toL2 params /\ probL1toL2 params <= 1) /\
  (0 <= probL2toL3 params /\ probL2toL3 params <= 1) /\
  (0 <= probL3toL4 params /\ probL3toL4 params <= 1).

(** ** Weights: [getCropMultiplier] *)

Definition buyCount (color : CropColor) (params : GameParams) : Qc :=
  match color with
  | purple => buyCountPurple params
  | blue => buyCountBlue params
  | yellow => buyCountYellow params
  end.

Definition getCropMultiplier (color : CropColor) (params : GameParams) : Qc :=
  let maxCount :=
    Qc_max (Qc_max (buyCountPurple params) (buyCountBlue params)) (buyCountYellow params) in
  let currentCount := buyCount color params in
  if Qc_leb currentCount 0 then 0 else maxCount / currentCount.

(** The parameters with the three purchase quantities multiplied by [c]. *)
Definition scaleBuyCounts (c : Qc) (params : GameParams) : GameParams :=
  {| buyCountPurple := c * buyCountPurple params;
     buyCountBlue := c * buyCountBlue params;
     buyCountYellow := c * buyCountYellow params;
     probSurvival := probSurvival params;
     valL1 := valL1 params; valL2 := valL2 params;
     valL3 := valL3 params; valL4 := valL4 params;
     probL1toL2 := probL1toL2 params;
     probL2toL3 := probL2toL3 params;
     probL3toL4 := probL3toL4 params |}.

(** ** The same functions in the arithmetic of the host *)

(** [getSeedEV] and [getCropMultiplier] over binary64 floating-point
    numbers (the [number] of JavaScript), with the operations of the source
    in the order of the source.  A decimal literal denotes the nearest
    binary64 number, as it does in JavaScript. *)
Module Binary64.
Import PrimFloat.

#[local] Set Warnings "-inexact-float".

Record GameParams := {
  buyCountPurple : float;
  buyCountBlue : float;
  buyCountYellow : float;
  probSurvival : float;
  valL1 : float;
  valL2 : float;
  valL3 : float;
  valL4 : float;
  probL1toL2 : float;
  probL2toL3 : float;
  probL3toL4 : float
}.

Definition ProbVec : Type := float * float * float * float.

Definition nextP (params : GameParams) (p : ProbVec) : ProbVec :=
  let '(p0, p1, p2, p3) := p in
  (0 + p0 * (1 - probL1toL2 params),
   0 + p0 * probL1toL2 params + p1 * (1 - probL2toL3 params),
   0 + p1 * probL2toL3 params + p2 * (1 - probL3toL4 params),
   0 + p2 * probL3toL4 params + p3 * 1)%float.

Definition seedProbs (k : nat) (params : GameParams) : ProbVec :=
  Nat.iter k (nextP params) (1, 0, 0, 0)%float.

Definition weightedValue (params : GameParams) (p : ProbVec) : float :=
  let '(p0, p1, p2, p3) := p in
  (p0 * valL1 params + p1 * valL2 params + p2 * valL3 params + p3 * valL4 params)%float.

Definition getSeedEV (k : nat) (params : GameParams) : float :=
  weightedValue params (seedProbs k params).

(** [Math.max] on two numbers: [NaN] when either is, the greater one
    otherwise, and [+0] rather than [-0]. *)
Definition mathMax (x y : float) : float :=
  if is_nan x || is_nan y then nan
  else if (x <? y)%float then y
  else if (y <? x)%float then x
  else if is_zero x && get_sign x then y else x.

Definition maxTierValue (params : GameParams) : float :=
  mathMax (mathMax (valL1 params) (valL2 params)) (mathMax (valL3 params) (valL4 params)).

(** The three upgrade probabilities lie between 0 and 1, as a test. *)
Definition validUpgradeProbs (params : GameParams) : bool :=
  (0 <=? probL1toL2 params)%float && (probL1toL2 params <=? 1)%float
  && (0 <=? probL2toL3 params)%float && (probL2toL3 params <=? 1)%float
  && (0 <=? probL3toL4 params)%float && (probL3toL4 params <=? 1)%float.

Definition buyCount (color : CropColor) (params : GameParams) : float :=
  match color with
  | purple => buyCountPurple params
  | blue => buyCountBlue params
  | yellow => buyCountYellow params
  end.

Definition getCropMultiplier (color : CropColor) (params : GameParams) : float :=
  let maxCount :=
    mathMax (mathMax (buyCountPurple params) (buyCountBlue params))
            (buyCountYellow params) in
  let currentCount := buyCount color params in
  if (currentCount <=? 0)%float then 0%float else (maxCount / currentCount)%float.

Definition scaleBuyCounts (c : float) (params : GameParams) : GameParams :=
  {| buyCountPurple := (c * buyCountPurple params)%float;
     buyCountBlue := (c * buyCountBlue params)%float;
     buyCountYellow := (c * buyCountYellow params)%float;
     probSurvival := probSurvival params;
     valL1 := valL1 params; valL2 := valL2 params;
     valL3 := valL3 params; valL4 := valL4 params;
     probL1toL2 := probL1toL2 params;
     probL2toL3 := probL2toL3 params;
     probL3toL4 := probL3toL4 params |}.

(** [DEFAULT_PARAMS] of the interface. *)
Definition defaultParams : GameParams :=
  {| buyCountPurple := 10000; buyCountBlue := 8000; buyCountYellow := 5500;
     probSurvival := 0.1;
     valL1 := 0; valL2 := 10; valL3 := 400; valL4 := 800;
     probL1toL2 := 0.25; probL2toL3 := 0.18; probL3toL4 := 0.1 |}%float.

(** Four equal tier values 0.1 and three upgrade probabilities 0.1. *)
Definition flatParams : GameParams :=
  {| buyCountPurple := 10000; buyCountBlue := 8000; buyCountYellow := 5500;
     probSurvival := 0.1;
     valL1 := 0.1; valL2 := 0.1; valL3 := 0.1; valL4 := 0.1;
     probL1toL2 := 0.1; probL2toL3 := 0.1; probL3toL4 := 0.1 |}%float.

(** The factor of the scaling example. *)
Definition sevenTenths : float := 0.7%float.

(** The numbers next to 0.1 and to 20/11 that rounding produces. *)
Definition aboveTenth : float := 0.10000000000000002%float.
Definition twentyElevenths : float := 1.8181818181818181%float.
Definition aboveTwentyElevenths : float := 1.8181818181818183%float.

End Binary64.


(** ** Strings of the solver *)

Local Open Scope string_scope.

(** The text of a [side] and of a [color], as template strings print
    them. *)
Definition sideName (s : Side) : string :=
  match s with left => "left" | right => "right" end.

Definition colorName (c : CropColor) : string :=
  match c with purple => "purple" | blue => "blue" | yellow => "yellow" end.

(** The text of a count [k]: its decimal digits. *)
Definition numberToString (n : nat) : string :=
  NilZero.string_of_uint (Nat.to_uint n).

(** Whether the character [c] occurs in [s]. *)
Fixpoint occurs (c : ascii) (s : string) : bool :=
  match s with
  | EmptyString => false
  | String a s' => if Ascii.eqb a c then true else occurs c s'
  end.

(** A field identifier that holds neither of the two delimiters of a
    key. *)
Definition delimiterFree (s : string) : Prop :=
  occurs ":" s = false /\ occurs "|" s = false.

(** Comparison of strings by their code units, from the first that
    differs: an instance of [localeCompare] to compute with. *)
Definition codeUnitCompare (a b : string) : Z :=
  match String.compare a b with Lt => (-1)%Z | Eq => 0%Z | Gt => 1%Z end.

(** A comparison of strings by length: different strings of one length
    compare as equal. *)
Definition lengthCompare (a b : string) : Z :=
  (Z.of_nat (String.length a) - Z.of_nat (String.length b))%Z.

(** What ECMAScript requires of [localeCompare], a consistent comparison
    of strings: reversing the arguments reverses the sign, and the order is
    transitive.  Two different strings may compare as equal. *)
Record ConsistentComparison (cmp : string -> string -> Z) : Prop := {
  comparison_antisym : forall a b, Z.sgn (cmp b a) = (- Z.sgn (cmp a b))%Z;
  comparison_trans : forall a b c, (cmp a b <= 0)%Z -> (cmp b c <= 0)%Z -> (cmp a c <= 0)%Z
}.

(** [Array.prototype.sort] with a comparison function: a stable sort,
    here by insertion.  [insertSorted] puts [x] before the first element
    that is not smaller, so that among elements that compare as equal the
    order of the input is kept.  For a comparison function that is
    consistent (a total preorder) every stable sort returns this list. *)
Fixpoint insertSorted {A} (cmp : A -> A -> Z) (x : A) (l : list A) : list A :=
  match l with
  | [] => [x]
  | y :: l' => if (cmp x y <=? 0)%Z then x :: y :: l' else y :: insertSorted cmp x l'
  end.

Definition sortBy {A} (cmp : A -> A -> Z) (l : list A) : list A :=
  foldr (insertSorted cmp) [] l.

(** The identity of a plot: its field and its side. *)
Definition identity (p : LogicPlot) : string * Side := (fieldId p, side p).

(** [getPlotDisplayName] *)
Definition getPlotDisplayName (p : LogicPlot) : string :=
  "[" ++ fieldId p ++ " " ++ (match side p with left => "左" | right => "右" end)
      ++ "] "
      ++ (match color p with purple => "紫" | blue => "蓝" | yellow => "黄" end).

(** The description of the step that harvests [p]. *)
Definition stepDesc (p : LogicPlot) : string :=
  "收割 " ++ getPlotDisplayName p ++ " (Lv." ++ numberToString (k p) ++ ")".

(** The identifier handed to the interface for highlighting. *)
Definition plotId (p : LogicPlot) : string :=
  fieldId p ++ "-" ++ (match side p with left => "L" | right => "R" end).

(** ** The moves of the solver *)

(** [multiplier * seedEV] for the harvested plot. *)
Definition immediateGain (currentPlot : LogicPlot) (params : GameParams) : Qc :=
  (getCropMultiplier (color currentPlot) params * getSeedEV (k currentPlot) params)%Qc.

(** [plots.filter((_, idx) => idx !== i)] *)
Definition otherPlots (plots : list LogicPlot) (i : nat) : list LogicPlot :=
  delete i plots.

(** [otherPlots.find(p => p.fieldId === currentPlot.fieldId)] *)
Definition neighbor (plots : list LogicPlot) (i : nat) (currentPlot : LogicPlot)
  : option LogicPlot :=
  List.find (fun p => bool_decide (fieldId p = fieldId currentPlot)) (otherPlots plots i).

(** [otherPlots.filter(p => p.fieldId !== currentPlot.fieldId)] *)
Definition nonNeighbors (plots : list LogicPlot) (i : nat) (currentPlot : LogicPlot)
  : list LogicPlot :=
  List.filter (fun p => negb (bool_decide (fieldId p = fieldId currentPlot)))
              (otherPlots plots i).

(** [{...p, k: p.color !== currentPlot.color ? p.k + n : p.k}] *)
Definition grow (currentPlot : LogicPlot) (n : nat) (p : LogicPlot) : LogicPlot :=
  {| fieldId := fieldId p; side := side p; color := color p;
     k := if bool_decide (color p <> color currentPlot) then k p + n else k p |}.

Definition nextPlotsA (plots : list LogicPlot) (i : nat) (currentPlot : LogicPlot)
  : list LogicPlot :=
  map (grow currentPlot 1) (nonNeighbors plots i currentPlot).

Definition nextPlotsB (plots : list LogicPlot) (i : nat) (currentPlot nb : LogicPlot)
  : list LogicPlot :=
  grow currentPlot 2 nb :: map (grow currentPlot 1) (nonNeighbors plots i currentPlot).

(** The result for the empty list, and the initial [bestResult]. *)
Definition emptyResult : SolveResult :=
  {| maxEV := 0%Qc; path := []; bestMoveId := None |}.

Definition initialBest : SolveResult :=
  {| maxEV := (- 1)%Qc; path := []; bestMoveId := None |}.

(** Step 5 of the loop: [bestResult] after the move [currentPlot] of value
    [totalExpectedValue] and continuation [resA] has been compared. *)
Definition compareWithMax (currentPlot : LogicPlot) (totalExpectedValue : Qc)
    (resA bestResult : SolveResult) : SolveResult :=
  if Qc_gtb totalExpectedValue (maxEV bestResult) then
    {| maxEV := totalExpectedValue;
       path := stepDesc currentPlot :: path resA;
       bestMoveId := Some (plotId currentPlot) |}
  else bestResult.

(** The result for a list of one plot, when it is computed. *)
Definition singleResult (p : LogicPlot) (params : GameParams) : SolveResult :=
  compareWithMax p (immediateGain p params + 0)%Qc emptyResult initialBest.

(** The running maximum of a list of values, from [start], replaced on
    strict improvement only. *)
Definition runningMax (start : Qc) (values : list Qc) : Qc :=
  foldl (fun best v => if Qc_gtb v best then v else best) start values.

(** ** The value of a list without the cache *)

(** The value of the move [currentPlot = plots[i]], given the value [v] of
    the reduced lists. *)
Definition moveTotal (v : list LogicPlot -> Qc) (plots : list LogicPlot)
    (params : GameParams) (i : nat) (currentPlot : LogicPlot) : Qc :=
  match neighbor plots i currentPlot with
  | Some nb =>
      (immediateGain currentPlot params
       + (1 - probSurvival params) * v (nextPlotsA plots i currentPlot)
       + probSurvival params * v (nextPlotsB plots i currentPlot nb))%Qc
  | None => (immediateGain currentPlot params + v (nextPlotsA plots i currentPlot))%Qc
  end.

(** The values of the moves of the plots [rest], which are the plots of
    [plots] from the index [i] on. *)
Fixpoint moveTotals (v : list LogicPlot -> Qc) (plots : list LogicPlot)
    (params : GameParams) (i : nat) (rest : list LogicPlot) : list Qc :=
  match rest with
  | [] => []
  | currentPlot :: rest' =>
      moveTotal v plots params i currentPlot :: moveTotals v plots params (S i) rest'
  end.

(** The recurrence of the search, read as a definition by recursion on the
    number of plots: 0 for the empty list, and otherwise the running maximum
    of the values of the moves.  No cache is involved. *)
Fixpoint stateValue_fuel (fuel : nat) (params : GameParams) (plots : list LogicPlot)
  : Qc :=
  match fuel with
  | O => 0%Qc
  | S fuel' =>
      match plots with
      | [] => 0%Qc
      | _ :: _ =>
          runningMax (- 1)%Qc
            (moveTotals (stateValue_fuel fuel' params) plots params 0 plots)
      end
  end.

Definition stateValue (params : GameParams) (plots : list LogicPlot) : Qc :=
  stateValue_fuel (S (length plots)) params plots.

(** A list of plots as the application builds it: no field identifier holds
    a delimiter of the keys, and no two plots have the same field and
    side. *)
Definition wellFormed (plots : list LogicPlot) : Prop :=
  Forall (fun p => delimiterFree (fieldId p)) plots /\ NoDup (map identity plots).

(** ** The recurrence in the words of the specification *)

(** The per-choice expected value of the plot [p] at index [i]:
    [immediateGain + (1 - B) * v branchA + B * v branchB] when the plot has
    a neighbor in the list, [immediateGain + v branchA] when it has none,
    where [immediateGain] is the multiplier of the color times the expected
    value of the level, and [v] gives the value of a reduced list. *)
Definition perChoiceValue (v : list LogicPlot -> Qc) (plots : list LogicPlot)
    (params : GameParams) (i : nat) (p : LogicPlot) : Qc :=
  match neighbor plots i p with
  | Some nb =>
      (getCropMultiplier (color p) params * getSeedEV (k p) params
       + (1 - probSurvival params) * v (nextPlotsA plots i p)
       + probSurvival params * v (nextPlotsB plots i p nb))%Qc
  | None =>
      (getCropMultiplier (color p) params * getSeedEV (k p) params
       + v (nextPlotsA plots i p))%Qc
  end.

(** The per-choice values of all plots, in the order of the list. *)
Definition perChoiceValues (v : list LogicPlot -> Qc) (plots : list LogicPlot)
    (params : GameParams) : list Qc :=
  imap (fun i p => perChoiceValue v plots params i p) plots.

(** ** Sample data *)

Definition mkPlot (f : string) (s : Side) (c : CropColor) (n : nat) : LogicPlot :=
  {| fieldId := f; side := s; color := c; k := n |}.

(** The parameters the interface starts from, with a survival probability
    and three upgrade probabilities. *)
Definition sampleParams : GameParams :=
  {| buyCountPurple := Q2Qc 10000; buyCountBlue := Q2Qc 8000;
     buyCountYellow := Q2Qc 5500;
     probSurvival := Q2Qc (1 # 2);
     valL1 := Q2Qc 0; valL2 := Q2Qc 10; valL3 := Q2Qc 400; valL4 := Q2Qc 800;
     probL1toL2 := Q2Qc (1 # 2); probL2toL3 := Q2Qc (1 # 4);
     probL3toL4 := Q2Qc (1 # 10) |}.

(** Two fields with both plots, as the interface builds the list. *)
Definition samplePlots : list LogicPlot :=
  [mkPlot "field1" left purple 0; mkPlot "field1" right blue 0;
   mkPlot "field2" left purple 0; mkPlot "field2" right blue 0].

(** The parameters of the two-plot scenario: survival probability 0, the
    three upgrade probabilities 0, three equal purchase quantities, tier
    values 10, 20, 30 and 40. *)
Definition scenarioParams : GameParams :=
  {| buyCountPurple := Q2Qc 1; buyCountBlue := Q2Qc 1; buyCountYellow := Q2Qc 1;
     probSurvival := Q2Qc 0;
     valL1 := Q2Qc 10; valL2 := Q2Qc 20; valL3 := Q2Qc 30; valL4 := Q2Qc 40;
     probL1toL2 := Q2Qc 0; probL2toL3 := Q2Qc 0; probL3toL4 := Q2Qc 0 |}.

Definition scenarioPlots : list LogicPlot :=
  [mkPlot "field1" left purple 0; mkPlot "field1" right blue 0].

(** Parameters with negative tier values. *)
Definition negativeParams : GameParams :=
  {| buyCountPurple := Q2Qc 1; buyCountBlue := Q2Qc 1; buyCountYellow := Q2Qc 1;
     probSurvival := Q2Qc 0;
     valL1 := Q2Qc (-5); valL2 := Q2Qc (-5); valL3 := Q2Qc (-5); valL4 := Q2Qc (-5);
     probL1toL2 := Q2Qc 0; probL2toL3 := Q2Qc 0; probL3toL4 := Q2Qc 0 |}.

(** One plot. *)
Definition singlePlots : list LogicPlot := [mkPlot "field1" left purple 0].

(** Two plots of one color and one level, in two fields. *)
Definition alikePlots : list LogicPlot :=
  [mkPlot "field1" left purple 0; mkPlot "field2" left purple 0].

(** Two lists with the same key: a field identifier that holds the
    delimiters reads as two plots. *)
Definition plainPlots : list LogicPlot :=
  [mkPlot "a" left purple 0; mkPlot "b" left purple 0].

Definition craftedPlots : list LogicPlot :=
  [mkPlot "a:left:purple:0|b" left purple 0].

(** A list in which two plots have the same field and side, and a
    permutation of it. *)
Definition clashingPlots : list LogicPlot :=
  [mkPlot "field1" left purple 0; mkPlot "field1" left blue 0].

Definition clashingPlotsSwapped : list LogicPlot :=
  [mkPlot "field1" left blue 0; mkPlot "field1" left purple 0].

(** ** The interface: fields, plots and the handlers of the game *)

Module PlotConfig.
Record t := mk {
  id : string;
  color : CropColor;
  active : bool;
  k : nat
}.
End PlotConfig.

Module FieldConfig.
Record t := mk {
  id : string;
  left : PlotConfig.t;
  right : PlotConfig.t
}.
End FieldConfig.

(** The pending question on the neighbor of a harvested plot. *)
Record NeighborCheck := {
  targetFieldIdx : nat;
  neighborSide : Side;
  harvestedColor : CropColor
}.

(** The part of the state of [App] that the handlers of the game read and
    write. *)
Record AppState := {
  fields : list FieldConfig.t;
  neighborCheck : option NeighborCheck;
  fieldCount : nat
}.

(** [generateFields]: [count] fields, [field1], [field2], ..., each with a
    purple plot on the left and a blue plot on the right, both active at
    level 0. *)
Definition generateFields (count : nat) : list FieldConfig.t :=
  map (fun i =>
         {| FieldConfig.id := "field" ++ numberToString (i + 1);
            FieldConfig.left :=
              {| PlotConfig.id := "field" ++ numberToString (i + 1) ++ "-L";
                 PlotConfig.color := purple; PlotConfig.active := true;
                 PlotConfig.k := 0 |};
            FieldConfig.right :=
              {| PlotConfig.id := "field" ++ numberToString (i + 1) ++ "-R";
                 PlotConfig.color := blue; PlotConfig.active := true;
                 PlotConfig.k := 0 |} |})
      (seq 0 count).

(** [side === 'left' ? field.left : field.right] *)
Definition plotAt (s : Side) (f : FieldConfig.t) : PlotConfig.t :=
  match s with left => FieldConfig.left f | right => FieldConfig.right f end.

(** The field [f] with the plot [p] on the side [s]. *)
Definition withPlot (s : Side) (p : PlotConfig.t) (f : FieldConfig.t) : FieldConfig.t :=
  match s with
  | left => {| FieldConfig.id := FieldConfig.id f; FieldConfig.left := p;
               FieldConfig.right := FieldConfig.right f |}
  | right => {| FieldConfig.id := FieldConfig.id f; FieldConfig.left := FieldConfig.left f;
                FieldConfig.right := p |}
  end.

Definition otherSide (s : Side) : Side :=
  match s with left => right | right => left end.

(** [plot.active = false] *)
Definition deactivate (p : PlotConfig.t) : PlotConfig.t :=
  {| PlotConfig.id := PlotConfig.id p; PlotConfig.color := PlotConfig.color p;
     PlotConfig.active := false; PlotConfig.k := PlotConfig.k p |}.

(** [plot.k += 1] *)
Definition addLevel (p : PlotConfig.t) : PlotConfig.t :=
  {| PlotConfig.id := PlotConfig.id p; PlotConfig.color := PlotConfig.color p;
     PlotConfig.active := PlotConfig.active p; PlotConfig.k := PlotConfig.k p + 1 |}.

(** What [applyGlobalUpdate] does to one plot: an active plot of another
    color than the harvested one gains a level. *)
Definition globalUpdatePlot (harvested : CropColor) (p : PlotConfig.t) : PlotConfig.t :=
  if PlotConfig.active p && bool_decide (PlotConfig.color p <> harvested)
  then addLevel p else p.

(** [applyGlobalUpdate]; the third argument is not used by the source. *)
Definition applyGlobalUpdate (currentFields : list FieldConfig.t)
    (harvested : CropColor) (skipFieldIdx : Z) : list FieldConfig.t :=
  map (fun f =>
         {| FieldConfig.id := FieldConfig.id f;
            FieldConfig.left := globalUpdatePlot harvested (FieldConfig.left f);
            FieldConfig.right := globalUpdatePlot harvested (FieldConfig.right f) |})
      currentFields.

(** [handleHarvestClick].  An index outside the list makes the source throw
    before it changes anything: [None].  The source writes into the plot
    objects of the current state and then stores a new array of fields; no
    two plots share an object ([generateFields] and [updatePlotConfig] build
    fresh ones), so the state it stores is the one computed here. *)
Definition handleHarvestClick (st : AppState) (fieldIndex : nat) (s : Side)
  : option AppState :=
  match fields st !! fieldIndex with
  | None => None
  | Some field =>
      let plot := plotAt s field in
      let neighborSide := otherSide s in
      let neighbor := plotAt neighborSide field in
      let newFields := <[fieldIndex := withPlot s (deactivate plot) field]> (fields st) in
      if PlotConfig.active neighbor then
        Some {| fields := newFields;
                neighborCheck :=
                  Some {| targetFieldIdx := fieldIndex; neighborSide := neighborSide;
                          harvestedColor := PlotConfig.color plot |};
                fieldCount := fieldCount st |}
      else
        Some {| fields := applyGlobalUpdate newFields (PlotConfig.color plot) (-1);
                neighborCheck := neighborCheck st;
                fieldCount := fieldCount st |}
  end.

(** [handleNeighborResult].  Without a pending question it returns at once;
    an index outside the list makes the source throw: [None]. *)
Definition handleNeighborResult (st : AppState) (survived : bool) : option AppState :=
  match neighborCheck st with
  | None => Some st
  | Some nc =>
      match fields st !! targetFieldIdx nc with
      | None => None
      | Some targetField =>
          let neighborPlot := plotAt (neighborSide nc) targetField in
          let neighborPlot' :=
            if survived then
              if bool_decide (PlotConfig.color neighborPlot <> harvestedColor nc)
              then addLevel neighborPlot else neighborPlot
            else deactivate neighborPlot in
          let newFields :=
            <[targetFieldIdx nc := withPlot (neighborSide nc) neighborPlot' targetField]>
              (fields st) in
          Some {| fields := applyGlobalUpdate newFields (harvestedColor nc) (-1);
                  neighborCheck := None;
                  fieldCount := fieldCount st |}
      end
  end.

(** [handleFieldCountChange] *)
Definition handleFieldCountChange (st : AppState) (count : nat) : AppState :=
  {| fields := generateFields count; neighborCheck := None; fieldCount := count |}.

(** [handleReset], with the answer to the confirmation. *)
Definition handleReset (st : AppState) (confirmed : bool) : AppState :=
  if confirmed
  then {| fields := generateFields (fieldCount st); neighborCheck := None;
          fieldCount := fieldCount st |}
  else st.

(** A [Partial<PlotConfig>]: the properties that are present. *)
Record PlotUpdates := {
  newId : option string;
  newColor : option CropColor;
  newActive : option bool;
  newK : option nat
}.

(** [{ ...plot, ...updates }] *)
Definition mergePlot (plot : PlotConfig.t) (updates : PlotUpdates) : PlotConfig.t :=
  {| PlotConfig.id := default (PlotConfig.id plot) (newId updates);
     PlotConfig.color := default (PlotConfig.color plot) (newColor updates);
     PlotConfig.active := default (PlotConfig.active plot) (newActive updates);
     PlotConfig.k := default (PlotConfig.k plot) (newK updates) |}.

(** [updatePlotConfig].  An index outside the list makes the source throw:
    [None]. *)
Definition updatePlotConfig (st : AppState) (fieldIndex : nat) (s : Side)
    (updates : PlotUpdates) : option AppState :=
  match fields st !! fieldIndex with
  | None => None
  | Some field =>
      Some {| fields :=
                <[fieldIndex := withPlot s (mergePlot (plotAt s field) updates) field]>
                  (fields st);
              neighborCheck := neighborCheck st;
              fieldCount := fieldCount st |}
  end.

(** The only update the plot selector sends: [{ color: c }]. *)
Definition colorUpdate (c : CropColor) : PlotUpdates :=
  {| newId := None; newColor := Some c; newActive := None; newK := None |}.

(** The test of the effect that starts a new round:
    [fields.every(f => !f.left.active && !f.right.active)]. *)
Definition isGameOver (fs : list FieldConfig.t) : bool :=
  forallb (fun f => negb (PlotConfig.active (FieldConfig.left f))
                    && negb (PlotConfig.active (FieldConfig.right f))) fs.

(** What that effect does when its timer fires: nothing unless the game is
    over and no question is pending. *)
Definition autoReset (st : AppState) : AppState :=
  if isGameOver (fields st) && bool_decide (neighborCheck st = None)
  then {| fields := generateFields (fieldCount st); neighborCheck := neighborCheck st;
          fieldCount := fieldCount st |}
  else st.

(** The plot of side [s] of the field [f], as [runSolver] hands it to the
    solver. *)
Definition logicPlotOf (f : FieldConfig.t) (s : Side) : LogicPlot :=
  {| fieldId := FieldConfig.id f; side := s;
     color := PlotConfig.color (plotAt s f); k := PlotConfig.k (plotAt s f) |}.

(** The plots of one field that [runSolver] pushes: the left one if it is
    active, then the right one if it is active. *)
Definition logicPlotsOfField (f : FieldConfig.t) : list LogicPlot :=
  (if PlotConfig.active (FieldConfig.left f) then [logicPlotOf f left] else [])
  ++ (if PlotConfig.active (FieldConfig.right f) then [logicPlotOf f right] else []).

(** [logicPlots] of [runSolver]. *)
Definition logicPlotsOf (fs : list FieldConfig.t) : list LogicPlot :=
  concat (map logicPlotsOfField fs).

(** The states the interface can reach from freshly generated fields by its
    handlers. *)
Inductive Reachable : AppState -> Prop :=
| reach_start count :
    Reachable {| fields := generateFields count; neighborCheck := None;
                 fieldCount := count |}
| reach_harvest st fieldIndex s st' :
    Reachable st -> handleHarvestClick st fieldIndex s = Some st' -> Reachable st'
| reach_neighbor st survived st' :
    Reachable st -> handleNeighborResult st survived = Some st' -> Reachable st'
| reach_count st count :
    Reachable st -> Reachable (handleFieldCountChange st count)
| reach_reset st confirmed :
    Reachable st -> Reachable (handleReset st confirmed)
| reach_color st fieldIndex s c st' :
    Reachable st -> updatePlotConfig st fieldIndex s (colorUpdate c) = Some st' ->
    Reachable st'
| reach_auto st :
    Reachable st -> Reachable (autoReset st).

(** What a step of the game may do to a plot: it keeps its identifier and
    its color, it is never made active again, and its level does not
    decrease and gains at most [n]. *)
Definition plotAdvances (n : nat) (p p' : PlotConfig.t) : Prop :=
  PlotConfig.id p' = PlotConfig.id p /\
  PlotConfig.color p' = PlotConfig.color p /\
  (PlotConfig.active p' = true -> PlotConfig.active p = true) /\
  (PlotConfig.k p <= PlotConfig.k p')%nat /\
  (PlotConfig.k p' <= PlotConfig.k p + n)%nat.

Definition fieldAdvances (n : nat) (f f' : FieldConfig.t) : Prop :=
  FieldConfig.id f' = FieldConfig.id f /\
  plotAdvances n (FieldConfig.left f) (FieldConfig.left f') /\
  plotAdvances n (FieldConfig.right f) (FieldConfig.right f').

(** Fields whose identifiers are distinct and hold no delimiter of the
    keys, and whose plots are named after their field and side. *)
Definition fieldsOk (fs : list FieldConfig.t) : Prop :=
  NoDup (map FieldConfig.id fs) /\
  Forall (fun f => delimiterFree (FieldConfig.id f) /\
                   PlotConfig.id (FieldConfig.left f) = FieldConfig.id f ++ "-L" /\
                   PlotConfig.id (FieldConfig.right f) = FieldConfig.id f ++ "-R") fs.


(** ** Sample states *)

(** The state of the interface with [count] fresh fields. *)
Definition startState (count : nat) : AppState :=
  {| fields := generateFields count; neighborCheck := None; fieldCount := count |}.

Definition mkField (leftActive : bool) (leftK : nat) (rightActive : bool) (rightK : nat)
  : FieldConfig.t :=
  {| FieldConfig.id := "field1";
     FieldConfig.left :=
       {| PlotConfig.id := "field1-L"; PlotConfig.color := purple;
          PlotConfig.active := leftActive; PlotConfig.k := leftK |};
     FieldConfig.right :=
       {| PlotConfig.id := "field1-R"; PlotConfig.color := blue;
          PlotConfig.active := rightActive; PlotConfig.k := rightK |} |}.

(** One field, after the harvest of its left plot: the question on the
    right plot is pending. *)
Definition askedState : AppState :=
  {| fields := [mkField false 0 true 0];
     neighborCheck := Some {| targetFieldIdx := 0; neighborSide := right;
                              harvestedColor := purple |};
     fieldCount := 1 |}.

(** Then the right plot survived: it stands alone, two levels up. *)
Definition loneState : AppState :=
  {| fields := [mkField false 0 true 2]; neighborCheck := None; fieldCount := 1 |}.

(** Or it withered. *)
Definition witheredState : AppState :=
  {| fields := [mkField false 0 false 0]; neighborCheck := None; fieldCount := 1 |}.

(** The lone plot harvested. *)
Definition overState : AppState :=
  {| fields := [mkField false 0 false 2]; neighborCheck := None; fieldCount := 1 |}.
Section Solver.

(** The collation of the host, [String.prototype.localeCompare]. *)
Variable localeCompare : string -> string -> Z.

(** ** State keys: [generateKey] *)

(** The comparison function handed to [sort]. *)
Definition comparePlots (a b : LogicPlot) : Z :=
  if bool_decide (fieldId a <> fieldId b)
  then localeCompare (fieldId a) (fieldId b)
  else localeCompare (sideName (side a)) (sideName (side b)).

(** No two different plots of the list compare as equal in the sort. *)
Definition tieFree (plots : list LogicPlot) : Prop :=
  forall p q, p ∈ plots -> q ∈ plots -> comparePlots p q = 0%Z -> p = q.

(** [`${p.fieldId}:${p.side}:${p.color}:${p.k}`] *)
Definition plotKey (p : LogicPlot) : string :=
  fieldId p ++ ":" ++ sideName (side p) ++ ":" ++ colorName (color p)
            ++ ":" ++ numberToString (k p).

Definition generateKey (plots : list LogicPlot) : string :=
  String.concat "|" (map plotKey (sortBy comparePlots plots)).

(** ** The solver: [solve] *)

(** The recursive calls of [solve] take the cache and hand it back; a
    call that is cut short by the bound on the depth gives [None]. *)
Definition Solver : Type :=
  list LogicPlot -> GameParams -> gmap string SolveResult ->
  option (SolveResult * gmap string SolveResult).

(** Steps 1 to 4 of the loop for the move [currentPlot = plots[i]]: the
    two recursive calls and [totalExpectedValue].  It hands back the value
    of the move, [resA] and the cache. *)
Definition moveValue (rec : Solver) (plots : list LogicPlot) (params : GameParams)
    (i : nat) (currentPlot : LogicPlot) (memo : gmap string SolveResult)
  : option (Qc * SolveResult * gmap string SolveResult) :=
  match rec (nextPlotsA plots i currentPlot) params memo with
  | None => None
  | Some (resA, memo) =>
      match neighbor plots i currentPlot with
      | Some nb =>
          match rec (nextPlotsB plots i currentPlot nb) params memo with
          | None => None
          | Some (resB, memo) =>
              let branchB_EV := maxEV resB in
              Some ((immediateGain currentPlot params
                     + (1 - probSurvival params) * maxEV resA
                     + probSurvival params * branchB_EV)%Qc, resA, memo)
          end
      | None => Some ((immediateGain currentPlot params + maxEV resA)%Qc, resA, memo)
      end
  end.

(** The loop [for (let i = 0; i < plots.length; i++)], from the index [i]
    on: [rest] holds [plots[i]], [plots[i+1]], ... *)
Fixpoint solveLoop (rec : Solver) (plots : list LogicPlot) (params : GameParams)
    (i : nat) (rest : list LogicPlot) (bestResult : SolveResult)
    (memo : gmap string SolveResult)
  : option (SolveResult * gmap string SolveResult) :=
  match rest with
  | [] => Some (bestResult, memo)
  | currentPlot :: rest' =>
      match moveValue rec plots params i currentPlot memo with
      | None => None
      | Some (totalExpectedValue, resA, memo) =>
          solveLoop rec plots params (S i) rest'
            (compareWithMax currentPlot totalExpectedValue resA bestResult) memo
      end
  end.

(** The body of [solve], with [rec] for its recursive calls. *)
Definition solveBody (rec : Solver) : Solver :=
  fun plots params memo =>
    match plots with
    | [] => Some (emptyResult, memo)
    | _ :: _ =>
        let stateKey := generateKey plots in
        match memo !! stateKey with
        | Some cached => Some (cached, memo)
        | None =>
            match solveLoop rec plots params 0 plots initialBest memo with
            | None => None
            | Some (bestResult, memo) => Some (bestResult, <[stateKey := bestResult]> memo)
            end
        end
    end.

(** [solve] with at most [fuel] nested calls. *)
Fixpoint solve_fuel (fuel : nat) : Solver :=
  match fuel with
  | O => fun _ _ _ => None
  | S fuel' => solveBody (solve_fuel fuel')
  end.

(** [solve]: the nesting of calls never exceeds the number of plots by more
    than one (see [solve_is_Some] and [solve_fuel_solve]). *)
Definition solve : Solver :=
  fun plots params memo => solve_fuel (S (length plots)) plots params memo.

(** A cache whose entries, for the keys of well-formed lists, hold the
    value of the list under [params]. *)
Definition validCache (params : GameParams) (memo : gmap string SolveResult) : Prop :=
  forall plots r,
    wellFormed plots -> memo !! generateKey plots = Some r ->
    maxEV r = stateValue params plots.

(** [clearMemo] *)
Definition clearMemo (memo : gmap string SolveResult) : gmap string SolveResult := ∅.

(** [solve(plots, params).maxEV] when the call starts from a cleared
    cache. *)
Definition solvedValue (params : GameParams) (plots : list LogicPlot) : Qc :=
  match solve plots params (clearMemo ∅) with
  | Some (r, _) => maxEV r
  | None => 0%Qc
  end.

(** ** The moves as the solver evaluates them *)

(** [MovesEvaluated rec plots params i rest memo moves memo']: from the
    cache [memo], the loop over [rest] (the plots from index [i] on) finds
    the values and continuations [moves], in order, and leaves the cache
    [memo'].  The value of a move is the sum the source computes from the
    results [rec] returns for the two reduced lists. *)
Inductive MovesEvaluated (rec : Solver) (plots : list LogicPlot) (params : GameParams)
  : nat -> list LogicPlot -> gmap string SolveResult ->
    list (Qc * SolveResult) -> gmap string SolveResult -> Prop :=
| Moves_done i memo :
    MovesEvaluated rec plots params i [] memo [] memo
| Moves_neighbor i currentPlot rest memo nb resA memoA resB memoB moves memo' :
    neighbor plots i currentPlot = Some nb ->
    rec (nextPlotsA plots i currentPlot) params memo = Some (resA, memoA) ->
    rec (nextPlotsB plots i currentPlot nb) params memoA = Some (resB, memoB) ->
    MovesEvaluated rec plots params (S i) rest memoB moves memo' ->
    MovesEvaluated rec plots params i (currentPlot :: rest) memo
      (((immediateGain currentPlot params
         + (1 - probSurvival params) * maxEV resA
         + probSurvival params * maxEV resB)%Qc, resA) :: moves) memo'
| Moves_alone i currentPlot rest memo resA memoA moves memo' :
    neighbor plots i currentPlot = None ->
    rec (nextPlotsA plots i currentPlot) params memo = Some (resA, memoA) ->
    MovesEvaluated rec plots params (S i) rest memoA moves memo' ->
    MovesEvaluated rec plots params i (currentPlot :: rest) memo
      (((immediateGain currentPlot params + maxEV resA)%Qc, resA) :: moves) memo'.

(** [bestResult] after the moves [moves] of the plots [rest] have been
    compared in order. *)
Fixpoint bestOf (rest : list LogicPlot) (moves : list (Qc * SolveResult))
    (bestResult : SolveResult) : SolveResult :=
  match rest, moves with
  | currentPlot :: rest', (total, resA) :: moves' =>
      bestOf rest' moves' (compareWithMax currentPlot total resA bestResult)
  | _, _ => bestResult
  end.


(** ** Invariants of the cache *)

(** A cache whose entries, for the keys of well-formed lists, satisfy [P]. *)
Definition cacheSatisfies (P : list LogicPlot -> SolveResult -> Prop)
    (memo : gmap string SolveResult) : Prop :=
  forall plots r,
    wellFormed plots -> memo !! generateKey plots = Some r -> P plots r.

(** The fields that still have a plot in the list. *)
Definition fieldsIn (plots : list LogicPlot) : gset string :=
  list_to_set (map fieldId plots).

(** What the loop knows of the move of [plots[i]], when the results of the
    recursive calls satisfy [P]: the continuation satisfies [P] on branch A,
    and the value is the sum of the source. *)
Definition moveSatisfies (P : list LogicPlot -> SolveResult -> Prop)
    (plots : list LogicPlot) (params : GameParams) (i : nat) (currentPlot : LogicPlot)
    (total : Qc) (resA : SolveResult) : Prop :=
  P (nextPlotsA plots i currentPlot) resA /\
  match neighbor plots i currentPlot with
  | Some nb =>
      exists resB,
        P (nextPlotsB plots i currentPlot nb) resB /\
        total = (immediateGain currentPlot params
                 + (1 - probSurvival params) * maxEV resA
                 + probSurvival params * maxEV resB)%Qc
  | None => total = (immediateGain currentPlot params + maxEV resA)%Qc
  end.

(** ** The call of the solver by the interface *)

(** What [runSolver] computes from the fields: it clears the cache, builds
    the list of the active plots, and asks [solve] when that list is not
    empty; otherwise the suggestion is [null]. *)
Definition runSolver (st : AppState) (params : GameParams)
    (memo : gmap string SolveResult)
  : option (option SolveResult * gmap string SolveResult) :=
  let memo := clearMemo memo in
  let logicPlots := logicPlotsOf (fields st) in
  if Nat.ltb 0 (length logicPlots) then
    match solve logicPlots params memo with
    | Some (res, memo') => Some (Some res, memo')
    | None => None
    end
  else Some (None, memo).

(** Whether a field still has an active plot. *)
Definition hasActivePlot (f : FieldConfig.t) : bool :=
  PlotConfig.active (FieldConfig.left f) || PlotConfig.active (FieldConfig.right f).
(** * Facts on numbers *)

Lemma Qc_eq_Qeq (x y : Qc) : x = y -> (this x == this y)%Q.
Proof. intros ->. reflexivity. Qed.

Lemma Qc_neq_Qeq (x y : Qc) : x <> y -> ~ (this x == this y)%Q.
Proof. intros H E. apply H. now apply Qc_is_canon. Qed.

(** Moving a goal and its hypotheses from [Qc] to [Q], where [lra] and
    [nra] work. *)
Ltac Qc_to_Q :=
  repeat match goal with
         | |- @eq Qc _ _ => apply Qc_is_canon
         | |- ~ @eq Qc _ _ =>
             let E := fresh in intros E; apply Qc_eq_Qeq in E; revert E
         | H : @eq Qc _ _ |- _ => apply Qc_eq_Qeq in H
         | H : ~ @eq Qc _ _ |- _ => apply Qc_neq_Qeq in H
         end;
  unfold Qcle, Qclt, Qcdiv, Qcminus in *;
  cbn [this Qcplus Qcmult Qcopp Qcinv Q2Qc] in *;
  rewrite ?Qred_correct in *.

Lemma Qc_gtb_lt x y : Qc_gtb x y = true <-> y < x.
Proof.
  unfold Qc_gtb, Qclt. rewrite Qgt_alt.
  destruct (this x ?= this y)%Q; intuition congruence.
Qed.

Lemma Qc_gtb_le x y : Qc_gtb x y = false <-> x <= y.
Proof.
  rewrite Qcle_ngt, <- Qc_gtb_lt. destruct (Qc_gtb x y); intuition congruence.
Qed.

Lemma Qc_max_spec x y : (x <= y /\ Qc_max x y = y) \/ (y <= x /\ Qc_max x y = x).
Proof.
  unfold Qc_max. destruct (Qc_gtb y x) eqn:E.
  - left. apply Qc_gtb_lt in E. auto using Qclt_le_weak.
  - right. apply Qc_gtb_le in E. auto.
Qed.

Lemma Qc_min_spec x y : (x <= y /\ Qc_min x y = x) \/ (y <= x /\ Qc_min x y = y).
Proof.
  unfold Qc_min. destruct (Qc_gtb x y) eqn:E.
  - right. apply Qc_gtb_lt in E. auto using Qclt_le_weak.
  - left. apply Qc_gtb_le in E. auto.
Qed.

(** * Properties of the seed value *)

Lemma nextP_distribution params p :
  validUpgradeProbs params -> isDistribution p -> isDistribution (nextP params p).
Proof.
  destruct p as [[[p0 p1] p2] p3].
  intros [[? ?] [[? ?] [? ?]]] (? & ? & ? & ? & Hsum). cbn.
  repeat split; Qc_to_Q; nra.
Qed.

Lemma seedProbs_distribution k params :
  validUpgradeProbs params -> isDistribution (seedProbs k params).
Proof.
  intros Hv. induction k as [|k IH].
  - cbn. repeat split; Qc_to_Q; lra.
  - unfold seedProbs. rewrite Nat.iter_succ. now apply nextP_distribution.
Qed.

Lemma minTierValue_le params :
  minTierValue params <= valL1 params /\ minTierValue params <= valL2 params /\
  minTierValue params <= valL3 params /\ minTierValue params <= valL4 params.
Proof.
  unfold minTierValue.
  destruct (Qc_min_spec (valL1 params) (valL2 params)) as [[? ->]|[? ->]],
           (Qc_min_spec (valL3 params) (valL4 params)) as [[? ->]|[? ->]];
  match goal with |- context [Qc_min ?a ?b] =>
    destruct (Qc_min_spec a b) as [[? ->]|[? ->]] end;
  Qc_to_Q; repeat split; lra.
Qed.

Lemma maxTierValue_ge params :
  valL1 params <= maxTierValue params /\ valL2 params <= maxTierValue params /\
  valL3 params <= maxTierValue params /\ valL4 params <= maxTierValue params.
Proof.
  unfold maxTierValue.
  destruct (Qc_max_spec (valL1 params) (valL2 params)) as [[? ->]|[? ->]],
           (Qc_max_spec (valL3 params) (valL4 params)) as [[? ->]|[? ->]];
  match goal with |- context [Qc_max ?a ?b] =>
    destruct (Qc_max_spec a b) as [[? ->]|[? ->]] end;
  Qc_to_Q; repeat split; lra.
Qed.

Lemma weightedValue_bounds params p :
  isDistribution p ->
  minTierValue params <= weightedValue params p /\
  weightedValue params p <= maxTierValue params.
Proof.
  destruct p as [[[p0 p1] p2] p3]. intros (? & ? & ? & ? & Hsum).
  destruct (minTierValue_le params) as (? & ? & ? & ?).
  destruct (maxTierValue_ge params) as (? & ? & ? & ?).
  cbn. Qc_to_Q.
  generalize dependent (this (minTierValue params)).
  generalize dependent (this (maxTierValue params)).
  intros M ? ? ? ? m ? ? ? ?.
  assert (E : (this p3 == 1 - this p0 - this p1 - this p2)%Q) by lra.
  rewrite E in *. split; nra.
Qed.

Lemma getSeedEV_0 params : getSeedEV 0 params = valL1 params.
Proof. unfold getSeedEV. cbn. ring. Qed.


(** * Properties of the weights *)

Lemma Qc_leb_scale c x : 0 < c -> Qc_leb (c * x) 0 = Qc_leb x 0.
Proof.
  intros Hc. unfold Qc_leb. f_equal.
  destruct (Qc_gtb x 0) eqn:E.
  - apply Qc_gtb_lt in E. apply Qc_gtb_lt. Qc_to_Q. nra.
  - apply Qc_gtb_le in E. apply Qc_gtb_le. Qc_to_Q. nra.
Qed.

Lemma Qc_max_scale c x y : 0 < c -> Qc_max (c * x) (c * y) = c * Qc_max x y.
Proof.
  intros Hc. unfold Qc_max.
  destruct (Qc_gtb y x) eqn:E.
  - apply Qc_gtb_lt in E.
    assert (E' : Qc_gtb (c * y) (c * x) = true) by (apply Qc_gtb_lt; Qc_to_Q; nra).
    now rewrite E'.
  - apply Qc_gtb_le in E.
    assert (E' : Qc_gtb (c * y) (c * x) = false) by (apply Qc_gtb_le; Qc_to_Q; nra).
    now rewrite E'.
Qed.

Lemma buyCount_scale color c params :
  buyCount color (scaleBuyCounts c params) = c * buyCount color params.
Proof. now destruct color. Qed.


(** * Properties of the strings *)

#[local] Arguments String.append !_ _ / : simpl nomatch.

Lemma occurs_app c a b : occurs c (a ++ b) = occurs c a || occurs c b.
Proof.
  induction a as [|x a IH]; cbn; [reflexivity|].
  destruct (Ascii.eqb x c); [reflexivity|exact IH].
Qed.

(** A string is cut in one way only at the first occurrence of a
    character. *)
Lemma app_delimiter_inj c a a' b b' :
  occurs c a = false -> occurs c a' = false ->
  a ++ String c b = a' ++ String c b' -> a = a' /\ b = b'.
Proof.
  revert a'. induction a as [|x a IH]; intros [|x' a']; cbn; intros Ha Ha' E.
  - now inversion E.
  - inversion E; subst. now rewrite Ascii.eqb_refl in Ha'.
  - inversion E; subst. now rewrite Ascii.eqb_refl in Ha.
  - inversion E; subst.
    destruct (Ascii.eqb x' c); [discriminate|].
    destruct (IH a' Ha Ha' H1) as [-> ->]. now split.
Qed.

Lemma sideName_inj s s' : sideName s = sideName s' -> s = s'.
Proof. now destruct s, s'. Qed.

Lemma colorName_inj c c' : colorName c = colorName c' -> c = c'.
Proof. now destruct c, c'. Qed.

Lemma to_uint_not_Nil n : Nat.to_uint n <> Decimal.Nil.
Proof.
  intros E. pose proof (Unsigned.of_to n) as H. rewrite E in H. cbn in H. subst n.
  discriminate E.
Qed.

Lemma numberToString_inj n n' : numberToString n = numberToString n' -> n = n'.
Proof.
  unfold numberToString. intros E.
  apply (f_equal NilZero.uint_of_string) in E.
  rewrite !NilZero.usu in E by apply to_uint_not_Nil.
  apply Unsigned.to_uint_inj. congruence.
Qed.

(** A character that is not a digit does not occur in the text of a
    count. *)
Lemma occurs_digits c d :
  (forallb (fun x => negb (Ascii.eqb x c))
           (list_ascii_of_string "0123456789") = true) ->
  occurs c (NilEmpty.string_of_uint d) = false.
Proof.
  cbn. rewrite !andb_true_iff, !negb_true_iff.
  intros (? & ? & ? & ? & ? & ? & ? & ? & ? & ? & _).
  induction d; cbn; [reflexivity|..];
    match goal with H : ?e = false |- context [if ?e then _ else _] => now rewrite H end.
Qed.

Lemma occurs_numberToString c n :
  (forallb (fun x => negb (Ascii.eqb x c))
           (list_ascii_of_string "0123456789") = true) ->
  occurs c (numberToString n) = false.
Proof.
  intros Hc. unfold numberToString, NilZero.string_of_uint.
  pose proof (occurs_digits c (Nat.to_uint n) Hc) as H.
  destruct (Nat.to_uint n) eqn:E; [|assumption..].
  now apply to_uint_not_Nil in E.
Qed.

Lemma concat_cons2 sep x y l :
  String.concat sep (x :: y :: l) = x ++ sep ++ String.concat sep (y :: l).
Proof. reflexivity. Qed.

Lemma append_nonempty a b : a <> "" -> a ++ b <> "".
Proof. now destruct a. Qed.

(** Joining with a separator loses nothing, when no element holds the
    separator and no element is empty. *)
Lemma concat_delimiter_inj c l1 l2 :
  Forall (fun s => occurs c s = false /\ s <> "") l1 ->
  Forall (fun s => occurs c s = false /\ s <> "") l2 ->
  String.concat (String c "") l1 = String.concat (String c "") l2 -> l1 = l2.
Proof.
  intros H1. revert l2. induction H1 as [|x l1 [Hx Hxne] Hl1 IH]; intros l2 H2 E.
  - destruct H2 as [|y l2 [_ Hyne] _]; [reflexivity|]. exfalso.
    destruct l2; [cbn in E; congruence|].
    rewrite concat_cons2 in E. cbn [String.concat] in E.
    symmetry in E. now apply append_nonempty in E.
  - destruct H2 as [|y l2 [Hy Hyne] Hl2].
    { exfalso. destruct l1; [cbn in E; congruence|].
      rewrite concat_cons2 in E. now apply append_nonempty in E. }
    destruct l1 as [|x' l1], l2 as [|y' l2].
    + cbn in E. now subst.
    + exfalso. rewrite concat_cons2 in E.
      change (String.concat (String c "") [x]) with x in E.
      rewrite E, occurs_app in Hx. cbn in Hx. rewrite Ascii.eqb_refl in Hx.
      now rewrite orb_true_r in Hx.
    + exfalso. rewrite concat_cons2 in E.
      change (String.concat (String c "") [y]) with y in E.
      rewrite <- E, occurs_app in Hy. cbn in Hy. rewrite Ascii.eqb_refl in Hy.
      now rewrite orb_true_r in Hy.
    + rewrite !concat_cons2 in E. cbn [append] in E.
      apply app_delimiter_inj in E as [-> E]; [|assumption..].
      f_equal. now apply IH.
Qed.

(** * Properties of the sort *)

Lemma insertSorted_Permutation {A} (cmp : A -> A -> Z) x l :
  insertSorted cmp x l ≡ₚ x :: l.
Proof.
  induction l as [|y l IH]; cbn; [reflexivity|].
  destruct (cmp x y <=? 0)%Z; [reflexivity|].
  rewrite IH. apply Permutation_swap.
Qed.

Lemma sortBy_Permutation {A} (cmp : A -> A -> Z) l : sortBy cmp l ≡ₚ l.
Proof.
  induction l as [|x l IH]; cbn; [reflexivity|].
  now rewrite insertSorted_Permutation, IH.
Qed.

(** * Properties of the state keys *)

Lemma occurs_sideName s : occurs ":" (sideName s) = false /\ occurs "|" (sideName s) = false.
Proof. now destruct s. Qed.

Lemma occurs_colorName c : occurs ":" (colorName c) = false /\ occurs "|" (colorName c) = false.
Proof. now destruct c. Qed.

Lemma plotKey_inj p q :
  delimiterFree (fieldId p) -> delimiterFree (fieldId q) ->
  plotKey p = plotKey q -> p = q.
Proof.
  destruct p as [f s c n], q as [f' s' c' n']. unfold plotKey. cbn.
  intros [Hf _] [Hf' _] E.
  apply app_delimiter_inj in E as [-> E]; [|assumption..].
  apply app_delimiter_inj in E as [Es E]; [|apply occurs_sideName..].
  apply app_delimiter_inj in E as [Ec E]; [|apply occurs_colorName..].
  apply sideName_inj in Es. apply colorName_inj in Ec. apply numberToString_inj in E.
  now subst.
Qed.

Lemma plotKey_no_bar p :
  delimiterFree (fieldId p) -> occurs "|" (plotKey p) = false /\ plotKey p <> "".
Proof.
  intros [_ Hf]. unfold plotKey. split.
  - rewrite occurs_app, Hf. cbn.
    rewrite occurs_app, (proj2 (occurs_sideName _)). cbn.
    rewrite occurs_app, (proj2 (occurs_colorName _)). cbn.
    now apply occurs_numberToString.
  - now destruct (fieldId p).
Qed.

Lemma map_plotKey_inj l1 l2 :
  Forall (fun p => delimiterFree (fieldId p)) l1 ->
  Forall (fun p => delimiterFree (fieldId p)) l2 ->
  map plotKey l1 = map plotKey l2 -> l1 = l2.
Proof.
  intros H1. revert l2. induction H1 as [|p l1 Hp _ IH]; intros l2 H2 E.
  - now destruct l2.
  - destruct H2 as [|q l2 Hq H2]; [discriminate|]. cbn in E.
    injection E as E E'. f_equal; [now apply plotKey_inj|now apply IH].
Qed.

Lemma generateKey_inj plots1 plots2 :
  Forall (fun p => delimiterFree (fieldId p)) plots1 ->
  Forall (fun p => delimiterFree (fieldId p)) plots2 ->
  generateKey plots1 = generateKey plots2 -> plots1 ≡ₚ plots2.
Proof.
  intros H1 H2 E.
  rewrite <- (sortBy_Permutation comparePlots plots1) in H1 |- *.
  rewrite <- (sortBy_Permutation comparePlots plots2) in H2 |- *.
  unfold generateKey in E.
  apply concat_delimiter_inj in E.
  - now rewrite (map_plotKey_inj _ _ H1 H2 E).
  - apply Forall_map. eapply Forall_impl; [exact H1|]. intros p. apply plotKey_no_bar.
  - apply Forall_map. eapply Forall_impl; [exact H2|]. intros p. apply plotKey_no_bar.
Qed.

(** C3, as amended: two plot lists whose field identifiers hold neither
    [:] nor [|], and that differ as multisets of (fieldId, side, color, k),
    have different keys. *)
Theorem generateKey_distinguishes (plots1 plots2 : list LogicPlot) :
  Forall (fun p => delimiterFree (fieldId p)) plots1 ->
  Forall (fun p => delimiterFree (fieldId p)) plots2 ->
  ~ plots1 ≡ₚ plots2 ->
  generateKey plots1 <> generateKey plots2.
Proof.
  intros H1 H2 Hne E. apply Hne. now apply generateKey_inj.
Qed.

(** ** The order of the sort *)

Lemma insertSorted_StronglySorted_on {A} (cmp : A -> A -> Z) (P : A -> Prop) x l :
  (forall a b, P a -> P b -> (0 < cmp a b)%Z -> (cmp b a <= 0)%Z) ->
  (forall a b c, P a -> P b -> P c ->
                 (cmp a b <= 0)%Z -> (cmp b c <= 0)%Z -> (cmp a c <= 0)%Z) ->
  P x -> Forall P l ->
  StronglySorted (fun a b => (cmp a b <= 0)%Z) l ->
  StronglySorted (fun a b => (cmp a b <= 0)%Z) (insertSorted cmp x l).
Proof.
  intros Htotal Htrans Hx Hl. induction 1 as [|y l Hs IH Hy]; cbn.
  - repeat constructor.
  - apply Forall_cons in Hl as [Py Hl].
    destruct (Z.leb_spec (cmp x y) 0) as [Hxy|Hxy].
    + constructor; [now constructor|].
      constructor; [assumption|].
      apply Forall_forall. intros z Hz.
      apply (Htrans x y z); [assumption..| |assumption|].
      * exact (proj1 (Forall_forall _ _) Hl z Hz).
      * exact (proj1 (Forall_forall _ _) Hy z Hz).
    + constructor; [now apply IH|].
      rewrite (insertSorted_Permutation cmp x l). constructor; [|assumption].
      now apply Htotal.
Qed.

Lemma sortBy_StronglySorted_on {A} (cmp : A -> A -> Z) (P : A -> Prop) l :
  (forall a b, P a -> P b -> (0 < cmp a b)%Z -> (cmp b a <= 0)%Z) ->
  (forall a b c, P a -> P b -> P c ->
                 (cmp a b <= 0)%Z -> (cmp b c <= 0)%Z -> (cmp a c <= 0)%Z) ->
  Forall P l ->
  StronglySorted (fun a b => (cmp a b <= 0)%Z) (sortBy cmp l).
Proof.
  intros Htotal Htrans. induction 1 as [|x l Hx Hl IH]; [constructor|].
  change (sortBy cmp (x :: l)) with (insertSorted cmp x (sortBy cmp l)).
  apply (insertSorted_StronglySorted_on cmp P); try assumption.
  now rewrite sortBy_Permutation.
Qed.

(** When only equal strings compare as equal, lists without two plots on
    one field and side have no tie. *)
Lemma tieFree_NoDup plots :
  (forall a b, localeCompare a b = 0%Z -> a = b) ->
  NoDup (map identity plots) -> tieFree plots.
Proof.
  intros Heq Hnd p q Hp Hq E.
  assert (Hid : identity p = identity q).
  { unfold comparePlots in E. unfold identity. case_bool_decide as Hf.
    - exfalso. apply Hf. now apply Heq.
    - f_equal; [assumption|].
      apply sideName_inj. now apply Heq. }
  apply list_elem_of_lookup in Hp as [i Hi], Hq as [j Hj].
  assert (i = j) as ->; [|congruence].
  eapply NoDup_lookup; [exact Hnd|..]; rewrite list_lookup_fmap.
  - rewrite Hi. reflexivity.
  - rewrite Hj, Hid. reflexivity.
Qed.

Section Collation.

Hypothesis collation : ConsistentComparison localeCompare.

Lemma localeCompare_total a b :
  (0 < localeCompare a b)%Z -> (localeCompare b a <= 0)%Z.
Proof.
  intros H. pose proof (comparison_antisym _ collation a b) as Hs.
  destruct (localeCompare a b), (localeCompare b a); cbn in Hs; lia || discriminate.
Qed.

Lemma localeCompare_le_le a b :
  (localeCompare a b <= 0)%Z -> (localeCompare b a <= 0)%Z -> localeCompare a b = 0%Z.
Proof.
  intros H1 H2. pose proof (comparison_antisym _ collation a b) as Hs.
  destruct (localeCompare a b), (localeCompare b a); cbn in Hs; lia || discriminate.
Qed.

Lemma comparePlots_total a b :
  (0 < comparePlots a b)%Z -> (comparePlots b a <= 0)%Z.
Proof.
  unfold comparePlots. repeat case_bool_decide; try congruence;
    apply localeCompare_total.
Qed.

Lemma comparePlots_le_le a b :
  (comparePlots a b <= 0)%Z -> (comparePlots b a <= 0)%Z -> comparePlots a b = 0%Z.
Proof.
  unfold comparePlots. repeat case_bool_decide; try congruence;
    apply localeCompare_le_le.
Qed.

(** Among the plots of a list without ties the comparison of the sort is
    transitive. *)
Lemma comparePlots_trans_on plots a b c :
  tieFree plots -> a ∈ plots -> b ∈ plots -> c ∈ plots ->
  (comparePlots a b <= 0)%Z -> (comparePlots b c <= 0)%Z -> (comparePlots a c <= 0)%Z.
Proof.
  intros Htie Ha Hb Hc Hab Hbc.
  destruct (decide (fieldId a = fieldId c)) as [Eac|Nac].
  - destruct (decide (fieldId a = fieldId b)) as [Eab|Nab].
    + unfold comparePlots in *.
      rewrite !bool_decide_eq_false_2 in * by (intros H; apply H; congruence).
      eapply (comparison_trans _ collation); eassumption.
    + exfalso. apply Nab.
      assert (E : comparePlots a b = 0%Z).
      { apply comparePlots_le_le; [assumption|].
        unfold comparePlots in Hbc |- *.
        rewrite bool_decide_eq_true_2 in Hbc |- * by congruence.
        now rewrite Eac. }
      now rewrite (Htie a b Ha Hb E).
  - unfold comparePlots in *.
    rewrite (bool_decide_eq_true_2 (fieldId a <> fieldId c)) by assumption.
    destruct (decide (fieldId a = fieldId b)) as [Eab|Nab];
      destruct (decide (fieldId b = fieldId c)) as [Ebc|Nbc]; try congruence.
    + rewrite (bool_decide_eq_true_2 (fieldId b <> fieldId c)) in Hbc by assumption.
      now rewrite Eab.
    + rewrite (bool_decide_eq_true_2 (fieldId a <> fieldId b)) in Hab by assumption.
      now rewrite <- Ebc.
    + rewrite (bool_decide_eq_true_2 (fieldId a <> fieldId b)) in Hab by assumption.
      rewrite (bool_decide_eq_true_2 (fieldId b <> fieldId c)) in Hbc by assumption.
      eapply (comparison_trans _ collation); eassumption.
Qed.

Lemma sortBy_comparePlots_Permutation plots plots' :
  tieFree plots ->
  plots ≡ₚ plots' ->
  sortBy comparePlots plots = sortBy comparePlots plots'.
Proof.
  intros Htie Hp.
  assert (Hsorted : forall l, l ≡ₚ plots ->
            StronglySorted (fun a b => (comparePlots a b <= 0)%Z) (sortBy comparePlots l)).
  { intros l Hl. apply (sortBy_StronglySorted_on comparePlots (fun p => p ∈ plots)).
    - intros a b _ _. apply comparePlots_total.
    - intros a b c. now apply comparePlots_trans_on.
    - apply Forall_forall. intros x Hx. now rewrite <- Hl. }
  apply (StronglySorted_unique_strong (fun a b => (comparePlots a b <= 0)%Z)).
  - intros x1 x2 Hx1 Hx2 H12 H21.
    rewrite sortBy_Permutation in Hx1. rewrite sortBy_Permutation, <- Hp in Hx2.
    apply (Htie x1 x2 Hx1 Hx2). now apply comparePlots_le_le.
  - now apply Hsorted.
  - apply Hsorted. now symmetry.
  - now rewrite !sortBy_Permutation.
Qed.

(** C5, as amended: when no two different plots of the list compare as
    equal in the sort (the comparison looks at the field and then at the
    side, through [localeCompare]), every permutation of the list has the
    same key.  Of [localeCompare] this asks what ECMAScript requires, a
    consistent comparison; where only equal strings compare as equal the
    condition on the list says that no two plots share both field and side
    ([tieFree_NoDup]). *)
Theorem generateKey_permutation_invariant (plots plots' : list LogicPlot) :
  tieFree plots ->
  plots ≡ₚ plots' ->
  generateKey plots = generateKey plots'.
Proof.
  intros Htie Hp. unfold generateKey.
  now rewrite (sortBy_comparePlots_Permutation plots plots' Htie Hp).
Qed.

End Collation.

(** * The recursion of the solver *)

Local Close Scope Qc_scope.

Lemma length_filter_le {A} (f : A -> bool) l : length (List.filter f l) <= length l.
Proof. induction l as [|x l IH]; cbn; [lia|]. destruct (f x); cbn; lia. Qed.

Lemma length_filter_lt {A} (f : A -> bool) l x :
  In x l -> f x = false -> length (List.filter f l) < length l.
Proof.
  induction l as [|y l IH]; cbn; [tauto|].
  intros [->|Hin] Hx.
  - rewrite Hx. pose proof (length_filter_le f l). lia.
  - specialize (IH Hin Hx). destruct (f y); cbn; lia.
Qed.

Lemma length_otherPlots plots i currentPlot :
  plots !! i = Some currentPlot -> S (length (otherPlots plots i)) = length plots.
Proof.
  intros Hi. unfold otherPlots. rewrite length_delete by eauto.
  apply lookup_lt_Some in Hi. lia.
Qed.

(** Branch A is a strictly shorter list. *)
Lemma length_nextPlotsA plots i currentPlot :
  plots !! i = Some currentPlot ->
  length (nextPlotsA plots i currentPlot) < length plots.
Proof.
  intros Hi. unfold nextPlotsA, nonNeighbors. rewrite length_map.
  pose proof (length_filter_le
    (fun p => negb (bool_decide (fieldId p = fieldId currentPlot))) (otherPlots plots i)).
  pose proof (length_otherPlots _ _ _ Hi). lia.
Qed.

(** Branch B is a strictly shorter list: the neighbor takes the place of
    the harvested plot, and is not among the plots of the other fields. *)
Lemma length_nextPlotsB plots i currentPlot nb :
  plots !! i = Some currentPlot ->
  neighbor plots i currentPlot = Some nb ->
  length (nextPlotsB plots i currentPlot nb) < length plots.
Proof.
  intros Hi Hnb. unfold nextPlotsB, nonNeighbors. cbn. rewrite length_map.
  apply find_some in Hnb as [Hin Hf].
  pose proof (length_filter_lt
    (fun p => negb (bool_decide (fieldId p = fieldId currentPlot)))
    (otherPlots plots i) nb Hin) as Hlt.
  cbn in Hlt. rewrite Hf in Hlt. specialize (Hlt eq_refl).
  pose proof (length_otherPlots _ _ _ Hi). lia.
Qed.

(** Two solvers that agree on the lists shorter than [plots] give the same
    value to every move of [plots]. *)
Lemma moveValue_ext rec1 rec2 plots params i currentPlot memo :
  (forall l m, length l < length plots -> rec1 l params m = rec2 l params m) ->
  plots !! i = Some currentPlot ->
  moveValue rec1 plots params i currentPlot memo
  = moveValue rec2 plots params i currentPlot memo.
Proof.
  intros Hrec Hi. unfold moveValue.
  rewrite Hrec by now apply length_nextPlotsA.
  destruct (rec2 (nextPlotsA plots i currentPlot) params memo) as [[resA memoA]|];
    [|reflexivity].
  destruct (neighbor plots i currentPlot) as [nb|] eqn:Hnb; [|reflexivity].
  now rewrite Hrec by now apply length_nextPlotsB.
Qed.

Lemma drop_cons_lookup {A} (l : list A) i x rest :
  drop i l = x :: rest -> l !! i = Some x /\ drop (S i) l = rest.
Proof.
  intros E. split.
  - rewrite <- (Nat.add_0_r i), <- lookup_drop, E. reflexivity.
  - rewrite <- (Nat.add_1_l i), Nat.add_comm, <- drop_drop, E. reflexivity.
Qed.

Lemma solveLoop_ext rec1 rec2 plots params :
  (forall l m, length l < length plots -> rec1 l params m = rec2 l params m) ->
  forall rest i bestResult memo,
    drop i plots = rest ->
    solveLoop rec1 plots params i rest bestResult memo
    = solveLoop rec2 plots params i rest bestResult memo.
Proof.
  intros Hrec. induction rest as [|currentPlot rest IH]; intros i best memo Hd;
    [reflexivity|].
  apply drop_cons_lookup in Hd as [Hi Hd]. cbn.
  rewrite (moveValue_ext rec1 rec2) by assumption.
  destruct (moveValue rec2 plots params i currentPlot memo) as [[[total resA] memo']|];
    [|reflexivity].
  now apply IH.
Qed.

Lemma solveBody_ext rec1 rec2 plots params memo :
  (forall l m, length l < length plots -> rec1 l params m = rec2 l params m) ->
  solveBody rec1 plots params memo = solveBody rec2 plots params memo.
Proof.
  intros Hrec. unfold solveBody. destruct plots as [|p plots]; [reflexivity|].
  destruct (memo !! _); [reflexivity|].
  now rewrite (solveLoop_ext rec1 rec2 _ _ Hrec).
Qed.

(** A solver that answers on the lists shorter than [plots] gives a value
    to every move of [plots]. *)
Lemma moveValue_total (rec : Solver) plots params i currentPlot memo :
  (forall l m, length l < length plots -> is_Some (rec l params m)) ->
  plots !! i = Some currentPlot ->
  is_Some (moveValue rec plots params i currentPlot memo).
Proof.
  intros Hrec Hi. unfold moveValue.
  destruct (Hrec (nextPlotsA plots i currentPlot) memo) as [[resA memoA] ->];
    [now apply length_nextPlotsA|].
  destruct (neighbor plots i currentPlot) as [nb|] eqn:Hnb; [|eauto].
  destruct (Hrec (nextPlotsB plots i currentPlot nb) memoA) as [[resB memoB] ->];
    [now apply length_nextPlotsB|eauto].
Qed.

Lemma solveLoop_total (rec : Solver) plots params :
  (forall l m, length l < length plots -> is_Some (rec l params m)) ->
  forall rest i bestResult memo,
    drop i plots = rest ->
    is_Some (solveLoop rec plots params i rest bestResult memo).
Proof.
  intros Hrec. induction rest as [|currentPlot rest IH]; intros i best memo Hd;
    [cbn; eauto|].
  apply drop_cons_lookup in Hd as [Hi Hd]. cbn.
  destruct (moveValue_total rec plots params i currentPlot memo Hrec Hi)
    as [[[total resA] memo'] ->].
  now apply IH.
Qed.

(** With more fuel than plots the solver answers. *)
Lemma solve_fuel_total fuel plots params memo :
  length plots < fuel -> is_Some (solve_fuel fuel plots params memo).
Proof.
  revert plots memo. induction fuel as [|fuel IH]; intros plots memo Hlen; [lia|].
  cbn. unfold solveBody. destruct plots as [|p plots]; [eauto|].
  destruct (memo !! _); [eauto|].
  destruct (solveLoop_total (solve_fuel fuel) (p :: plots) params) with
    (rest := p :: plots) (i := 0) (bestResult := initialBest) (memo := memo)
    as [[best memo'] ->]; [|reflexivity|eauto].
  intros l m Hl. apply IH. cbn [length] in Hlen, Hl. lia.
Qed.

(** The answer does not depend on the fuel, once there is more fuel than
    plots. *)
Lemma solve_fuel_irrelevant fuel1 fuel2 plots params memo :
  length plots < fuel1 -> length plots < fuel2 ->
  solve_fuel fuel1 plots params memo = solve_fuel fuel2 plots params memo.
Proof.
  revert fuel2 plots memo.
  induction fuel1 as [|fuel1 IH]; intros [|fuel2] plots memo H1 H2; try lia.
  cbn. apply solveBody_ext. intros l m Hl. apply IH; lia.
Qed.

Lemma solve_fuel_solve fuel plots params memo :
  length plots < fuel -> solve_fuel fuel plots params memo = solve plots params memo.
Proof. intros H. unfold solve. apply solve_fuel_irrelevant; lia. Qed.

(** The equation of [solve]: its body, with [solve] itself for the
    recursive calls. *)
Lemma solve_unfold plots params memo :
  solve plots params memo = solveBody solve plots params memo.
Proof.
  unfold solve at 1. cbn [solve_fuel]. apply solveBody_ext.
  intros l m Hl. now apply solve_fuel_solve.
Qed.

Lemma solve_is_Some plots params memo : is_Some (solve plots params memo).
Proof. apply solve_fuel_total. lia. Qed.

(** * The loop of the solver *)

Lemma MovesEvaluated_length rec plots params i rest memo moves memo' :
  MovesEvaluated rec plots params i rest memo moves memo' ->
  length moves = length rest.
Proof. induction 1; cbn; congruence. Qed.

(** The relation describes the loop: what the loop returns is the best of
    the moves it evaluated. *)
Lemma solveLoop_moves rec plots params rest :
  forall i bestResult memo r memo',
    solveLoop rec plots params i rest bestResult memo = Some (r, memo') ->
    exists moves,
      MovesEvaluated rec plots params i rest memo moves memo' /\
      r = bestOf rest moves bestResult.
Proof.
  induction rest as [|currentPlot rest IH]; intros i best memo r memo' E; cbn in E.
  - injection E as <- <-. exists []. split; [constructor|reflexivity].
  - unfold moveValue in E.
    destruct (rec (nextPlotsA plots i currentPlot) params memo)
      as [[resA memoA]|] eqn:EA; [|discriminate].
    destruct (neighbor plots i currentPlot) as [nb|] eqn:Hnb.
    + destruct (rec (nextPlotsB plots i currentPlot nb) params memoA)
        as [[resB memoB]|] eqn:EB; [|discriminate].
      apply IH in E as (moves & Hm & ->).
      eexists. split; [eapply Moves_neighbor; eassumption|reflexivity].
    + apply IH in E as (moves & Hm & ->).
      eexists. split; [eapply Moves_alone; eassumption|reflexivity].
Qed.

Lemma moves_solveLoop rec plots params i rest memo moves memo' :
  MovesEvaluated rec plots params i rest memo moves memo' ->
  forall bestResult,
    solveLoop rec plots params i rest bestResult memo
    = Some (bestOf rest moves bestResult, memo').
Proof.
  induction 1 as [|i cur rest memo nb resA memoA resB memoB moves memo' Hnb EA EB _ IH
                  |i cur rest memo resA memoA moves memo' Hnb EA _ IH];
    intros best; cbn; [reflexivity|..]; unfold moveValue; rewrite EA, Hnb.
  - rewrite EB. apply IH.
  - apply IH.
Qed.

(** The moves of a list are determined by the cache the loop starts
    from. *)
Lemma MovesEvaluated_unique rec plots params i rest memo moves1 memo1 moves2 memo2 :
  MovesEvaluated rec plots params i rest memo moves1 memo1 ->
  MovesEvaluated rec plots params i rest memo moves2 memo2 ->
  moves1 = moves2 /\ memo1 = memo2.
Proof.
  intros Hm1 Hm2.
  pose proof (moves_solveLoop _ _ _ _ _ _ _ _ Hm1 initialBest) as E1.
  pose proof (moves_solveLoop _ _ _ _ _ _ _ _ Hm2 initialBest) as E2.
  assert (memo1 = memo2) as <- by congruence. split; [|reflexivity].
  clear E1 E2. revert moves2 Hm2.
  induction Hm1; intros moves2 Hm2; inversion Hm2; subst; try congruence.
  - simplify_eq. f_equal. eapply IHHm1. eassumption.
  - simplify_eq. f_equal. eapply IHHm1. eassumption.
Qed.

(** ** The running maximum *)

Lemma runningMax_cons start v values :
  runningMax start (v :: values)
  = runningMax (if Qc_gtb v start then v else start) values.
Proof. reflexivity. Qed.

Lemma runningMax_ge_start start values : (start <= runningMax start values)%Qc.
Proof.
  revert start. induction values as [|v values IH]; intros start.
  - apply Qcle_refl.
  - rewrite runningMax_cons. destruct (Qc_gtb v start) eqn:E; [|apply IH].
    apply Qc_gtb_lt in E. eapply Qcle_trans; [apply Qclt_le_weak, E|apply IH].
Qed.

Lemma runningMax_ge start values v :
  v ∈ values -> (v <= runningMax start values)%Qc.
Proof.
  revert start. induction values as [|w values IH]; intros start Hv.
  - now apply elem_of_nil in Hv.
  - rewrite runningMax_cons. apply elem_of_cons in Hv as [->|Hv]; [|now apply IH].
    destruct (Qc_gtb w start) eqn:E.
    + apply runningMax_ge_start.
    + apply Qc_gtb_le in E. eapply Qcle_trans; [exact E|apply runningMax_ge_start].
Qed.

Lemma runningMax_attained start values :
  runningMax start values = start \/ runningMax start values ∈ values.
Proof.
  revert start. induction values as [|w values IH]; intros start.
  - now left.
  - rewrite runningMax_cons. destruct (Qc_gtb w start) eqn:E.
    + destruct (IH w) as [->|H]; right; [apply list_elem_of_here|now apply list_elem_of_further].
    + destruct (IH start) as [->|H]; [now left|right; now apply list_elem_of_further].
Qed.

Lemma maxEV_compareWithMax currentPlot total resA bestResult :
  maxEV (compareWithMax currentPlot total resA bestResult)
  = if Qc_gtb total (maxEV bestResult) then total else maxEV bestResult.
Proof. unfold compareWithMax. now destruct (Qc_gtb total (maxEV bestResult)). Qed.

Lemma maxEV_bestOf rest moves bestResult :
  length moves = length rest ->
  maxEV (bestOf rest moves bestResult) = runningMax (maxEV bestResult) (moves.*1).
Proof.
  revert moves bestResult.
  induction rest as [|cur rest IH]; intros [|[total resA] moves] best Hlen;
    try discriminate; [reflexivity|].
  cbn [bestOf fmap list_fmap fst]. rewrite runningMax_cons, IH by (cbn in Hlen; lia).
  now rewrite maxEV_compareWithMax.
Qed.

(** Moves that do not exceed the maximum found so far leave [bestResult]
    as it is. *)
Lemma bestOf_no_improvement rest moves bestResult :
  Forall (fun mv => (mv.1 <= maxEV bestResult)%Qc) moves ->
  bestOf rest moves bestResult = bestResult.
Proof.
  revert moves. induction rest as [|cur rest IH]; intros [|[total resA] moves] Hall;
    try reflexivity.
  apply Forall_cons in Hall as [Hle Hall]. cbn in Hle. cbn [bestOf].
  unfold compareWithMax. apply Qc_gtb_le in Hle. rewrite Hle. now apply IH.
Qed.

(** The first move that reaches the greatest value and exceeds the initial
    maximum is the one recorded. *)
Lemma bestOf_first_maximum rest moves bestResult i currentPlot total resA :
  rest !! i = Some currentPlot ->
  moves !! i = Some (total, resA) ->
  (maxEV bestResult < total)%Qc ->
  (forall j mv, j < i -> moves !! j = Some mv -> (mv.1 < total)%Qc) ->
  (forall j mv, moves !! j = Some mv -> (mv.1 <= total)%Qc) ->
  bestOf rest moves bestResult
  = {| maxEV := total; path := stepDesc currentPlot :: path resA;
       bestMoveId := Some (plotId currentPlot) |}.
Proof.
  revert moves bestResult i.
  induction rest as [|cur rest IH]; intros [|[v r] moves] best i Hr Hm Hbest Hlt Hle;
    try (now destruct i).
  destruct i as [|i]; cbn in Hr, Hm.
  - injection Hr as ->. injection Hm as -> ->. cbn [bestOf].
    unfold compareWithMax. apply Qc_gtb_lt in Hbest. rewrite Hbest.
    apply bestOf_no_improvement. cbn.
    apply Forall_lookup. intros j mv Hj. apply (Hle (S j)). exact Hj.
  - cbn [bestOf]. apply (IH _ _ i); try assumption.
    + rewrite maxEV_compareWithMax.
      destruct (Qc_gtb v (maxEV best)); [|assumption].
      apply (Hlt 0 (v, r)); [lia|reflexivity].
    + intros j mv Hj. apply (Hlt (S j)). lia.
    + intros j mv. apply (Hle (S j)).
Qed.

(** * The results of the solver *)

Lemma solve_nil params memo : solve [] params memo = Some (emptyResult, memo).
Proof. reflexivity. Qed.

Lemma solve_hit plots params memo cached :
  plots <> [] -> memo !! generateKey plots = Some cached ->
  solve plots params memo = Some (cached, memo).
Proof.
  intros Hne Hhit. rewrite solve_unfold. unfold solveBody.
  destruct plots; [congruence|]. now rewrite Hhit.
Qed.

(** On a miss, [solve] evaluates the moves of all plots in order, returns
    the best of them and stores it under the key of the list. *)
Lemma solve_miss plots params memo :
  plots <> [] -> memo !! generateKey plots = None ->
  exists moves memo',
    MovesEvaluated solve plots params 0 plots memo moves memo' /\
    solve plots params memo
    = Some (bestOf plots moves initialBest,
            <[generateKey plots := bestOf plots moves initialBest]> memo').
Proof.
  intros Hne Hmiss. rewrite solve_unfold. unfold solveBody.
  destruct plots as [|p plots]; [congruence|]. rewrite Hmiss.
  destruct (solveLoop_total solve (p :: plots) params) with
    (rest := p :: plots) (i := 0) (bestResult := initialBest) (memo := memo)
    as [[best memo'] E]; [intros; apply solve_is_Some|reflexivity|].
  rewrite E. apply solveLoop_moves in E as (moves & Hm & ->). eauto.
Qed.

(** C4: on a list that is not empty and whose key is not in the cache, when
    the value computed for every move is at most -1, [solve] returns the
    initial [bestResult]: [maxEV] -1, an empty path and no [bestMoveId]. *)
Theorem solve_no_move_above_initial (plots : list LogicPlot) (params : GameParams)
    (memo : gmap string SolveResult) (moves : list (Qc * SolveResult))
    (memo' : gmap string SolveResult) :
  plots <> [] ->
  memo !! generateKey plots = None ->
  MovesEvaluated solve plots params 0 plots memo moves memo' ->
  Forall (fun mv => (mv.1 <= - 1)%Qc) moves ->
  exists r memo'',
    solve plots params memo = Some (r, memo'') /\
    maxEV r = (- 1)%Qc /\ path r = [] /\ bestMoveId r = None.
Proof.
  intros Hne Hmiss Hm Hall.
  destruct (solve_miss plots params memo Hne Hmiss) as (moves2 & memo2 & Hm2 & E).
  destruct (MovesEvaluated_unique _ _ _ _ _ _ _ _ _ _ Hm Hm2) as [<- <-].
  rewrite bestOf_no_improvement in E by exact Hall.
  eexists _, _. split; [exact E|]. now cbn.
Qed.

(** C9: two calls of [solve] in a row on the same list and parameters,
    from any cache and without clearing it in between, return the same
    result; the second call leaves the cache as the first left it, and,
    for a list that is not empty, its result is the one stored under the
    key of the list. *)
Theorem solve_twice_same_result (plots : list LogicPlot) (params : GameParams)
    (memo : gmap string SolveResult) :
  exists r memo1,
    solve plots params memo = Some (r, memo1) /\
    solve plots params memo1 = Some (r, memo1) /\
    (plots <> [] -> memo1 !! generateKey plots = Some r).
Proof.
  destruct plots as [|p plots].
  - exists emptyResult, memo. now rewrite !solve_nil.
  - destruct (memo !! generateKey (p :: plots)) as [cached|] eqn:Hk.
    + exists cached, memo. now rewrite !(solve_hit _ _ _ cached).
    + destruct (solve_miss (p :: plots) params memo) as (moves & memo' & _ & E);
        [discriminate|assumption|].
      eexists _, _. split; [exact E|].
      split; [|intros _; apply lookup_insert_eq].
      apply solve_hit; [discriminate|apply lookup_insert_eq].
Qed.

(** C10: [solve] returns a result and a cache for every list, parameters
    and cache; any bound on the nesting of calls above the number of plots
    gives that same answer; and each recursive call, for branch A and for
    branch B, is on a list strictly shorter than [plots]. *)
Theorem solve_total (plots : list LogicPlot) (params : GameParams)
    (memo : gmap string SolveResult) :
  (exists r memo', solve plots params memo = Some (r, memo')) /\
  (forall n, solve_fuel (S (length plots) + n) plots params memo
             = solve plots params memo) /\
  (forall i currentPlot,
      plots !! i = Some currentPlot ->
      length (nextPlotsA plots i currentPlot) < length plots /\
      forall nb, neighbor plots i currentPlot = Some nb ->
                 length (nextPlotsB plots i currentPlot nb) < length plots).
Proof.
  split; [|split].
  - destruct (solve_is_Some plots params memo) as [[r memo'] E]. eauto.
  - intros n. apply solve_fuel_solve. lia.
  - intros i currentPlot Hi. split; [now apply length_nextPlotsA|].
    intros nb Hnb. now apply length_nextPlotsB.
Qed.

(** ** One plot, two plots *)

Lemma grow_same_color currentPlot n p :
  color p = color currentPlot -> grow currentPlot n p = p.
Proof.
  intros E. destruct p as [f s c kp]. unfold grow. cbn in *.
  now rewrite bool_decide_eq_false_2 by (intros H; now apply H).
Qed.

Lemma immediateGain_eq p q params :
  color p = color q -> k p = k q -> immediateGain p params = immediateGain q params.
Proof. unfold immediateGain. now intros -> ->. Qed.

Lemma solve_single p params memo :
  memo !! generateKey [p] = None ->
  solve [p] params memo
  = Some (singleResult p params, <[generateKey [p] := singleResult p params]> memo).
Proof.
  intros Hmiss. rewrite solve_unfold. unfold solveBody. rewrite Hmiss.
  cbn [solveLoop]. unfold moveValue.
  change (nextPlotsA [p] 0 p) with (@nil LogicPlot).
  change (neighbor [p] 0 p) with (@None LogicPlot).
  rewrite solve_nil. reflexivity.
Qed.

Lemma neighbor_two_fields_0 p0 p1 :
  fieldId p0 <> fieldId p1 -> neighbor [p0; p1] 0 p0 = None.
Proof.
  intros Hne. unfold neighbor, otherPlots. cbn.
  now rewrite bool_decide_eq_false_2 by congruence.
Qed.

Lemma neighbor_two_fields_1 p0 p1 :
  fieldId p0 <> fieldId p1 -> neighbor [p0; p1] 1 p1 = None.
Proof.
  intros Hne. unfold neighbor, otherPlots. cbn.
  now rewrite bool_decide_eq_false_2 by congruence.
Qed.

Lemma nextPlotsA_two_fields_0 p0 p1 :
  fieldId p0 <> fieldId p1 -> nextPlotsA [p0; p1] 0 p0 = [grow p0 1 p1].
Proof.
  intros Hne. unfold nextPlotsA, nonNeighbors, otherPlots. cbn.
  now rewrite bool_decide_eq_false_2 by congruence.
Qed.

Lemma nextPlotsA_two_fields_1 p0 p1 :
  fieldId p0 <> fieldId p1 -> nextPlotsA [p0; p1] 1 p1 = [grow p1 1 p0].
Proof.
  intros Hne. unfold nextPlotsA, nonNeighbors, otherPlots. cbn.
  now rewrite bool_decide_eq_false_2 by congruence.
Qed.

Lemma maxEV_singleResult p params :
  (- 1 < immediateGain p params)%Qc ->
  maxEV (singleResult p params) = immediateGain p params.
Proof.
  intros H. unfold singleResult. rewrite maxEV_compareWithMax. cbn [maxEV initialBest].
  rewrite Qcplus_0_r. now rewrite (proj2 (Qc_gtb_lt _ _) H).
Qed.

Lemma Qc_gtb_irrefl x : Qc_gtb x x = false.
Proof. apply Qc_gtb_le, Qcle_refl. Qed.

(** Two plots of one color and one level in two fields, from an empty
    cache: both moves have the same value, and the first is recorded. *)
Lemma solve_two_alike p0 p1 params :
  fieldId p0 <> fieldId p1 -> color p0 = color p1 -> k p0 = k p1 ->
  (- 1 < immediateGain p0 params + immediateGain p0 params)%Qc ->
  exists r memo',
    solve [p0; p1] params ∅ = Some (r, memo') /\
    maxEV r = (immediateGain p0 params + immediateGain p0 params)%Qc /\
    bestMoveId r = Some (plotId p0).
Proof.
  intros Hf Hc Hk Hgain.
  assert (Hg : (- 1 < immediateGain p0 params)%Qc) by (Qc_to_Q; lra).
  pose proof (immediateGain_eq p0 p1 params Hc Hk) as Hg01.
  rewrite solve_unfold. unfold solveBody. rewrite lookup_empty.
  cbn [solveLoop]. unfold moveValue.
  rewrite neighbor_two_fields_0, nextPlotsA_two_fields_0 by assumption.
  rewrite grow_same_color by congruence.
  rewrite solve_single by apply lookup_empty.
  rewrite neighbor_two_fields_1, nextPlotsA_two_fields_1 by assumption.
  rewrite grow_same_color by congruence.
  set (memo1 := <[generateKey [p1] := singleResult p1 params]> ∅).
  assert (exists r0 memo2, solve [p0] params memo1 = Some (r0, memo2) /\
                           maxEV r0 = immediateGain p0 params) as (r0 & memo2 & -> & Hr0).
  { destruct (memo1 !! generateKey [p0]) as [cached|] eqn:Hk0.
    - exists cached, memo1. split; [now apply solve_hit|].
      unfold memo1 in Hk0. apply lookup_insert_Some in Hk0 as [[_ <-]|[_ Hk0]].
      + rewrite maxEV_singleResult; congruence.
      + now rewrite lookup_empty in Hk0.
    - eexists _, _. split; [now apply solve_single|]. now apply maxEV_singleResult. }
  eexists _, _. split; [reflexivity|].
  rewrite Hr0, maxEV_singleResult, <- Hg01 by congruence.
  unfold compareWithMax. cbn [maxEV initialBest].
  rewrite (proj2 (Qc_gtb_lt _ _) Hgain). cbn [maxEV].
  rewrite Qc_gtb_irrefl. now cbn.
Qed.

(** C7, as amended.  On a list whose key is not in the cache, the move
    recorded is the first, in the order of the list, among those whose value
    is the greatest, provided that this value exceeds -1: moves of the same
    value that come later do not replace it.  In particular, for two plots of
    one color and one level in two different fields, from an empty cache,
    [bestMoveId] is the identifier of the first, provided that twice their
    immediate gain exceeds -1. *)
Theorem solve_first_maximum_wins (params : GameParams) :
  (forall plots memo moves memo' i currentPlot total resA,
      plots <> [] ->
      memo !! generateKey plots = None ->
      MovesEvaluated solve plots params 0 plots memo moves memo' ->
      plots !! i = Some currentPlot ->
      moves !! i = Some (total, resA) ->
      (- 1 < total)%Qc ->
      (forall j mv, j < i -> moves !! j = Some mv -> (mv.1 < total)%Qc) ->
      (forall j mv, moves !! j = Some mv -> (mv.1 <= total)%Qc) ->
      exists memo'',
        solve plots params memo
        = Some ({| maxEV := total; path := stepDesc currentPlot :: path resA;
                   bestMoveId := Some (plotId currentPlot) |}, memo'')) /\
  (forall p0 p1,
      fieldId p0 <> fieldId p1 -> color p0 = color p1 -> k p0 = k p1 ->
      (- 1 < immediateGain p0 params + immediateGain p0 params)%Qc ->
      exists r memo',
        solve [p0; p1] params ∅ = Some (r, memo') /\
        maxEV r = (immediateGain p0 params + immediateGain p0 params)%Qc /\
        bestMoveId r = Some (plotId p0)).
Proof.
  split.
  - intros plots memo moves memo' i currentPlot total resA
           Hne Hmiss Hm Hi Hmi Hgt Hlt Hle.
    destruct (solve_miss plots params memo Hne Hmiss) as (moves2 & memo2 & Hm2 & E).
    destruct (MovesEvaluated_unique _ _ _ _ _ _ _ _ _ _ Hm Hm2) as [<- <-].
    rewrite (bestOf_first_maximum plots moves initialBest i currentPlot total resA)
      in E by assumption.
    eauto.
  - intros p0 p1. apply solve_two_alike.
Qed.

(** ** Two plots of one field *)

Lemma neighbor_same_field_0 p0 p1 :
  fieldId p0 = fieldId p1 -> neighbor [p0; p1] 0 p0 = Some p1.
Proof.
  intros Hf. unfold neighbor, otherPlots. cbn.
  now rewrite bool_decide_eq_true_2 by congruence.
Qed.

Lemma neighbor_same_field_1 p0 p1 :
  fieldId p0 = fieldId p1 -> neighbor [p0; p1] 1 p1 = Some p0.
Proof.
  intros Hf. unfold neighbor, otherPlots. cbn.
  now rewrite bool_decide_eq_true_2 by congruence.
Qed.

Lemma nextPlotsA_same_field_0 p0 p1 :
  fieldId p0 = fieldId p1 -> nextPlotsA [p0; p1] 0 p0 = [].
Proof.
  intros Hf. unfold nextPlotsA, nonNeighbors, otherPlots. cbn.
  now rewrite bool_decide_eq_true_2 by congruence.
Qed.

Lemma nextPlotsA_same_field_1 p0 p1 :
  fieldId p0 = fieldId p1 -> nextPlotsA [p0; p1] 1 p1 = [].
Proof.
  intros Hf. unfold nextPlotsA, nonNeighbors, otherPlots. cbn.
  now rewrite bool_decide_eq_true_2 by congruence.
Qed.

Lemma nextPlotsB_same_field_0 p0 p1 :
  fieldId p0 = fieldId p1 -> nextPlotsB [p0; p1] 0 p0 p1 = [grow p0 2 p1].
Proof.
  intros Hf. unfold nextPlotsB, nonNeighbors, otherPlots. cbn.
  now rewrite bool_decide_eq_true_2 by congruence.
Qed.

Lemma nextPlotsB_same_field_1 p0 p1 :
  fieldId p0 = fieldId p1 -> nextPlotsB [p0; p1] 1 p1 p0 = [grow p1 2 p0].
Proof.
  intros Hf. unfold nextPlotsB, nonNeighbors, otherPlots. cbn.
  now rewrite bool_decide_eq_true_2 by congruence.
Qed.

Lemma Qc_max_idemp x : Qc_max x x = x.
Proof. unfold Qc_max. now rewrite Qc_gtb_irrefl. Qed.

(** With three equal positive purchase quantities every multiplier is
    one. *)
Lemma getCropMultiplier_equal_counts color params :
  buyCountBlue params = buyCountPurple params ->
  buyCountYellow params = buyCountPurple params ->
  (0 < buyCountPurple params)%Qc ->
  getCropMultiplier color params = 1%Qc.
Proof.
  intros Eb Ey Hpos. unfold getCropMultiplier.
  assert (buyCount color params = buyCountPurple params) as -> by now destruct color.
  rewrite Eb, Ey, !Qc_max_idemp. unfold Qc_leb.
  rewrite (proj2 (Qc_gtb_lt _ _) Hpos). cbn [negb].
  apply Qcmult_inv_r. intros E. rewrite E in Hpos. now apply Qclt_not_eq in Hpos.
Qed.

(** C2, as amended.  Two plots of one field, one purple and one blue, both
    at level 0; survival probability 0; the three transition probabilities
    0; three equal positive purchase quantities; a tier-1 value above -1;
    the key of the list not in the cache (as from an empty cache).  Then
    [solve] returns the tier-1 value, once, as [maxEV], and a path of
    exactly one step, the harvest of the first plot: the neighbor of the
    harvested plot withers and leaves the list. *)
Theorem solve_two_plots_one_field (p0 p1 : LogicPlot) (params : GameParams)
    (memo : gmap string SolveResult) :
  fieldId p0 = fieldId p1 ->
  (color p0 = purple /\ color p1 = blue) \/ (color p0 = blue /\ color p1 = purple) ->
  k p0 = 0 -> k p1 = 0 ->
  probSurvival params = 0%Qc ->
  probL1toL2 params = 0%Qc -> probL2toL3 params = 0%Qc -> probL3toL4 params = 0%Qc ->
  buyCountBlue params = buyCountPurple params ->
  buyCountYellow params = buyCountPurple params ->
  (0 < buyCountPurple params)%Qc ->
  (- 1 < valL1 params)%Qc ->
  memo !! generateKey [p0; p1] = None ->
  exists r memo',
    solve [p0; p1] params memo = Some (r, memo') /\
    maxEV r = valL1 params /\
    path r = [stepDesc p0] /\
    length (path r) = 1 /\
    bestMoveId r = Some (plotId p0).
Proof.
  intros Hf _ Hk0 Hk1 HB _ _ _ Eb Ey Hpos Hv Hmiss.
  assert (Hg : forall p, k p = 0 -> immediateGain p params = valL1 params).
  { intros p Hk. unfold immediateGain.
    rewrite getCropMultiplier_equal_counts, Hk, getSeedEV_0 by assumption. ring. }
  rewrite solve_unfold. unfold solveBody. rewrite Hmiss.
  cbn [solveLoop]. unfold moveValue.
  rewrite nextPlotsA_same_field_0, neighbor_same_field_0, nextPlotsB_same_field_0,
    solve_nil by assumption.
  destruct (solve_is_Some [grow p0 2 p1] params memo) as [[rB memoB] ->].
  rewrite nextPlotsA_same_field_1, neighbor_same_field_1, nextPlotsB_same_field_1,
    solve_nil by assumption.
  destruct (solve_is_Some [grow p1 2 p0] params memoB) as [[rB' memoB'] ->].
  rewrite !Hg, HB by assumption. cbn [maxEV emptyResult].
  assert (E : forall x, (valL1 params + (1 - 0) * 0 + 0 * x)%Qc = valL1 params)
    by (intros x; ring).
  rewrite !E. eexists _, _. split; [reflexivity|].
  unfold compareWithMax. cbn [maxEV initialBest].
  rewrite (proj2 (Qc_gtb_lt _ _) Hv). cbn [maxEV]. rewrite Qc_gtb_irrefl.
  now cbn.
Qed.

(** * The cache does not change the value *)

(** ** The value without the cache *)

Lemma moveTotal_ext v1 v2 plots params i currentPlot :
  (forall l, length l < length plots -> v1 l = v2 l) ->
  plots !! i = Some currentPlot ->
  moveTotal v1 plots params i currentPlot = moveTotal v2 plots params i currentPlot.
Proof.
  intros Hv Hi. unfold moveTotal.
  rewrite (Hv (nextPlotsA plots i currentPlot)) by now apply length_nextPlotsA.
  destruct (neighbor plots i currentPlot) as [nb|] eqn:Hnb; [|reflexivity].
  now rewrite (Hv (nextPlotsB plots i currentPlot nb)) by now apply length_nextPlotsB.
Qed.

Lemma moveTotals_ext v1 v2 plots params :
  (forall l, length l < length plots -> v1 l = v2 l) ->
  forall rest i, drop i plots = rest ->
    moveTotals v1 plots params i rest = moveTotals v2 plots params i rest.
Proof.
  intros Hv. induction rest as [|currentPlot rest IH]; intros i Hd; [reflexivity|].
  apply drop_cons_lookup in Hd as [Hi Hd]. cbn.
  rewrite (moveTotal_ext v1 v2) by assumption. f_equal. now apply IH.
Qed.

Lemma stateValue_fuel_irrelevant fuel1 fuel2 params plots :
  length plots < fuel1 -> length plots < fuel2 ->
  stateValue_fuel fuel1 params plots = stateValue_fuel fuel2 params plots.
Proof.
  revert fuel2 plots.
  induction fuel1 as [|fuel1 IH]; intros [|fuel2] plots H1 H2; try lia.
  cbn. destruct plots as [|p plots]; [reflexivity|]. f_equal.
  apply moveTotals_ext; [|reflexivity].
  intros l Hl. cbn [length] in *. apply IH; lia.
Qed.

(** The equation of the value. *)
Lemma stateValue_unfold params plots :
  plots <> [] ->
  stateValue params plots
  = runningMax (- 1)%Qc (moveTotals (stateValue params) plots params 0 plots).
Proof.
  intros Hne. unfold stateValue at 1. cbn [stateValue_fuel].
  destruct plots as [|p plots]; [congruence|]. f_equal.
  apply moveTotals_ext; [|reflexivity].
  intros l Hl. unfold stateValue. apply stateValue_fuel_irrelevant; cbn [length] in *; lia.
Qed.

Lemma stateValue_nil params : stateValue params [] = 0%Qc.
Proof. reflexivity. Qed.

(** ** Permutations *)

Lemma List_filter_Permutation {A} (f : A -> bool) l l' :
  l ≡ₚ l' -> List.filter f l ≡ₚ List.filter f l'.
Proof.
  induction 1 as [|x l l' _ IH|x y l|l l' l'' _ IH1 _ IH2]; cbn.
  - reflexivity.
  - destruct (f x); [now constructor|assumption].
  - destruct (f x), (f y); try reflexivity. apply Permutation_swap.
  - now rewrite IH1.
Qed.

Lemma Qc_max_swap s x y : Qc_max (Qc_max s x) y = Qc_max (Qc_max s y) x.
Proof.
  unfold Qc_max.
  destruct (Qc_gtb x s) eqn:Exs, (Qc_gtb y s) eqn:Eys;
    rewrite ?Exs, ?Eys;
    destruct (Qc_gtb y x) eqn:Eyx, (Qc_gtb x y) eqn:Exy;
    rewrite ?Exs, ?Eys; try reflexivity;
    repeat match goal with
           | H : Qc_gtb _ _ = true |- _ => apply Qc_gtb_lt in H
           | H : Qc_gtb _ _ = false |- _ => apply Qc_gtb_le in H
           end;
    try (exfalso; Qc_to_Q; lra); Qc_to_Q; lra.
Qed.

Lemma runningMax_Permutation start values values' :
  values ≡ₚ values' -> runningMax start values = runningMax start values'.
Proof.
  intros Hp. revert start.
  induction Hp as [|x l l' _ IH|x y l|l l' l'' _ IH1 _ IH2]; intros start.
  - reflexivity.
  - rewrite !runningMax_cons. apply IH.
  - rewrite !runningMax_cons. f_equal. apply (Qc_max_swap start y x).
  - now rewrite IH1.
Qed.

Lemma find_Permutation_unique {A} (f : A -> bool) l l' :
  l ≡ₚ l' ->
  (forall x y, In x l -> In y l -> f x = true -> f y = true -> x = y) ->
  List.find f l = List.find f l'.
Proof.
  intros Hp Huniq.
  destruct (List.find f l') as [x'|] eqn:E'.
  - apply find_some in E' as [Hin' Hf'].
    assert (Hin : In x' l) by (apply list_elem_of_In; rewrite Hp; now apply list_elem_of_In).
    destruct (List.find f l) as [x|] eqn:E.
    + apply find_some in E as [Hinx Hfx]. f_equal. now apply Huniq.
    + now rewrite (find_none _ _ E x' Hin) in Hf'.
  - destruct (List.find f l) as [x|] eqn:E; [|reflexivity].
    apply find_some in E as [Hinx Hfx].
    assert (Hin' : In x l') by (apply list_elem_of_In; rewrite <- Hp; now apply list_elem_of_In).
    now rewrite (find_none _ _ E' x Hin') in Hfx.
Qed.

Lemma NoDup_map_inj_In {A B} (f : A -> B) l x y :
  NoDup (map f l) -> In x l -> In y l -> f x = f y -> x = y.
Proof.
  intros Hnd Hx Hy E.
  apply list_elem_of_In, list_elem_of_lookup in Hx as [i Hi].
  apply list_elem_of_In, list_elem_of_lookup in Hy as [j Hj].
  assert (i = j) as ->; [|congruence].
  eapply NoDup_lookup; [exact Hnd|..]; rewrite list_lookup_fmap.
  - rewrite Hi. reflexivity.
  - rewrite Hj, E. reflexivity.
Qed.

Lemma NoDup_identity_others plots i currentPlot :
  NoDup (map identity plots) -> plots !! i = Some currentPlot ->
  ~ In (identity currentPlot) (map identity (otherPlots plots i)) /\
  NoDup (map identity (otherPlots plots i)).
Proof.
  intros Hnd Hi. unfold otherPlots.
  pose proof (delete_Permutation plots i currentPlot Hi) as Hp.
  apply (Permutation_map identity) in Hp. rewrite Hp in Hnd. cbn in Hnd.
  apply NoDup_cons in Hnd as [Hnotin Hnd]. split; [|assumption].
  intros Hin. apply Hnotin. now apply list_elem_of_In.
Qed.

(** A plot has at most one neighbor in a well-formed list. *)
Lemma neighbor_unique plots i currentPlot x y :
  NoDup (map identity plots) -> plots !! i = Some currentPlot ->
  In x (otherPlots plots i) -> In y (otherPlots plots i) ->
  fieldId x = fieldId currentPlot -> fieldId y = fieldId currentPlot -> x = y.
Proof.
  intros Hnd Hi Hx Hy Ex Ey.
  destruct (NoDup_identity_others plots i currentPlot Hnd Hi) as [Hnotin Hnd'].
  apply (NoDup_map_inj_In identity (otherPlots plots i)); try assumption.
  assert (Hsx : side x <> side currentPlot).
  { intros Es. apply Hnotin. apply in_map_iff. exists x. split; [|assumption].
    unfold identity. congruence. }
  assert (Hsy : side y <> side currentPlot).
  { intros Es. apply Hnotin. apply in_map_iff. exists y. split; [|assumption].
    unfold identity. congruence. }
  unfold identity. f_equal; [congruence|].
  destruct (side x), (side y), (side currentPlot); congruence.
Qed.

Lemma otherPlots_Permutation plots plots' i j currentPlot :
  plots ≡ₚ plots' -> plots !! i = Some currentPlot -> plots' !! j = Some currentPlot ->
  otherPlots plots i ≡ₚ otherPlots plots' j.
Proof.
  intros Hp Hi Hj. unfold otherPlots.
  apply (Permutation_cons_inv (a := currentPlot)).
  now rewrite <- (delete_Permutation plots i), <- (delete_Permutation plots' j).
Qed.

Lemma identity_grow currentPlot n p : identity (grow currentPlot n p) = identity p.
Proof. reflexivity. Qed.

Lemma map_identity_grow currentPlot n l :
  map identity (map (grow currentPlot n) l) = map identity l.
Proof. rewrite map_map. apply map_ext. intros p. apply identity_grow. Qed.

Lemma NoDup_map_filter {A B} (g : A -> B) (f : A -> bool) l :
  NoDup (map g l) -> NoDup (map g (List.filter f l)).
Proof.
  induction l as [|x l IH]; cbn; [auto|].
  intros Hnd. apply NoDup_cons in Hnd as [Hnotin Hnd].
  destruct (f x); cbn; [|auto].
  apply NoDup_cons. split; [|auto].
  intros Hin. apply Hnotin.
  apply list_elem_of_In, in_map_iff in Hin as (y & Ey & Hy).
  apply filter_In in Hy as [Hy _].
  apply list_elem_of_In, in_map_iff. eauto.
Qed.

Lemma NoDup_identity_nextPlotsA plots i currentPlot :
  NoDup (map identity plots) -> plots !! i = Some currentPlot ->
  NoDup (map identity (nextPlotsA plots i currentPlot)).
Proof.
  intros Hnd Hi. unfold nextPlotsA, nonNeighbors. rewrite map_identity_grow.
  apply NoDup_map_filter. now apply (NoDup_identity_others plots i currentPlot).
Qed.

Lemma NoDup_identity_nextPlotsB plots i currentPlot nb :
  NoDup (map identity plots) -> plots !! i = Some currentPlot ->
  neighbor plots i currentPlot = Some nb ->
  NoDup (map identity (nextPlotsB plots i currentPlot nb)).
Proof.
  intros Hnd Hi Hnb. unfold nextPlotsB. cbn [map]. rewrite identity_grow.
  apply NoDup_cons. split; [|now apply NoDup_identity_nextPlotsA].
  apply find_some in Hnb as [_ Hf]. apply bool_decide_eq_true in Hf.
  unfold nonNeighbors. rewrite map_identity_grow.
  intros Hin. apply list_elem_of_In, in_map_iff in Hin as (y & Ey & Hy).
  apply filter_In in Hy as [_ Hy]. apply negb_true_iff, bool_decide_eq_false in Hy.
  apply Hy. unfold identity in Ey. congruence.
Qed.

Lemma Forall_delimiterFree_nextPlotsA plots i currentPlot :
  Forall (fun p => delimiterFree (fieldId p)) plots ->
  Forall (fun p => delimiterFree (fieldId p)) (nextPlotsA plots i currentPlot).
Proof.
  intros Hall. unfold nextPlotsA, nonNeighbors, otherPlots.
  apply List.Forall_forall. intros p Hin.
  apply in_map_iff in Hin as (q & <- & Hq). apply filter_In in Hq as [Hq _].
  cbn [grow fieldId].
  apply (proj1 (List.Forall_forall _ _) Hall).
  apply list_elem_of_In. apply list_elem_of_In in Hq.
  eapply list_elem_of_delete_inv, Hq.
Qed.

Lemma wellFormed_nextPlotsA plots i currentPlot :
  wellFormed plots -> plots !! i = Some currentPlot ->
  wellFormed (nextPlotsA plots i currentPlot).
Proof.
  intros [Hall Hnd] Hi. split.
  - now apply Forall_delimiterFree_nextPlotsA.
  - now apply NoDup_identity_nextPlotsA.
Qed.

Lemma wellFormed_nextPlotsB plots i currentPlot nb :
  wellFormed plots -> plots !! i = Some currentPlot ->
  neighbor plots i currentPlot = Some nb ->
  wellFormed (nextPlotsB plots i currentPlot nb).
Proof.
  intros [Hall Hnd] Hi Hnb. split.
  - unfold nextPlotsB. constructor; [|now apply Forall_delimiterFree_nextPlotsA].
    cbn [grow fieldId]. apply find_some in Hnb as [Hin _].
    apply (proj1 (List.Forall_forall _ _) Hall).
    apply list_elem_of_In. apply list_elem_of_In in Hin.
    eapply list_elem_of_delete_inv, Hin.
  - now apply NoDup_identity_nextPlotsB.
Qed.

Lemma neighbor_Permutation plots plots' i j currentPlot :
  NoDup (map identity plots) ->
  plots ≡ₚ plots' -> plots !! i = Some currentPlot -> plots' !! j = Some currentPlot ->
  neighbor plots i currentPlot = neighbor plots' j currentPlot.
Proof.
  intros Hnd Hp Hi Hj. unfold neighbor.
  apply find_Permutation_unique; [now apply (otherPlots_Permutation _ _ _ _ currentPlot)|].
  intros x y Hx Hy Hfx Hfy. apply bool_decide_eq_true in Hfx, Hfy.
  now apply (neighbor_unique plots i currentPlot).
Qed.

Lemma nextPlotsA_Permutation plots plots' i j currentPlot :
  plots ≡ₚ plots' -> plots !! i = Some currentPlot -> plots' !! j = Some currentPlot ->
  nextPlotsA plots i currentPlot ≡ₚ nextPlotsA plots' j currentPlot.
Proof.
  intros Hp Hi Hj. unfold nextPlotsA, nonNeighbors.
  apply Permutation_map, List_filter_Permutation.
  now apply (otherPlots_Permutation _ _ _ _ currentPlot).
Qed.

Lemma nextPlotsB_Permutation plots plots' i j currentPlot nb :
  plots ≡ₚ plots' -> plots !! i = Some currentPlot -> plots' !! j = Some currentPlot ->
  nextPlotsB plots i currentPlot nb ≡ₚ nextPlotsB plots' j currentPlot nb.
Proof.
  intros Hp Hi Hj. unfold nextPlotsB. constructor.
  now apply nextPlotsA_Permutation.
Qed.

(** The value of a move depends on the list as a multiset only, when the
    value of shorter lists does. *)
Lemma moveTotal_Permutation v plots plots' params i j currentPlot :
  NoDup (map identity plots) ->
  plots ≡ₚ plots' -> plots !! i = Some currentPlot -> plots' !! j = Some currentPlot ->
  (forall l l', length l < length plots -> NoDup (map identity l) -> l ≡ₚ l' ->
                v l = v l') ->
  moveTotal v plots params i currentPlot = moveTotal v plots' params j currentPlot.
Proof.
  intros Hnd Hp Hi Hj Hv. unfold moveTotal.
  rewrite <- (neighbor_Permutation plots plots' i j currentPlot) by assumption.
  rewrite (Hv (nextPlotsA plots i currentPlot) (nextPlotsA plots' j currentPlot));
    [|now apply length_nextPlotsA|now apply NoDup_identity_nextPlotsA
     |now apply nextPlotsA_Permutation].
  destruct (neighbor plots i currentPlot) as [nb|] eqn:Hnb; [|reflexivity].
  rewrite (Hv (nextPlotsB plots i currentPlot nb) (nextPlotsB plots' j currentPlot nb));
    [reflexivity|now apply length_nextPlotsB|now apply NoDup_identity_nextPlotsB
    |now apply nextPlotsB_Permutation].
Qed.

Lemma moveTotals_lookup v plots params rest :
  forall i j,
    moveTotals v plots params i rest !! j
    = moveTotal v plots params (i + j) <$> rest !! j.
Proof.
  induction rest as [|currentPlot rest IH]; intros i j; [reflexivity|].
  destruct j as [|j]; cbn.
  - now rewrite Nat.add_0_r.
  - rewrite IH. now rewrite Nat.add_succ_r.
Qed.

Lemma length_moveTotals v plots params rest i :
  length (moveTotals v plots params i rest) = length rest.
Proof. revert i. induction rest as [|p rest IH]; intros i; cbn; [reflexivity|]. now rewrite IH. Qed.

(** The value of a well-formed list does not depend on the order of its
    plots. *)
Lemma stateValue_Permutation params plots plots' :
  NoDup (map identity plots) -> plots ≡ₚ plots' ->
  stateValue params plots = stateValue params plots'.
Proof.
  remember (length plots) as n eqn:Hn. revert plots plots' Hn.
  induction (lt_wf n) as [n _ IH]. intros plots plots' -> Hnd Hp.
  destruct plots as [|p plots].
  { apply Permutation_nil_l in Hp. now subst. }
  assert (Hne' : plots' <> []).
  { intros ->. apply Permutation_nil_r in Hp. discriminate. }
  rewrite !stateValue_unfold by (assumption || discriminate).
  apply runningMax_Permutation.
  pose proof Hp as Hp'. apply Permutation_inj in Hp' as (Hlen & f & Hinj & Hf).
  apply Permutation_inj. split; [now rewrite !length_moveTotals|].
  exists f. split; [assumption|]. intros i.
  rewrite !moveTotals_lookup. cbn [Nat.add]. rewrite <- Hf.
  destruct ((p :: plots) !! i) as [currentPlot|] eqn:Hi; [|reflexivity].
  cbn [fmap option_fmap option_map]. f_equal.
  apply moveTotal_Permutation; try assumption.
  - now rewrite <- Hf.
  - intros l l' Hl Hndl Hpl. now apply (IH (length l)).
Qed.

(** ** The solver computes the value *)

Lemma validCache_empty params : validCache params ∅.
Proof. intros plots r _ H. now rewrite lookup_empty in H. Qed.

(** Storing the value of a well-formed list under its key keeps the cache
    valid: a well-formed list with the same key is a permutation of it. *)
Lemma validCache_insert params memo plots r :
  wellFormed plots -> validCache params memo ->
  maxEV r = stateValue params plots ->
  validCache params (<[generateKey plots := r]> memo).
Proof.
  intros [Hall Hnd] Hvalid Hr l r' [Hall' Hnd'] Hlook.
  destruct (decide (generateKey plots = generateKey l)) as [E|E].
  - rewrite E, lookup_insert_eq in Hlook. injection Hlook as <-.
    rewrite Hr. apply stateValue_Permutation; [assumption|].
    now apply generateKey_inj.
  - rewrite lookup_insert_ne in Hlook by assumption.
    apply Hvalid; [now split|assumption].
Qed.

(** The loop, when the recursive calls are sound on shorter lists: the
    values of the moves are those of the recurrence, and the cache stays
    valid. *)
Lemma moves_sound params plots :
  (forall l memo,
      length l < length plots -> wellFormed l -> validCache params memo ->
      exists r memo',
        solve l params memo = Some (r, memo') /\
        maxEV r = stateValue params l /\ validCache params memo') ->
  wellFormed plots ->
  forall i rest memo moves memo',
    MovesEvaluated solve plots params i rest memo moves memo' ->
    drop i plots = rest -> validCache params memo ->
    moves.*1 = moveTotals (stateValue params) plots params i rest /\
    validCache params memo'.
Proof.
  intros IH Hwf i rest memo moves memo' Hm.
  induction Hm as [|i cur rest memo nb resA memoA resB memoB moves memo' Hnb EA EB _ IHm
                   |i cur rest memo resA memoA moves memo' Hnb EA _ IHm];
    intros Hd Hvalid.
  - now split.
  - apply drop_cons_lookup in Hd as [Hi Hd].
    destruct (IH (nextPlotsA plots i cur) memo) as (r & m & E & Hr & Hv);
      [now apply length_nextPlotsA|now apply wellFormed_nextPlotsA|assumption|].
    rewrite E in EA. injection EA as -> ->.
    destruct (IH (nextPlotsB plots i cur nb) memoA) as (r' & m' & E' & Hr' & Hv');
      [now apply length_nextPlotsB|now apply wellFormed_nextPlotsB|assumption|].
    rewrite E' in EB. injection EB as -> ->.
    destruct (IHm Hd Hv') as [Emoves Hvalid']. split; [|assumption].
    cbn. unfold moveTotal. rewrite Hnb, <- Emoves, Hr, Hr'. reflexivity.
  - apply drop_cons_lookup in Hd as [Hi Hd].
    destruct (IH (nextPlotsA plots i cur) memo) as (r & m & E & Hr & Hv);
      [now apply length_nextPlotsA|now apply wellFormed_nextPlotsA|assumption|].
    rewrite E in EA. injection EA as -> ->.
    destruct (IHm Hd Hv) as [Emoves Hvalid']. split; [|assumption].
    cbn. unfold moveTotal. rewrite Hnb, <- Emoves, Hr. reflexivity.
Qed.

(** Soundness of the cache.  On a well-formed list and a valid cache,
    [solve] returns the value the recurrence gives without any cache, and
    leaves a valid cache. *)
Theorem solve_sound (params : GameParams) (plots : list LogicPlot)
    (memo : gmap string SolveResult) :
  wellFormed plots -> validCache params memo ->
  exists r memo',
    solve plots params memo = Some (r, memo') /\
    maxEV r = stateValue params plots /\
    validCache params memo'.
Proof.
  remember (length plots) as n eqn:Hn. revert plots memo Hn.
  induction (lt_wf n) as [n _ IH]. intros plots memo -> Hwf Hvalid.
  destruct plots as [|p plots].
  { exists emptyResult, memo. now rewrite solve_nil. }
  destruct (memo !! generateKey (p :: plots)) as [cached|] eqn:Hk.
  - exists cached, memo. split; [now apply solve_hit|]. split; [|assumption].
    now apply Hvalid.
  - destruct (solve_miss (p :: plots) params memo) as (moves & memo' & Hm & E);
      [discriminate|assumption|].
    destruct (moves_sound params (p :: plots)) with
      (i := 0) (rest := p :: plots) (memo := memo) (moves := moves) (memo' := memo')
      as [Emoves Hvalid']; try assumption; try reflexivity.
    { intros l m Hl Hwfl Hvl. now apply (IH (length l)). }
    eexists _, _. split; [exact E|].
    assert (Hr : maxEV (bestOf (p :: plots) moves initialBest)
                 = stateValue params (p :: plots)).
    { rewrite maxEV_bestOf by now apply (MovesEvaluated_length _ _ _ _ _ _ _ _ Hm).
      rewrite Emoves, stateValue_unfold by discriminate. reflexivity. }
    split; [exact Hr|]. now apply validCache_insert.
Qed.

(** From the empty cache, as the interface calls it. *)
Corollary solve_from_empty_cache (params : GameParams) (plots : list LogicPlot) :
  wellFormed plots ->
  exists r memo',
    solve plots params (clearMemo ∅) = Some (r, memo') /\
    maxEV r = stateValue params plots.
Proof.
  intros Hwf.
  destruct (solve_sound params plots ∅ Hwf (validCache_empty params))
    as (r & memo' & E & Hr & _).
  eauto.
Qed.

Lemma solvedValue_stateValue params plots :
  wellFormed plots -> solvedValue params plots = stateValue params plots.
Proof.
  intros Hwf. unfold solvedValue.
  destruct (solve_from_empty_cache params plots Hwf) as (r & memo' & -> & Hr).
  exact Hr.
Qed.

Lemma moveTotals_solvedValue params plots :
  wellFormed plots ->
  forall rest i, drop i plots = rest ->
    moveTotals (solvedValue params) plots params i rest
    = moveTotals (stateValue params) plots params i rest.
Proof.
  intros Hwf. induction rest as [|currentPlot rest IH]; intros i Hd; [reflexivity|].
  apply drop_cons_lookup in Hd as [Hi Hd]. cbn. f_equal; [|now apply IH].
  unfold moveTotal.
  rewrite solvedValue_stateValue by now apply wellFormed_nextPlotsA.
  destruct (neighbor plots i currentPlot) as [nb|] eqn:Hnb; [|reflexivity].
  now rewrite solvedValue_stateValue by now apply wellFormed_nextPlotsB.
Qed.

Lemma perChoiceValue_moveTotal v plots params i p :
  perChoiceValue v plots params i p = moveTotal v plots params i p.
Proof. reflexivity. Qed.

Lemma perChoiceValues_moveTotals v plots params :
  perChoiceValues v plots params = moveTotals v plots params 0 plots.
Proof.
  apply list_eq. intros i. unfold perChoiceValues.
  rewrite list_lookup_imap, moveTotals_lookup.
  destruct (plots !! i); reflexivity.
Qed.

(** The value the loop gives to the move of the plot at index [i + j] is
    the sum of the source, on the results of the two recursive calls. *)
Lemma MovesEvaluated_sum plots params i rest memo moves memo' :
  MovesEvaluated solve plots params i rest memo moves memo' ->
  forall j p total resA,
    rest !! j = Some p -> moves !! j = Some (total, resA) ->
    exists memoI memoA,
      solve (nextPlotsA plots (i + j) p) params memoI = Some (resA, memoA) /\
      match neighbor plots (i + j) p with
      | Some nb =>
          exists resB memoB,
            solve (nextPlotsB plots (i + j) p nb) params memoA = Some (resB, memoB) /\
            total = (getCropMultiplier (color p) params * getSeedEV (k p) params
                     + (1 - probSurvival params) * maxEV resA
                     + probSurvival params * maxEV resB)%Qc
      | None =>
          total = (getCropMultiplier (color p) params * getSeedEV (k p) params
                   + maxEV resA)%Qc
      end.
Proof.
  induction 1 as [|i cur rest memo nb resA memoA resB memoB moves memo' Hnb EA EB _ IH
                  |i cur rest memo resA memoA moves memo' Hnb EA _ IH];
    intros j p total r Hj Hm.
  - discriminate.
  - destruct j as [|j]; cbn in Hj, Hm.
    + injection Hj as <-. injection Hm as <- <-. rewrite Nat.add_0_r, Hnb.
      exists memo, memoA. split; [exact EA|]. exists resB, memoB. now split.
    + replace (i + S j) with (S i + j) by lia. now apply IH.
  - destruct j as [|j]; cbn in Hj, Hm.
    + injection Hj as <-. injection Hm as <- <-. rewrite Nat.add_0_r, Hnb.
      exists memo, memoA. now split.
    + replace (i + S j) with (S i + j) by lia. now apply IH.
Qed.

(** C1, as amended.  The [maxEV] that [solve] returns for a list that is
    not empty is the running maximum of the per-choice values that starts at
    -1 and is replaced on strict improvement: the greater of -1 and the
    greatest per-choice value, and not that greatest value when it is below
    -1.

    First, as the code runs: when the key of the list is not in the cache,
    [solve] evaluates one move per plot, in order ([MovesEvaluated]); the
    value of the move of plot [i] is [multiplier * seedEV + (1 - B) * maxEV
    resA + B * maxEV resB] when the plot has a neighbor and [multiplier *
    seedEV + maxEV resA] when it has none, [resA] and [resB] being what
    [solve] returns on the two reduced lists; [maxEV] is the running
    maximum of these values from -1, bounds each of them, and is -1 or one
    of them.

    Second, as an equation on [solve] itself: for a well-formed list, the
    [maxEV] that [solve] returns from a cleared cache is the running maximum
    from -1 of the per-choice values [perChoiceValue], written with
    [getCropMultiplier] and [getSeedEV] and with the [maxEV] that [solve]
    returns from a cleared cache for the reduced lists; it bounds each of
    them, and it is -1 or one of them. *)
Theorem solve_maxEV_running_maximum (plots : list LogicPlot) (params : GameParams)
    (memo : gmap string SolveResult) :
  plots <> [] ->
  (memo !! generateKey plots = None ->
   exists r moves memo',
     solve plots params memo = Some (r, <[generateKey plots := r]> memo') /\
     MovesEvaluated solve plots params 0 plots memo moves memo' /\
     length moves = length plots /\
     (forall i p total resA,
         plots !! i = Some p -> moves !! i = Some (total, resA) ->
         exists memoI memoA,
           solve (nextPlotsA plots i p) params memoI = Some (resA, memoA) /\
           match neighbor plots i p with
           | Some nb =>
               exists resB memoB,
                 solve (nextPlotsB plots i p nb) params memoA = Some (resB, memoB) /\
                 total = (getCropMultiplier (color p) params * getSeedEV (k p) params
                          + (1 - probSurvival params) * maxEV resA
                          + probSurvival params * maxEV resB)%Qc
           | None =>
               total = (getCropMultiplier (color p) params * getSeedEV (k p) params
                        + maxEV resA)%Qc
           end) /\
     maxEV r = runningMax (- 1)%Qc (moves.*1) /\
     (forall v, v ∈ moves.*1 -> (v <= maxEV r)%Qc) /\
     (maxEV r = (- 1)%Qc \/ maxEV r ∈ moves.*1)) /\
  (wellFormed plots ->
   solvedValue params plots
   = runningMax (- 1)%Qc (perChoiceValues (solvedValue params) plots params) /\
   (- 1 <= solvedValue params plots)%Qc /\
   (forall i p, plots !! i = Some p ->
                (perChoiceValue (solvedValue params) plots params i p
                 <= solvedValue params plots)%Qc) /\
   (solvedValue params plots = (- 1)%Qc \/
    exists i p, plots !! i = Some p /\
                solvedValue params plots
                = perChoiceValue (solvedValue params) plots params i p)).
Proof.
  intros Hne. split.
  - intros Hmiss.
    destruct (solve_miss plots params memo Hne Hmiss) as (moves & memo' & Hm & E).
    pose proof (MovesEvaluated_length _ _ _ _ _ _ _ _ Hm) as Hlen.
    exists (bestOf plots moves initialBest), moves, memo'.
    rewrite maxEV_bestOf by assumption. cbn [maxEV initialBest].
    split; [assumption|]. split; [assumption|]. split; [assumption|].
    split; [|repeat split].
    + intros i p total resA Hi Hmi.
      exact (MovesEvaluated_sum _ _ _ _ _ _ _ Hm i p total resA Hi Hmi).
    + intros v. apply runningMax_ge.
    + apply runningMax_attained.
  - intros Hwf.
    assert (E : solvedValue params plots
                = runningMax (- 1)%Qc (perChoiceValues (solvedValue params) plots params)).
    { rewrite perChoiceValues_moveTotals.
      rewrite solvedValue_stateValue, moveTotals_solvedValue by (assumption || reflexivity).
      now apply stateValue_unfold. }
    split; [exact E|]. split; [rewrite E; apply runningMax_ge_start|]. split.
    + intros i p Hi.
      assert (Hin : perChoiceValue (solvedValue params) plots params i p
                    ∈ perChoiceValues (solvedValue params) plots params).
      { apply list_elem_of_lookup. exists i. unfold perChoiceValues.
        now rewrite list_lookup_imap, Hi. }
      pose proof (runningMax_ge (- 1)%Qc _ _ Hin) as Hle.
      now rewrite <- E in Hle.
    + destruct (runningMax_attained (- 1)%Qc
                  (perChoiceValues (solvedValue params) plots params)) as [H|H].
      * left. congruence.
      * right. rewrite <- E in H.
        apply list_elem_of_lookup in H as [i Hi]. unfold perChoiceValues in Hi.
        rewrite list_lookup_imap in Hi.
        destruct (plots !! i) as [p|] eqn:Hp; [|discriminate].
        exists i, p. split; [exact Hp|]. cbn in Hi. congruence.
Qed.

(** * Further properties of the seed value *)

Lemma seedProbs_succ k params :
  seedProbs (S k) params = nextP params (seedProbs k params).
Proof. reflexivity. Qed.

Ltac ProbVec_eq := cbn; repeat (apply f_equal2); ring.

Lemma seedProbs_frozen k params :
  probL1toL2 params = 0%Qc -> probL2toL3 params = 0%Qc -> probL3toL4 params = 0%Qc ->
  seedProbs k params = (1, 0, 0, 0)%Qc.
Proof.
  intros H1 H2 H3. induction k as [|k IH]; [reflexivity|].
  rewrite seedProbs_succ, IH. unfold nextP. rewrite H1, H2, H3. ProbVec_eq.
Qed.

Lemma seedProbs_certain k params :
  probL1toL2 params = 1%Qc -> probL2toL3 params = 1%Qc -> probL3toL4 params = 1%Qc ->
  seedProbs 1 params = (0, 1, 0, 0)%Qc /\
  seedProbs 2 params = (0, 0, 1, 0)%Qc /\
  seedProbs (3 + k) params = (0, 0, 0, 1)%Qc.
Proof.
  intros H1 H2 H3.
  assert (E1 : seedProbs 1 params = (0, 1, 0, 0)%Qc).
  { unfold seedProbs. cbn [Nat.iter nat_rect]. unfold nextP. rewrite H1, H2, H3. ProbVec_eq. }
  assert (E2 : seedProbs 2 params = (0, 0, 1, 0)%Qc).
  { rewrite seedProbs_succ, E1. unfold nextP. rewrite H1, H2, H3. ProbVec_eq. }
  split; [exact E1|]. split; [exact E2|].
  induction k as [|k IH].
  - change (3 + 0) with 3. rewrite seedProbs_succ, E2. unfold nextP.
    rewrite H1, H2, H3. ProbVec_eq.
  - change (3 + S k) with (S (3 + k)). rewrite seedProbs_succ, IH. unfold nextP.
    rewrite H1, H2, H3. ProbVec_eq.
Qed.

(** X2: the two extreme settings of the upgrade probabilities.  When the
    three probabilities are 0 a plot stays at tier 1 whatever its level; when
    they are 1 each check moves the plot up one tier, and tier 4 keeps it:
    levels 0, 1, 2 give the values of tiers 1, 2, 3 and every level from 3 on
    gives the value of tier 4. *)
Theorem getSeedEV_extreme_probabilities (k : nat) (params : GameParams) :
  (probL1toL2 params = 0%Qc -> probL2toL3 params = 0%Qc -> probL3toL4 params = 0%Qc ->
   getSeedEV k params = valL1 params) /\
  (probL1toL2 params = 1%Qc -> probL2toL3 params = 1%Qc -> probL3toL4 params = 1%Qc ->
   getSeedEV 0 params = valL1 params /\
   getSeedEV 1 params = valL2 params /\
   getSeedEV 2 params = valL3 params /\
   getSeedEV (3 + k) params = valL4 params).
Proof.
  split.
  - intros H1 H2 H3. unfold getSeedEV. rewrite seedProbs_frozen by assumption. cbn. ring.
  - intros H1 H2 H3.
    destruct (seedProbs_certain k params H1 H2 H3) as (E1 & E2 & E3).
    unfold getSeedEV. rewrite E1, E2, E3. cbn. repeat split; ring.
Qed.

(** * Further properties of the weights *)

Lemma Qc_max_ge_l x y : (x <= Qc_max x y)%Qc.
Proof. destruct (Qc_max_spec x y) as [[? ->]|[? ->]]; [assumption|apply Qcle_refl]. Qed.

Lemma Qc_max_ge_r x y : (y <= Qc_max x y)%Qc.
Proof. destruct (Qc_max_spec x y) as [[? ->]|[? ->]]; [apply Qcle_refl|assumption]. Qed.

Lemma buyCount_le_max color params :
  (buyCount color params
   <= Qc_max (Qc_max (buyCountPurple params) (buyCountBlue params))
             (buyCountYellow params))%Qc.
Proof.
  destruct color; cbn.
  - eapply Qcle_trans; [apply Qc_max_ge_l|apply Qc_max_ge_l].
  - eapply Qcle_trans; [apply Qc_max_ge_r|apply Qc_max_ge_l].
  - apply Qc_max_ge_r.
Qed.

Lemma Qc_leb_true x y : Qc_leb x y = true <-> (x <= y)%Qc.
Proof. unfold Qc_leb. rewrite negb_true_iff. apply Qc_gtb_le. Qed.

Lemma Qc_leb_false x y : Qc_leb x y = false <-> (y < x)%Qc.
Proof. unfold Qc_leb. rewrite negb_false_iff. apply Qc_gtb_lt. Qed.

Lemma Qcdiv_one_iff (m c : Qc) : (0 < c)%Qc -> (m / c = 1)%Qc <-> m = c.
Proof.
  intros Hc. assert (c <> 0%Qc) by (intros E; rewrite E in Hc; now apply Qclt_not_eq in Hc).
  split.
  - intros E. rewrite <- (Qcmult_div_r m c) by assumption. rewrite E. ring.
  - intros ->. now apply Qcmult_inv_r.
Qed.

Lemma Qcdiv_ge_one (m c : Qc) : (0 < c)%Qc -> (c <= m)%Qc -> (1 <= m / c)%Qc.
Proof.
  intros Hc Hle.
  assert (Hne : c <> 0%Qc) by (intros E; rewrite E in Hc; now apply Qclt_not_eq in Hc).
  replace 1%Qc with (c / c)%Qc by now apply Qcmult_inv_r.
  unfold Qcdiv. apply Qcmult_le_compat_r; [assumption|].
  apply Qclt_le_weak, Qcinv_pos. assumption.
Qed.

(** X3: the range of the multiplier.  It is 0 for a color whose purchase
    quantity is not positive; otherwise it is at least 1, and it is exactly
    1 precisely for a color whose quantity is the greatest of the three.  It
    is never negative. *)
Theorem getCropMultiplier_range (color : CropColor) (params : GameParams) :
  ((buyCount color params <= 0)%Qc -> getCropMultiplier color params = 0%Qc) /\
  ((0 < buyCount color params)%Qc ->
   (1 <= getCropMultiplier color params)%Qc /\
   (getCropMultiplier color params = 1%Qc <->
    (buyCountPurple params <= buyCount color params)%Qc /\
    (buyCountBlue params <= buyCount color params)%Qc /\
    (buyCountYellow params <= buyCount color params)%Qc)) /\
  (0 <= getCropMultiplier color params)%Qc.
Proof.
  unfold getCropMultiplier.
  set (m := Qc_max (Qc_max (buyCountPurple params) (buyCountBlue params))
                   (buyCountYellow params)).
  pose proof (buyCount_le_max color params) as Hle. fold m in Hle.
  assert (Hpos : (0 < buyCount color params)%Qc ->
                 (1 <= m / buyCount color params)%Qc /\
                 ((m / buyCount color params)%Qc = 1%Qc <->
                  (buyCountPurple params <= buyCount color params)%Qc /\
                  (buyCountBlue params <= buyCount color params)%Qc /\
                  (buyCountYellow params <= buyCount color params)%Qc)).
  { intros Hc. split; [now apply Qcdiv_ge_one|].
    rewrite Qcdiv_one_iff by assumption. split.
    - intros E. rewrite <- E. unfold m. repeat split.
      + eapply Qcle_trans; [apply Qc_max_ge_l|apply Qc_max_ge_l].
      + eapply Qcle_trans; [apply Qc_max_ge_r|apply Qc_max_ge_l].
      + apply Qc_max_ge_r.
    - intros (Hp & Hb & Hy). apply Qcle_antisym; [|assumption].
      unfold m.
      destruct (Qc_max_spec (Qc_max (buyCountPurple params) (buyCountBlue params))
                            (buyCountYellow params)) as [[_ ->]|[_ ->]]; [assumption|].
      destruct (Qc_max_spec (buyCountPurple params) (buyCountBlue params))
        as [[_ ->]|[_ ->]]; assumption. }
  split; [|split].
  - intros Hc. now rewrite (proj2 (Qc_leb_true _ _) Hc).
  - intros Hc. rewrite (proj2 (Qc_leb_false _ _) Hc). now apply Hpos.
  - destruct (Qc_leb (buyCount color params) 0) eqn:E; [apply Qcle_refl|].
    apply Qc_leb_false in E. destruct (Hpos E) as [H1 _].
    eapply Qcle_trans; [|exact H1]. now vm_compute.
Qed.

(** * The identifier of a plot *)

Lemma length_append a b : String.length (a ++ b) = String.length a + String.length b.
Proof. induction a as [|c a IH]; cbn; [reflexivity|]. now rewrite IH. Qed.

(** Two strings with suffixes of one length are equal only when the
    prefixes and the suffixes are. *)
Lemma append_suffix_inj a b s s' :
  String.length s = String.length s' -> a ++ s = b ++ s' -> a = b /\ s = s'.
Proof.
  intros Hlen. revert b. induction a as [|c a IH]; intros [|d b] E; cbn in E.
  - now split.
  - exfalso. apply (f_equal String.length) in E. cbn in E.
    rewrite length_append in E. lia.
  - exfalso. apply (f_equal String.length) in E. cbn in E.
    rewrite length_append in E. lia.
  - injection E as -> E. destruct (IH b E) as [-> ->]. now split.
Qed.

Lemma plotId_eq_iff (p q : LogicPlot) :
  plotId p = plotId q <-> fieldId p = fieldId q /\ side p = side q.
Proof.
  unfold plotId. split.
  - intros E.
    apply append_suffix_inj in E as [Ef Es]; [|now destruct (side p), (side q)].
    split; [assumption|]. destruct (side p), (side q); congruence || discriminate.
  - intros [-> ->]. reflexivity.
Qed.

(** X4: [plotId] names a plot by its field and its side, and by nothing
    else: two plots have the same identifier exactly when they have the same
    field identifier and the same side, whatever characters the field
    identifier holds. *)
Theorem plotId_inj (p q : LogicPlot) :
  plotId p = plotId q <-> fieldId p = fieldId q /\ side p = side q.
Proof. apply plotId_eq_iff. Qed.

(** * The cache only grows *)

Lemma moveValue_preserves (rec : Solver) plots params i currentPlot memo total resA memo' :
  (forall l m r m', rec l params m = Some (r, m') -> m ⊆ m') ->
  moveValue rec plots params i currentPlot memo = Some (total, resA, memo') ->
  memo ⊆ memo'.
Proof.
  intros Hrec. unfold moveValue.
  destruct (rec (nextPlotsA plots i currentPlot) params memo)
    as [[rA memoA]|] eqn:EA; [|discriminate].
  apply Hrec in EA.
  destruct (neighbor plots i currentPlot) as [nb|].
  - destruct (rec (nextPlotsB plots i currentPlot nb) params memoA)
      as [[rB memoB]|] eqn:EB; [|discriminate].
    apply Hrec in EB. intros E. injection E as _ _ <-. now transitivity memoA.
  - intros E. now injection E as _ _ <-.
Qed.

Lemma solveLoop_preserves (rec : Solver) plots params :
  (forall l m r m', rec l params m = Some (r, m') -> m ⊆ m') ->
  forall rest i bestResult memo r memo',
    solveLoop rec plots params i rest bestResult memo = Some (r, memo') ->
    memo ⊆ memo'.
Proof.
  intros Hrec. induction rest as [|currentPlot rest IH]; intros i best memo r memo' E;
    cbn in E.
  - now injection E as _ <-.
  - destruct (moveValue rec plots params i currentPlot memo)
      as [[[total resA] memo1]|] eqn:Em; [|discriminate].
    apply moveValue_preserves in Em; [|assumption].
    apply IH in E. now transitivity memo1.
Qed.

Lemma solve_fuel_preserves fuel plots params memo r memo' :
  solve_fuel fuel plots params memo = Some (r, memo') -> memo ⊆ memo'.
Proof.
  revert plots memo r memo'.
  induction fuel as [|fuel IH]; intros plots memo r memo' E; [discriminate|].
  cbn in E. unfold solveBody in E. destruct plots as [|p plots].
  { now injection E as _ <-. }
  destruct (memo !! generateKey (p :: plots)) as [cached|] eqn:Hk.
  { now injection E as _ <-. }
  destruct (solveLoop (solve_fuel fuel) (p :: plots) params 0 (p :: plots) initialBest memo)
    as [[best memoL]|] eqn:EL; [|discriminate].
  injection E as _ <-.
  apply solveLoop_preserves in EL; [|intros l m r' m'; apply IH].
  apply map_subseteq_spec. intros key cached Hc.
  rewrite lookup_insert_ne by congruence.
  now apply (proj1 (map_subseteq_spec memo memoL) EL).
Qed.

(** X5: [solve] only adds to the cache.  Whatever the list, the parameters
    and the cache, the cache it leaves holds every entry the cache held at
    the call, with the same result: no entry is dropped or replaced. *)
Theorem solve_cache_grows (plots : list LogicPlot) (params : GameParams)
    (memo : gmap string SolveResult) :
  exists r memo',
    solve plots params memo = Some (r, memo') /\
    memo ⊆ memo' /\
    forall key cached, memo !! key = Some cached -> memo' !! key = Some cached.
Proof.
  destruct (solve_is_Some plots params memo) as [[r memo'] E].
  exists r, memo'. split; [exact E|].
  apply solve_fuel_preserves in E. split; [exact E|].
  now apply map_subseteq_spec.
Qed.

(** * The shape of a computed result *)

Lemma maxEV_compareWithMax_ge currentPlot total resA bestResult :
  (maxEV bestResult <= maxEV (compareWithMax currentPlot total resA bestResult))%Qc.
Proof.
  rewrite maxEV_compareWithMax.
  destruct (Qc_gtb total (maxEV bestResult)) eqn:E; [|apply Qcle_refl].
  apply Qc_gtb_lt in E. now apply Qclt_le_weak.
Qed.

(** What the loop leaves in [bestResult]: what it started from, or the
    record of one of the moves, whose value exceeds the start. *)
Lemma bestOf_cases rest moves bestResult :
  bestOf rest moves bestResult = bestResult \/
  exists i currentPlot total resA,
    rest !! i = Some currentPlot /\ moves !! i = Some (total, resA) /\
    (maxEV bestResult < total)%Qc /\
    bestOf rest moves bestResult
    = {| maxEV := total; path := stepDesc currentPlot :: path resA;
         bestMoveId := Some (plotId currentPlot) |}.
Proof.
  revert moves bestResult.
  induction rest as [|cur rest IH]; intros [|[v r] moves] best; try (now left).
  cbn [bestOf].
  destruct (IH moves (compareWithMax cur v r best))
    as [E|(i & p & total & resA & Hi & Hm & Hlt & E)].
  - rewrite E. unfold compareWithMax.
    destruct (Qc_gtb v (maxEV best)) eqn:Ev; [|now left].
    right. exists 0, cur, v, r. apply Qc_gtb_lt in Ev. now repeat split.
  - right. exists (S i), p, total, resA. repeat split; try assumption.
    eapply Qcle_lt_trans; [apply maxEV_compareWithMax_ge|exact Hlt].
Qed.

(** X6: the shape of a result that [solve] computes (list not empty, key
    not in the cache), in terms of the moves the loop evaluates
    ([MovesEvaluated]: the value and the branch-A result of each plot, from
    the recursive calls with the cache threaded through).  Either no move
    was recorded, and the result is [maxEV = -1] with an empty path and no
    [bestMoveId]; or one of the moves was recorded: [maxEV] is its value,
    above -1, [bestMoveId] is the identifier of its plot, and the path is the
    description of the harvest of that plot followed by the path of the
    result that the loop got from [solve] for branch A of that plot. *)
Theorem solve_result_shape (plots : list LogicPlot) (params : GameParams)
    (memo : gmap string SolveResult) :
  plots <> [] ->
  memo !! generateKey plots = None ->
  exists r moves memoL,
    solve plots params memo = Some (r, <[generateKey plots := r]> memoL) /\
    MovesEvaluated solve plots params 0 plots memo moves memoL /\
    ((maxEV r = (- 1)%Qc /\ path r = [] /\ bestMoveId r = None) \/
     (exists i currentPlot total resA,
         plots !! i = Some currentPlot /\
         moves !! i = Some (total, resA) /\
         (- 1 < total)%Qc /\
         maxEV r = total /\
         bestMoveId r = Some (plotId currentPlot) /\
         path r = stepDesc currentPlot :: path resA)).
Proof.
  intros Hne Hmiss.
  destruct (solve_miss plots params memo Hne Hmiss) as (moves & memo' & Hm & E).
  eexists _, moves, memo'. split; [exact E|]. split; [exact Hm|].
  destruct (bestOf_cases plots moves initialBest)
    as [->|(i & p & total & resA & Hi & Hmi & Hlt & ->)].
  - left. now cbn.
  - right. exists i, p, total, resA. now repeat split.
Qed.

(** * An invariant principle for the cached search *)

Lemma cacheSatisfies_empty P : cacheSatisfies P ∅.
Proof. intros plots r _ H. now rewrite lookup_empty in H. Qed.

Lemma cacheSatisfies_insert (P : list LogicPlot -> SolveResult -> Prop) memo plots r :
  (forall l l' r, wellFormed l -> l ≡ₚ l' -> P l r -> P l' r) ->
  wellFormed plots -> cacheSatisfies P memo -> P plots r ->
  cacheSatisfies P (<[generateKey plots := r]> memo).
Proof.
  intros Hperm Hwf Hc Hr l r' Hwfl Hlook.
  destruct (decide (generateKey plots = generateKey l)) as [E|E].
  - rewrite E, lookup_insert_eq in Hlook. injection Hlook as <-.
    apply (Hperm plots l); [assumption| |assumption].
    destruct Hwf, Hwfl. now apply generateKey_inj.
  - rewrite lookup_insert_ne in Hlook by assumption. now apply Hc.
Qed.

Lemma moves_invariant (P : list LogicPlot -> SolveResult -> Prop) params plots :
  (forall l memo,
      length l < length plots -> wellFormed l -> cacheSatisfies P memo ->
      exists r memo',
        solve l params memo = Some (r, memo') /\ P l r /\ cacheSatisfies P memo') ->
  wellFormed plots ->
  forall i rest memo moves memo',
    MovesEvaluated solve plots params i rest memo moves memo' ->
    drop i plots = rest -> cacheSatisfies P memo ->
    (forall j currentPlot total resA,
        rest !! j = Some currentPlot -> moves !! j = Some (total, resA) ->
        moveSatisfies P plots params (i + j) currentPlot total resA) /\
    cacheSatisfies P memo'.
Proof.
  intros IH Hwf i rest memo moves memo' Hm.
  induction Hm as [|i cur rest memo nb resA memoA resB memoB moves memo' Hnb EA EB _ IHm
                   |i cur rest memo resA memoA moves memo' Hnb EA _ IHm];
    intros Hd Hvalid.
  - split; [|assumption]. intros j p total r Hj. discriminate.
  - apply drop_cons_lookup in Hd as [Hi Hd].
    destruct (IH (nextPlotsA plots i cur) memo) as (r & m & E & Hr & Hv);
      [now apply length_nextPlotsA|now apply wellFormed_nextPlotsA|assumption|].
    rewrite E in EA. injection EA as -> ->.
    destruct (IH (nextPlotsB plots i cur nb) memoA) as (r' & m' & E' & Hr' & Hv');
      [now apply length_nextPlotsB|now apply wellFormed_nextPlotsB|assumption|].
    rewrite E' in EB. injection EB as -> ->.
    destruct (IHm Hd Hv') as [Hmoves Hvalid']. split; [|assumption].
    intros [|j] p total r Hj Hmj; cbn in Hj, Hmj.
    + injection Hj as <-. injection Hmj as <- <-. rewrite Nat.add_0_r.
      split; [assumption|]. rewrite Hnb. eauto.
    + rewrite Nat.add_succ_r. now apply Hmoves.
  - apply drop_cons_lookup in Hd as [Hi Hd].
    destruct (IH (nextPlotsA plots i cur) memo) as (r & m & E & Hr & Hv);
      [now apply length_nextPlotsA|now apply wellFormed_nextPlotsA|assumption|].
    rewrite E in EA. injection EA as -> ->.
    destruct (IHm Hd Hv) as [Hmoves Hvalid']. split; [|assumption].
    intros [|j] p total r Hj Hmj; cbn in Hj, Hmj.
    + injection Hj as <-. injection Hmj as <- <-. rewrite Nat.add_0_r.
      split; [assumption|]. now rewrite Hnb.
    + rewrite Nat.add_succ_r. now apply Hmoves.
Qed.

(** A property [P] of (list, result) holds of everything [solve] returns
    on well-formed lists, and of every entry it stores, as soon as it holds of
    the empty list and its result, does not depend on the order of the list,
    and holds of the result the loop builds from moves whose continuations
    satisfy it. *)
Theorem solve_invariant (P : list LogicPlot -> SolveResult -> Prop)
    (params : GameParams) :
  (forall l l' r, wellFormed l -> l ≡ₚ l' -> P l r -> P l' r) ->
  P [] emptyResult ->
  (forall plots moves,
      wellFormed plots -> plots <> [] -> length moves = length plots ->
      (forall i currentPlot total resA,
          plots !! i = Some currentPlot -> moves !! i = Some (total, resA) ->
          moveSatisfies P plots params i currentPlot total resA) ->
      P plots (bestOf plots moves initialBest)) ->
  forall plots memo,
    wellFormed plots -> cacheSatisfies P memo ->
    exists r memo',
      solve plots params memo = Some (r, memo') /\ P plots r /\ cacheSatisfies P memo'.
Proof.
  intros Hperm Hempty Hstep plots.
  remember (length plots) as n eqn:Hn. revert plots Hn.
  induction (lt_wf n) as [n _ IH]. intros plots -> memo Hwf Hvalid.
  destruct plots as [|p plots].
  { exists emptyResult, memo. now rewrite solve_nil. }
  destruct (memo !! generateKey (p :: plots)) as [cached|] eqn:Hk.
  - exists cached, memo. split; [now apply solve_hit|]. split; [|assumption].
    now apply Hvalid.
  - destruct (solve_miss (p :: plots) params memo) as (moves & memo' & Hm & E);
      [discriminate|assumption|].
    destruct (moves_invariant P params (p :: plots)) with
      (i := 0) (rest := p :: plots) (memo := memo) (moves := moves) (memo' := memo')
      as [Hmoves Hvalid']; try assumption; try reflexivity.
    { intros l m Hl Hwfl Hvl. now apply (IH (length l)). }
    eexists _, _. split; [exact E|].
    assert (Hr : P (p :: plots) (bestOf (p :: plots) moves initialBest)).
    { apply Hstep; [assumption|discriminate| |exact Hmoves].
      now apply (MovesEvaluated_length _ _ _ _ _ _ _ _ Hm). }
    split; [exact Hr|]. now apply cacheSatisfies_insert.
Qed.

(** * The path and the recommended move *)

Lemma elem_of_fieldsIn x plots :
  x ∈ fieldsIn plots <-> exists p, p ∈ plots /\ fieldId p = x.
Proof.
  unfold fieldsIn. rewrite elem_of_list_to_set.
  change (map fieldId plots) with (fieldId <$> plots). rewrite list_elem_of_fmap.
  split; intros (p & H1 & H2); exists p; now split.
Qed.

Lemma fieldsIn_Permutation plots plots' :
  plots ≡ₚ plots' -> fieldsIn plots = fieldsIn plots'.
Proof.
  intros Hp. apply set_eq. intros x. rewrite !elem_of_fieldsIn.
  split; intros (p & Hin & E); exists p; (split; [|exact E]).
  - now rewrite <- Hp.
  - now rewrite Hp.
Qed.

Lemma elem_of_nextPlotsA q plots i currentPlot :
  plots !! i = Some currentPlot ->
  q ∈ nextPlotsA plots i currentPlot <->
  exists p, p ∈ plots /\ fieldId p <> fieldId currentPlot /\ q = grow currentPlot 1 p.
Proof.
  intros Hi. unfold nextPlotsA, nonNeighbors, otherPlots.
  rewrite list_elem_of_In, in_map_iff. split.
  - intros (p & <- & Hp). apply filter_In in Hp as [Hp Hf].
    apply negb_true_iff, bool_decide_eq_false in Hf.
    exists p. split; [|now split].
    apply list_elem_of_In in Hp. now apply list_elem_of_delete_inv in Hp.
  - intros (p & Hp & Hf & ->). exists p. split; [reflexivity|].
    apply filter_In. split; [|now apply negb_true_iff, bool_decide_eq_false].
    rewrite (delete_Permutation plots i currentPlot Hi) in Hp.
    apply elem_of_cons in Hp as [->|Hp]; [congruence|now apply list_elem_of_In].
Qed.

(** Branch A drops the whole field of the harvested plot, and no other. *)
Lemma fieldsIn_nextPlotsA plots i currentPlot :
  plots !! i = Some currentPlot ->
  fieldsIn (nextPlotsA plots i currentPlot) = fieldsIn plots ∖ {[fieldId currentPlot]}.
Proof.
  intros Hi. apply set_eq. intros x.
  rewrite elem_of_difference, not_elem_of_singleton, !elem_of_fieldsIn. split.
  - intros (q & Hq & <-). apply (elem_of_nextPlotsA _ _ _ _ Hi) in Hq as (p & Hp & Hf & ->).
    split; [now exists p|assumption].
  - intros [(p & Hp & <-) Hf]. exists (grow currentPlot 1 p). split; [|reflexivity].
    apply (elem_of_nextPlotsA _ _ _ _ Hi). now exists p.
Qed.

Lemma size_fieldsIn_nextPlotsA plots i currentPlot :
  plots !! i = Some currentPlot ->
  S (size (fieldsIn (nextPlotsA plots i currentPlot))) = size (fieldsIn plots).
Proof.
  intros Hi. rewrite (fieldsIn_nextPlotsA _ _ _ Hi).
  assert (Hin : fieldId currentPlot ∈ fieldsIn plots).
  { apply elem_of_fieldsIn. exists currentPlot. split; [|reflexivity].
    apply list_elem_of_lookup. eauto. }
  rewrite size_difference by set_solver. rewrite size_singleton.
  assert (size (fieldsIn plots) <> 0); [|lia].
  apply size_non_empty_iff. set_solver.
Qed.

Lemma size_fieldsIn_le plots : size (fieldsIn plots) <= length plots.
Proof.
  unfold fieldsIn. induction plots as [|p plots IH]; cbn.
  - now rewrite size_empty.
  - rewrite size_union_alt, size_singleton.
    pose proof (subseteq_size (list_to_set (map fieldId plots)
                                ∖ ({[fieldId p]} : gset string))
                              (list_to_set (map fieldId plots))) as H.
    specialize (H ltac:(set_solver)). lia.
Qed.

Lemma solve_path_bounded_aux (plots : list LogicPlot) (params : GameParams)
    (memo : gmap string SolveResult) :
  wellFormed plots ->
  exists r memo',
    solve plots params (clearMemo memo) = Some (r, memo') /\
    length (path r) <= size (fieldsIn plots) /\
    size (fieldsIn plots) <= length plots /\
    (forall id, bestMoveId r = Some id -> exists p, p ∈ plots /\ id = plotId p) /\
    (- 1 <= maxEV r)%Qc.
Proof.
  intros Hwf.
  set (P := fun (l : list LogicPlot) (r : SolveResult) =>
              length (path r) <= size (fieldsIn l) /\
              (forall id, bestMoveId r = Some id -> exists p, p ∈ l /\ id = plotId p) /\
              (- 1 <= maxEV r)%Qc).
  destruct (solve_invariant P params) with (plots := plots) (memo := clearMemo memo)
    as (r & memo' & E & (H1 & H2 & H3) & _).
  - intros l l' r _ Hp (H1 & H2 & H3). repeat split.
    + now rewrite <- (fieldsIn_Permutation l l' Hp).
    + intros id Hid. destruct (H2 id Hid) as (p & Hin & ->).
      exists p. split; [now rewrite <- Hp|reflexivity].
    + assumption.
  - split; [cbn [path emptyResult length]; lia|].
    split; [discriminate|now vm_compute].
  - intros l moves _ Hne Hlen Hmoves.
    destruct (bestOf_cases l moves initialBest)
      as [->|(i & p & total & resA & Hi & Hmi & Hlt & ->)].
    + repeat split; cbn; [lia|discriminate|apply Qcle_refl].
    + destruct (Hmoves i p total resA Hi Hmi) as [(HA1 & _ & _) _].
      repeat split; cbn.
      * rewrite <- (size_fieldsIn_nextPlotsA l i p Hi). lia.
      * intros id Hid. injection Hid as <-. exists p. split; [|reflexivity].
        apply list_elem_of_lookup. eauto.
      * now apply Qclt_le_weak.
  - assumption.
  - apply cacheSatisfies_empty.
  - exists r, memo'. repeat split; try assumption. apply size_fieldsIn_le.
Qed.

(** X7: on a well-formed list and from a cleared cache, for any parameters:
    the path has at most one step per field that has a plot in the list
    (hence at most one per plot), [bestMoveId], when defined, is the
    identifier of a plot of the list, and [maxEV] is at least -1. *)
Theorem solve_path_bounded (plots : list LogicPlot) (params : GameParams)
    (memo : gmap string SolveResult) :
  wellFormed plots ->
  exists r memo',
    solve plots params (clearMemo memo) = Some (r, memo') /\
    length (path r) <= size (fieldsIn plots) /\
    size (fieldsIn plots) <= length plots /\
    (forall id, bestMoveId r = Some id -> exists p, p ∈ plots /\ id = plotId p) /\
    (- 1 <= maxEV r)%Qc.
Proof. apply solve_path_bounded_aux. Qed.

(** * The fields of the interface *)

Lemma fieldId_generated_inj i j :
  "field" ++ numberToString (i + 1) = "field" ++ numberToString (j + 1) -> i = j.
Proof.
  intros E. cbn in E. injection E as E. apply numberToString_inj in E. lia.
Qed.

Lemma delimiterFree_generated n : delimiterFree ("field" ++ numberToString n).
Proof.
  split; rewrite occurs_app; cbn [occurs Ascii.eqb Bool.eqb orb];
    now apply occurs_numberToString.
Qed.

Lemma generateFields_ids count :
  map FieldConfig.id (generateFields count)
  = map (fun i => "field" ++ numberToString (i + 1)) (seq 0 count).
Proof. unfold generateFields. now rewrite map_map. Qed.

Lemma fieldsOk_generateFields count : fieldsOk (generateFields count).
Proof.
  split.
  - rewrite generateFields_ids.
    apply (NoDup_fmap_2_strong (fun i => "field" ++ numberToString (i + 1))).
    + intros i j _ _. apply fieldId_generated_inj.
    + apply NoDup_ListNoDup, seq_NoDup.
  - unfold generateFields. apply Forall_map, Forall_forall. intros i _. cbn.
    split; [apply delimiterFree_generated|]. split; reflexivity.
Qed.

Lemma fieldsOk_insert fs i f f' :
  fieldsOk fs -> fs !! i = Some f ->
  FieldConfig.id f' = FieldConfig.id f ->
  PlotConfig.id (FieldConfig.left f') = PlotConfig.id (FieldConfig.left f) ->
  PlotConfig.id (FieldConfig.right f') = PlotConfig.id (FieldConfig.right f) ->
  fieldsOk (<[i := f']> fs).
Proof.
  intros [Hnd Hall] Hi Eid El Er. split.
  - change (map FieldConfig.id (<[i:=f']> fs)) with (FieldConfig.id <$> <[i:=f']> fs).
    rewrite list_fmap_insert, Eid, list_insert_id; [assumption|].
    now rewrite list_lookup_fmap, Hi.
  - apply Forall_insert; [assumption|].
    rewrite Eid, El, Er. now apply (Forall_lookup_1 _ _ _ _ Hall Hi).
Qed.

Lemma fieldsOk_withPlot fs i f s p :
  fieldsOk fs -> fs !! i = Some f ->
  PlotConfig.id p = PlotConfig.id (plotAt s f) ->
  fieldsOk (<[i := withPlot s p f]> fs).
Proof.
  intros Hok Hi Ep. apply (fieldsOk_insert fs i f); try assumption;
    destruct s; cbn in *; congruence.
Qed.

Lemma id_globalUpdatePlot c p :
  PlotConfig.id (globalUpdatePlot c p) = PlotConfig.id p.
Proof. unfold globalUpdatePlot. now destruct (_ && _). Qed.

Lemma fieldsOk_applyGlobalUpdate fs c skip :
  fieldsOk fs -> fieldsOk (applyGlobalUpdate fs c skip).
Proof.
  intros [Hnd Hall]. unfold applyGlobalUpdate. split.
  - now rewrite map_map.
  - apply Forall_map. eapply Forall_impl; [exact Hall|].
    intros f (H1 & H2 & H3). cbn. now rewrite !id_globalUpdatePlot.
Qed.

(** The handlers keep the identifiers of the fields and of the plots. *)
Lemma Reachable_fieldsOk st : Reachable st -> fieldsOk (fields st).
Proof.
  induction 1 as [count|st i s st' _ IH E|st b st' _ IH E|st count _ IH
                  |st b _ IH|st i s c st' _ IH E|st _ IH].
  - apply fieldsOk_generateFields.
  - unfold handleHarvestClick in E.
    destruct (fields st !! i) as [f|] eqn:Hi; [|discriminate].
    assert (Hok : fieldsOk (<[i := withPlot s (deactivate (plotAt s f)) f]> (fields st)))
      by now apply fieldsOk_withPlot.
    destruct (PlotConfig.active (plotAt (otherSide s) f)); injection E as <-; cbn.
    + assumption.
    + now apply fieldsOk_applyGlobalUpdate.
  - unfold handleNeighborResult in E.
    destruct (neighborCheck st) as [nc|]; [|now injection E as <-].
    destruct (fields st !! targetFieldIdx nc) as [f|] eqn:Hi; [|discriminate].
    injection E as <-. cbn. apply fieldsOk_applyGlobalUpdate.
    apply fieldsOk_withPlot; [assumption..|].
    destruct b; [|reflexivity]. now destruct (bool_decide _).
  - apply fieldsOk_generateFields.
  - unfold handleReset. destruct b; [apply fieldsOk_generateFields|assumption].
  - unfold updatePlotConfig in E.
    destruct (fields st !! i) as [f|] eqn:Hi; [|discriminate].
    injection E as <-. cbn. now apply fieldsOk_withPlot.
  - unfold autoReset. destruct (_ && _); [apply fieldsOk_generateFields|assumption].
Qed.

(** ** The list of plots handed to the solver *)

Lemma elem_of_logicPlotsOfField p f :
  p ∈ logicPlotsOfField f <->
  exists s, PlotConfig.active (plotAt s f) = true /\ p = logicPlotOf f s.
Proof.
  unfold logicPlotsOfField. rewrite elem_of_app. split.
  - intros [H|H].
    + destruct (PlotConfig.active (FieldConfig.left f)) eqn:E;
        [|now apply elem_of_nil in H].
      apply list_elem_of_singleton in H. exists left. now split.
    + destruct (PlotConfig.active (FieldConfig.right f)) eqn:E;
        [|now apply elem_of_nil in H].
      apply list_elem_of_singleton in H. exists right. now split.
  - intros ([|] & Ha & ->); cbn in Ha; rewrite Ha; [left|right];
      now apply list_elem_of_singleton.
Qed.

Lemma elem_of_logicPlotsOf p fs :
  p ∈ logicPlotsOf fs <->
  exists f s, f ∈ fs /\ PlotConfig.active (plotAt s f) = true /\ p = logicPlotOf f s.
Proof.
  unfold logicPlotsOf. rewrite list_elem_of_In, in_concat. split.
  - intros (l & Hl & Hp). apply in_map_iff in Hl as (f & <- & Hf).
    apply list_elem_of_In, elem_of_logicPlotsOfField in Hp as (s & Ha & ->).
    exists f, s. split; [now apply list_elem_of_In|now split].
  - intros (f & s & Hf & Ha & ->). exists (logicPlotsOfField f). split.
    + apply in_map, list_elem_of_In, Hf.
    + apply list_elem_of_In, elem_of_logicPlotsOfField. now exists s.
Qed.

Lemma NoDup_identity_logicPlotsOfField f :
  NoDup (map identity (logicPlotsOfField f)).
Proof.
  unfold logicPlotsOfField.
  destruct (PlotConfig.active (FieldConfig.left f)),
           (PlotConfig.active (FieldConfig.right f)); cbn;
    repeat constructor; try (now apply not_elem_of_nil).
  intros H. apply list_elem_of_singleton in H. discriminate.
Qed.

Lemma NoDup_identity_logicPlotsOf fs :
  NoDup (map FieldConfig.id fs) -> NoDup (map identity (logicPlotsOf fs)).
Proof.
  unfold logicPlotsOf. induction fs as [|f fs IH]; cbn; [constructor|].
  intros Hnd. apply NoDup_cons in Hnd as [Hnotin Hnd].
  rewrite map_app. apply NoDup_app. split; [apply NoDup_identity_logicPlotsOfField|].
  split; [|now apply IH].
  intros x Hx Hx'.
  apply list_elem_of_In, in_map_iff in Hx as (p & <- & Hp).
  apply list_elem_of_In, in_map_iff in Hx' as (q & Eq & Hq).
  apply list_elem_of_In, elem_of_logicPlotsOfField in Hp as (s & _ & ->).
  apply list_elem_of_In in Hq.
  apply (elem_of_logicPlotsOf q fs) in Hq as (g & s' & Hg & _ & ->).
  apply Hnotin. injection Eq as Eid _. rewrite <- Eid.
  apply list_elem_of_In, in_map, list_elem_of_In, Hg.
Qed.

Lemma wellFormed_logicPlotsOf fs : fieldsOk fs -> wellFormed (logicPlotsOf fs).
Proof.
  intros [Hnd Hall]. split.
  - apply Forall_forall. intros p Hp.
    apply elem_of_logicPlotsOf in Hp as (f & s & Hf & _ & ->). cbn.
    now apply (proj1 (Forall_forall _ _) Hall f Hf).
  - now apply NoDup_identity_logicPlotsOf.
Qed.

(** X9: every state the interface reaches from generated fields by its
    handlers has fields with distinct identifiers, free of the delimiters of
    the keys, and plots named after their field and side; so the list of
    plots that [runSolver] hands to [solve] is always well formed. *)
Theorem reachable_logicPlots_wellFormed (st : AppState) :
  Reachable st ->
  fieldsOk (fields st) /\ wellFormed (logicPlotsOf (fields st)).
Proof.
  intros Hr. pose proof (Reachable_fieldsOk st Hr) as Hok.
  split; [exact Hok|now apply wellFormed_logicPlotsOf].
Qed.

(** ** The suggestion *)

Lemma logicPlotsOfField_nil f :
  logicPlotsOfField f = [] <->
  PlotConfig.active (FieldConfig.left f) = false /\
  PlotConfig.active (FieldConfig.right f) = false.
Proof.
  unfold logicPlotsOfField.
  destruct (PlotConfig.active (FieldConfig.left f)),
           (PlotConfig.active (FieldConfig.right f)); cbn; intuition discriminate.
Qed.

Lemma logicPlotsOf_nil fs : logicPlotsOf fs = [] <-> isGameOver fs = true.
Proof.
  unfold logicPlotsOf, isGameOver. induction fs as [|f fs IH]; cbn; [tauto|].
  rewrite andb_true_iff, <- IH, andb_true_iff, !negb_true_iff, <- logicPlotsOfField_nil.
  split.
  - intros E. now apply app_eq_nil in E.
  - intros [-> ->]. reflexivity.
Qed.

(** X10: what [runSolver] sets as the suggestion in a reachable state.  It
    is [null] exactly when the game is over (no plot is active); otherwise it
    is a result whose [maxEV] is the value that the recurrence of the search
    gives to the list of the active plots, computed without any cache. *)
Theorem runSolver_suggestion (st : AppState) (params : GameParams)
    (memo : gmap string SolveResult) :
  Reachable st ->
  exists suggestion memo',
    runSolver st params memo = Some (suggestion, memo') /\
    (suggestion = None <-> isGameOver (fields st) = true) /\
    (forall r, suggestion = Some r ->
               maxEV r = stateValue params (logicPlotsOf (fields st))).
Proof.
  intros Hr. pose proof (wellFormed_logicPlotsOf _ (Reachable_fieldsOk st Hr)) as Hwf.
  unfold runSolver.
  destruct (logicPlotsOf (fields st)) as [|p plots] eqn:El.
  - exists None, ∅. split; [reflexivity|]. split; [|discriminate].
    split; [intros _; now apply logicPlotsOf_nil|reflexivity].
  - cbn [length Nat.ltb Nat.leb].
    destruct (solve_sound params (p :: plots) (clearMemo memo) Hwf)
      as (r & memo' & -> & Hv & _); [apply validCache_empty|].
    exists (Some r), memo'. split; [reflexivity|]. split.
    + split; [discriminate|]. intros Hover.
      apply logicPlotsOf_nil in Hover. congruence.
    + intros r' E. now injection E as <-.
Qed.

Lemma plotId_logicPlotOf f s :
  PlotConfig.id (FieldConfig.left f) = FieldConfig.id f ++ "-L" ->
  PlotConfig.id (FieldConfig.right f) = FieldConfig.id f ++ "-R" ->
  plotId (logicPlotOf f s) = PlotConfig.id (plotAt s f).
Proof. intros El Er. unfold plotId. destruct s; cbn; congruence. Qed.

(** X11: in a reachable state, when [runSolver] sets a suggestion with a
    [bestMoveId], that identifier is the [id] of exactly one plot of the
    fields, and that plot is active: the interface highlights one plot and
    no other, and it can be harvested. *)
Theorem runSolver_highlights_one_plot (st : AppState) (params : GameParams)
    (memo memo' : gmap string SolveResult) (r : SolveResult) (id : string) :
  Reachable st ->
  runSolver st params memo = Some (Some r, memo') ->
  bestMoveId r = Some id ->
  exists i s f,
    fields st !! i = Some f /\
    PlotConfig.active (plotAt s f) = true /\
    PlotConfig.id (plotAt s f) = id /\
    forall i' s' f',
      fields st !! i' = Some f' ->
      PlotConfig.id (plotAt s' f') = id ->
      i' = i /\ s' = s.
Proof.
  intros Hr Hrun Hid.
  pose proof (Reachable_fieldsOk st Hr) as Hok.
  pose proof (wellFormed_logicPlotsOf _ Hok) as Hwf.
  destruct Hok as [Hnd Hall].
  destruct (solve_path_bounded_aux (logicPlotsOf (fields st)) params memo Hwf)
    as (r' & m' & E & _ & _ & Hbest & _).
  unfold runSolver in Hrun.
  destruct (Nat.ltb 0 (length (logicPlotsOf (fields st)))); [|discriminate].
  rewrite E in Hrun. injection Hrun as -> _.
  destruct (Hbest id Hid) as (p & Hp & ->).
  apply elem_of_logicPlotsOf in Hp as (f & s & Hf & Ha & ->).
  apply list_elem_of_lookup in Hf as [i Hi].
  destruct (proj1 (Forall_forall _ _) Hall f) as (_ & El & Er);
    [apply list_elem_of_lookup; eauto|].
  exists i, s, f. split; [exact Hi|]. split; [exact Ha|].
  split; [symmetry; now apply plotId_logicPlotOf|].
  intros i' s' f' Hi' Hid'.
  destruct (proj1 (Forall_forall _ _) Hall f') as (_ & El' & Er');
    [apply list_elem_of_lookup; eauto|].
  rewrite <- (plotId_logicPlotOf f' s' El' Er') in Hid'.
  apply plotId_eq_iff in Hid' as [Eid Es]. cbn in Eid, Es.
  split; [|congruence].
  eapply NoDup_lookup; [exact Hnd|..]; rewrite list_lookup_fmap.
  - rewrite Hi'. reflexivity.
  - rewrite Hi. cbn. congruence.
Qed.

Lemma fieldsIn_logicPlotsOf fs :
  fieldsIn (logicPlotsOf fs)
  = list_to_set (map FieldConfig.id (List.filter hasActivePlot fs)).
Proof.
  apply set_eq. intros x. rewrite elem_of_fieldsIn, elem_of_list_to_set.
  rewrite list_elem_of_In, in_map_iff. split.
  - intros (p & Hp & <-). apply elem_of_logicPlotsOf in Hp as (f & s & Hf & Ha & ->).
    exists f. split; [reflexivity|]. apply filter_In. split; [now apply list_elem_of_In|].
    unfold hasActivePlot. destruct s; cbn in Ha; rewrite Ha; [reflexivity|apply orb_true_r].
  - intros (f & <- & Hf). apply filter_In in Hf as [Hf Ha].
    unfold hasActivePlot in Ha. apply orb_true_iff in Ha.
    destruct Ha as [Ha|Ha]; [exists (logicPlotOf f left)|exists (logicPlotOf f right)];
      (split; [|reflexivity]); apply elem_of_logicPlotsOf;
      [exists f, left|exists f, right]; (split; [now apply list_elem_of_In|now split]).
Qed.

Lemma size_fieldsIn_logicPlotsOf fs :
  NoDup (map FieldConfig.id fs) ->
  size (fieldsIn (logicPlotsOf fs)) = length (List.filter hasActivePlot fs).
Proof.
  intros Hnd. rewrite fieldsIn_logicPlotsOf, size_list_to_set.
  - now rewrite length_map.
  - now apply NoDup_map_filter.
Qed.

(** X12: in a reachable state, the number of steps of the suggested path
    (the "remaining steps" the interface shows) never exceeds the number of
    fields that still have an active plot: the path counts at most one
    harvest per field, not one per plot. *)
Theorem runSolver_path_length (st : AppState) (params : GameParams)
    (memo : gmap string SolveResult) :
  Reachable st ->
  exists suggestion memo',
    runSolver st params memo = Some (suggestion, memo') /\
    forall r, suggestion = Some r ->
              length (path r) <= length (List.filter hasActivePlot (fields st)).
Proof.
  intros Hr.
  pose proof (Reachable_fieldsOk st Hr) as Hok.
  pose proof (wellFormed_logicPlotsOf _ Hok) as Hwf.
  destruct (solve_path_bounded_aux (logicPlotsOf (fields st)) params memo Hwf)
    as (r & memo' & E & Hlen & _).
  rewrite size_fieldsIn_logicPlotsOf in Hlen by apply Hok.
  unfold runSolver. destruct (logicPlotsOf (fields st)) as [|p plots].
  - exists None, ∅. split; [reflexivity|discriminate].
  - cbn [length Nat.ltb Nat.leb]. rewrite E. exists (Some r), memo'.
    split; [reflexivity|]. intros r' Er. now injection Er as <-.
Qed.

(** * The game follows the branches of the search *)

Local Open Scope list_scope.

Lemma logicPlotsOf_app l1 l2 :
  logicPlotsOf (l1 ++ l2) = logicPlotsOf l1 ++ logicPlotsOf l2.
Proof. unfold logicPlotsOf. now rewrite map_app, concat_app. Qed.

Lemma logicPlotsOf_cons f l :
  logicPlotsOf (f :: l) = logicPlotsOfField f ++ logicPlotsOf l.
Proof. reflexivity. Qed.

(** The list of plots, cut at the field of index [i]. *)
Lemma logicPlotsOf_split fs i f :
  fs !! i = Some f ->
  logicPlotsOf fs
  = logicPlotsOf (take i fs) ++ logicPlotsOfField f ++ logicPlotsOf (drop (S i) fs).
Proof.
  intros Hi. rewrite <- (take_drop_middle fs i f Hi) at 1.
  now rewrite logicPlotsOf_app, logicPlotsOf_cons.
Qed.

Lemma logicPlotsOf_insert fs i f f' :
  fs !! i = Some f ->
  logicPlotsOf (<[i := f']> fs)
  = logicPlotsOf (take i fs) ++ logicPlotsOfField f' ++ logicPlotsOf (drop (S i) fs).
Proof.
  intros Hi. rewrite insert_take_drop by (eapply lookup_lt_Some; eassumption).
  now rewrite logicPlotsOf_app, logicPlotsOf_cons.
Qed.

Lemma logicPlotsOfField_globalUpdate (currentPlot : LogicPlot) f :
  logicPlotsOfField
    {| FieldConfig.id := FieldConfig.id f;
       FieldConfig.left := globalUpdatePlot (color currentPlot) (FieldConfig.left f);
       FieldConfig.right := globalUpdatePlot (color currentPlot) (FieldConfig.right f) |}
  = map (grow currentPlot 1) (logicPlotsOfField f).
Proof.
  unfold logicPlotsOfField, logicPlotOf, globalUpdatePlot, grow. cbn.
  destruct (PlotConfig.active (FieldConfig.left f)) eqn:Al,
           (PlotConfig.active (FieldConfig.right f)) eqn:Ar; cbn;
    repeat match goal with
           | |- context [bool_decide ?P] => destruct (bool_decide P) eqn:?
           end; cbn; rewrite ?Al, ?Ar; reflexivity.
Qed.

(** The global update of the interface is the growth of branch A. *)
Lemma logicPlotsOf_applyGlobalUpdate (currentPlot : LogicPlot) fs skip :
  logicPlotsOf (applyGlobalUpdate fs (color currentPlot) skip)
  = map (grow currentPlot 1) (logicPlotsOf fs).
Proof.
  unfold applyGlobalUpdate. induction fs as [|f fs IH]; [reflexivity|].
  cbn [map]. rewrite !logicPlotsOf_cons, map_app, IH.
  now rewrite logicPlotsOfField_globalUpdate.
Qed.

Lemma other_fields_take fs i f :
  NoDup (map FieldConfig.id fs) -> fs !! i = Some f ->
  Forall (fun p => fieldId p <> FieldConfig.id f) (logicPlotsOf (take i fs)) /\
  Forall (fun p => fieldId p <> FieldConfig.id f) (logicPlotsOf (drop (S i) fs)).
Proof.
  intros Hnd Hi.
  assert (Hother : forall g j, fs !! j = Some g -> j <> i ->
                               FieldConfig.id g <> FieldConfig.id f).
  { intros g j Hj Hne E. apply Hne.
    eapply NoDup_lookup; [exact Hnd|..]; rewrite list_lookup_fmap.
    - rewrite Hj. reflexivity.
    - rewrite Hi. cbn. congruence. }
  split; apply Forall_forall; intros p Hp;
    apply elem_of_logicPlotsOf in Hp as (g & s & Hg & _ & ->); cbn;
    apply list_elem_of_lookup in Hg as [j Hj].
  - rewrite lookup_take_Some in Hj. destruct Hj as [Hj Hlt].
    apply (Hother g j Hj). lia.
  - rewrite lookup_drop in Hj. apply (Hother g _ Hj). lia.
Qed.

Lemma filter_all {A} (f : A -> bool) l :
  Forall (fun x => f x = true) l -> List.filter f l = l.
Proof. induction 1 as [|x l Hx _ IH]; cbn; [reflexivity|]. now rewrite Hx, IH. Qed.

Lemma filter_none {A} (f : A -> bool) l :
  Forall (fun x => f x = false) l -> List.filter f l = [].
Proof. induction 1 as [|x l Hx _ IH]; cbn; [reflexivity|]. now rewrite Hx. Qed.

Lemma find_app_none {A} (f : A -> bool) l1 l2 :
  Forall (fun x => f x = false) l1 -> List.find f (l1 ++ l2) = List.find f l2.
Proof. induction 1 as [|x l Hx _ IH]; cbn; [reflexivity|]. now rewrite Hx. Qed.

Lemma find_none_all {A} (f : A -> bool) l :
  Forall (fun x => f x = false) l -> List.find f l = None.
Proof. induction 1 as [|x l Hx _ IH]; cbn; [reflexivity|]. now rewrite Hx. Qed.

Lemma delete_NoDup_filter {A} `{EqDecision A} (l : list A) j x :
  NoDup l -> l !! j = Some x ->
  delete j l = List.filter (fun y => negb (bool_decide (y = x))) l.
Proof.
  revert j. induction l as [|y l IH]; intros j Hnd Hj; [discriminate|].
  apply NoDup_cons in Hnd as [Hnotin Hnd]. destruct j as [|j]; cbn in Hj |- *.
  - injection Hj as ->. rewrite bool_decide_eq_true_2 by reflexivity. cbn.
    symmetry. apply filter_all, Forall_forall. intros z Hz.
    apply negb_true_iff, bool_decide_eq_false. intros ->. contradiction.
  - assert (y <> x).
    { intros ->. apply Hnotin. apply list_elem_of_lookup. eauto. }
    rewrite bool_decide_eq_false_2 by assumption. cbn. f_equal. now apply IH.
Qed.

(** The other side of the field, as a list: the neighbor if it is
    active. *)
Lemma filter_harvested_field f s :
  PlotConfig.active (plotAt s f) = true ->
  List.filter (fun y => negb (bool_decide (y = logicPlotOf f s))) (logicPlotsOfField f)
  = if PlotConfig.active (plotAt (otherSide s) f)
    then [logicPlotOf f (otherSide s)] else [].
Proof.
  intros Ha. unfold logicPlotsOfField.
  destruct s; cbn in Ha |- *; rewrite Ha;
    [destruct (PlotConfig.active (FieldConfig.right f))
    |destruct (PlotConfig.active (FieldConfig.left f))]; cbn;
    repeat match goal with
           | |- context [bool_decide ?P] =>
               first [rewrite (bool_decide_eq_true_2 P) by reflexivity
                     |rewrite (bool_decide_eq_false_2 P) by discriminate]
           end; reflexivity.
Qed.

(** The plots other than the harvested one, in the order of the list:
    those of the fields before, the neighbor if it is active, those of the
    fields after. *)
Lemma otherPlots_logicPlotsOf fs i f s j :
  NoDup (map FieldConfig.id fs) -> fs !! i = Some f ->
  PlotConfig.active (plotAt s f) = true ->
  logicPlotsOf fs !! j = Some (logicPlotOf f s) ->
  otherPlots (logicPlotsOf fs) j
  = logicPlotsOf (take i fs)
    ++ (if PlotConfig.active (plotAt (otherSide s) f)
        then [logicPlotOf f (otherSide s)] else [])
    ++ logicPlotsOf (drop (S i) fs).
Proof.
  intros Hnd Hi Ha Hj. unfold otherPlots.
  rewrite (delete_NoDup_filter _ j (logicPlotOf f s)); [|
    apply (NoDup_fmap_1 identity); now apply NoDup_identity_logicPlotsOf|assumption].
  destruct (other_fields_take fs i f Hnd Hi) as [HT HD].
  rewrite (logicPlotsOf_split fs i f Hi), !List.filter_app.
  rewrite (filter_harvested_field f s Ha). f_equal; [|f_equal];
    apply filter_all; (eapply Forall_impl; [eassumption|]); cbn;
    intros p Hp; apply negb_true_iff, bool_decide_eq_false; intros ->; now apply Hp.
Qed.

Lemma logicPlotOf_lookup fs i f s :
  fs !! i = Some f -> PlotConfig.active (plotAt s f) = true ->
  exists j, logicPlotsOf fs !! j = Some (logicPlotOf f s).
Proof.
  intros Hi Ha. apply list_elem_of_lookup, elem_of_logicPlotsOf.
  exists f, s. split; [apply list_elem_of_lookup; eauto|now split].
Qed.

Lemma logicPlotOf_lookup_unique fs j j' p :
  NoDup (map FieldConfig.id fs) ->
  logicPlotsOf fs !! j = Some p -> logicPlotsOf fs !! j' = Some p -> j = j'.
Proof.
  intros Hnd. apply NoDup_lookup, (NoDup_fmap_1 identity).
  now apply NoDup_identity_logicPlotsOf.
Qed.

(** The neighbor and the reduced lists that the search sees for the plot
    of side [s] of the field of index [i]. *)
Lemma branches_logicPlotsOf fs i f s j :
  NoDup (map FieldConfig.id fs) -> fs !! i = Some f ->
  PlotConfig.active (plotAt s f) = true ->
  logicPlotsOf fs !! j = Some (logicPlotOf f s) ->
  neighbor (logicPlotsOf fs) j (logicPlotOf f s)
  = (if PlotConfig.active (plotAt (otherSide s) f)
     then Some (logicPlotOf f (otherSide s)) else None) /\
  nextPlotsA (logicPlotsOf fs) j (logicPlotOf f s)
  = map (grow (logicPlotOf f s) 1)
        (logicPlotsOf (take i fs) ++ logicPlotsOf (drop (S i) fs)).
Proof.
  intros Hnd Hi Ha Hj.
  destruct (other_fields_take fs i f Hnd Hi) as [HT HD].
  assert (HT' : Forall (fun p => bool_decide (fieldId p = FieldConfig.id f) = false)
                       (logicPlotsOf (take i fs))).
  { eapply Forall_impl; [exact HT|]. intros p Hp. now apply bool_decide_eq_false. }
  assert (HD' : Forall (fun p => bool_decide (fieldId p = FieldConfig.id f) = false)
                       (logicPlotsOf (drop (S i) fs))).
  { eapply Forall_impl; [exact HD|]. intros p Hp. now apply bool_decide_eq_false. }
  unfold neighbor, nextPlotsA, nonNeighbors.
  rewrite (otherPlots_logicPlotsOf fs i f s j) by assumption.
  cbn [fieldId logicPlotOf]. split.
  - rewrite find_app_none by exact HT'.
    destruct (PlotConfig.active (plotAt (otherSide s) f)); cbn.
    + now rewrite bool_decide_eq_true_2 by reflexivity.
    + now apply find_none_all.
  - f_equal. rewrite !List.filter_app. f_equal; [|].
    + apply filter_all. eapply Forall_impl; [exact HT'|]. cbn. now intros p ->.
    + rewrite (filter_all _ (logicPlotsOf (drop (S i) fs)))
        by (eapply Forall_impl; [exact HD'|]; cbn; now intros p ->).
      destruct (PlotConfig.active (plotAt (otherSide s) f)); cbn; [|reflexivity].
      now rewrite bool_decide_eq_true_2 by reflexivity.
Qed.

Lemma plotAt_withPlot_same s p f : plotAt s (withPlot s p f) = p.
Proof. now destruct s. Qed.

Lemma plotAt_withPlot_other s p f :
  plotAt (otherSide s) (withPlot s p f) = plotAt (otherSide s) f.
Proof. now destruct s. Qed.

Lemma withPlot_withPlot_other s p q f :
  logicPlotsOfField (withPlot (otherSide s) q (withPlot s p f))
  = logicPlotsOfField (withPlot s p (withPlot (otherSide s) q f)).
Proof. now destruct s. Qed.

(** A field whose plot of side [s] has been harvested shows the solver the
    other plot only, if that one is active. *)
Lemma logicPlotsOfField_harvested s p f :
  PlotConfig.active p = false ->
  logicPlotsOfField (withPlot s p f)
  = if PlotConfig.active (plotAt (otherSide s) f)
    then [logicPlotOf f (otherSide s)] else [].
Proof.
  intros Hp. unfold logicPlotsOfField.
  destruct s; cbn; rewrite Hp;
    [destruct (PlotConfig.active (FieldConfig.right f))
    |destruct (PlotConfig.active (FieldConfig.left f))]; reflexivity.
Qed.

(** [handleHarvestClick] on a plot whose neighbor is not active. *)
Lemma harvest_alone_aux st i s f j :
  NoDup (map FieldConfig.id (fields st)) ->
  fields st !! i = Some f ->
  PlotConfig.active (plotAt s f) = true ->
  PlotConfig.active (plotAt (otherSide s) f) = false ->
  logicPlotsOf (fields st) !! j = Some (logicPlotOf f s) ->
  neighbor (logicPlotsOf (fields st)) j (logicPlotOf f s) = None /\
  exists st',
    handleHarvestClick st i s = Some st' /\
    neighborCheck st' = neighborCheck st /\
    logicPlotsOf (fields st')
    = nextPlotsA (logicPlotsOf (fields st)) j (logicPlotOf f s).
Proof.
  intros Hnd Hi Ha Ho Hj.
  destruct (branches_logicPlotsOf (fields st) i f s j Hnd Hi Ha Hj) as [Hnb HA].
  rewrite Ho in Hnb. split; [exact Hnb|].
  unfold handleHarvestClick. rewrite Hi. cbn zeta. rewrite Ho.
  eexists. split; [reflexivity|]. split; [reflexivity|]. cbn [fields].
  change (PlotConfig.color (plotAt s f)) with (color (logicPlotOf f s)).
  rewrite logicPlotsOf_applyGlobalUpdate, HA. f_equal.
  rewrite (logicPlotsOf_insert _ i f _ Hi).
  rewrite logicPlotsOfField_harvested by reflexivity. now rewrite Ho.
Qed.

(** [handleHarvestClick] on a plot whose neighbor is active, and then
    [handleNeighborResult] with either answer. *)
Lemma harvest_neighbor_aux st i s f j :
  NoDup (map FieldConfig.id (fields st)) ->
  fields st !! i = Some f ->
  PlotConfig.active (plotAt s f) = true ->
  PlotConfig.active (plotAt (otherSide s) f) = true ->
  logicPlotsOf (fields st) !! j = Some (logicPlotOf f s) ->
  neighbor (logicPlotsOf (fields st)) j (logicPlotOf f s)
  = Some (logicPlotOf f (otherSide s)) /\
  exists st1 stA stB,
    handleHarvestClick st i s = Some st1 /\
    neighborCheck st1
    = Some {| targetFieldIdx := i; neighborSide := otherSide s;
              harvestedColor := PlotConfig.color (plotAt s f) |} /\
    handleNeighborResult st1 false = Some stA /\
    neighborCheck stA = None /\
    logicPlotsOf (fields stA)
    = nextPlotsA (logicPlotsOf (fields st)) j (logicPlotOf f s) /\
    handleNeighborResult st1 true = Some stB /\
    neighborCheck stB = None /\
    logicPlotsOf (fields stB)
    ≡ₚ nextPlotsB (logicPlotsOf (fields st)) j (logicPlotOf f s)
         (logicPlotOf f (otherSide s)).
Proof.
  intros Hnd Hi Ha Ho Hj.
  destruct (branches_logicPlotsOf (fields st) i f s j Hnd Hi Ha Hj) as [Hnb HA].
  rewrite Ho in Hnb. split; [exact Hnb|].
  assert (Hlt : i < length (fields st)) by (eapply lookup_lt_Some; eassumption).
  unfold handleHarvestClick. rewrite Hi. cbn zeta. rewrite Ho.
  do 3 eexists.
  split; [reflexivity|]. split; [reflexivity|].
  unfold handleNeighborResult.
  cbn [neighborCheck fields targetFieldIdx neighborSide harvestedColor fieldCount].
  rewrite list_lookup_insert_eq by exact Hlt. cbn zeta.
  rewrite plotAt_withPlot_other, !list_insert_insert_eq.
  split; [reflexivity|]. split; [reflexivity|].
  split; [|split; [reflexivity|split; [reflexivity|]]]; cbn [fields];
    change (PlotConfig.color (plotAt s f)) with (color (logicPlotOf f s));
    rewrite logicPlotsOf_applyGlobalUpdate, (logicPlotsOf_insert _ i f _ Hi).
  - rewrite HA. f_equal.
    rewrite withPlot_withPlot_other, logicPlotsOfField_harvested by reflexivity.
    now rewrite plotAt_withPlot_same.
  - unfold nextPlotsB. fold (nextPlotsA (logicPlotsOf (fields st)) j (logicPlotOf f s)).
    rewrite HA, !map_app.
    rewrite withPlot_withPlot_other, logicPlotsOfField_harvested by reflexivity.
    rewrite plotAt_withPlot_same.
    replace (PlotConfig.active
               (if bool_decide (PlotConfig.color (plotAt (otherSide s) f)
                                <> color (logicPlotOf f s))
                then addLevel (plotAt (otherSide s) f)
                else plotAt (otherSide s) f)) with true
      by (destruct (bool_decide _); cbn; now rewrite ?Ho).
    cbn [map app]. rewrite <- Permutation_middle.
    apply Permutation_cons; [|reflexivity].
    unfold grow, logicPlotOf. rewrite !plotAt_withPlot_same.
    cbn [fieldId side color k].
    destruct s; cbn; repeat case_bool_decide; cbn; try contradiction;
      f_equal; lia.
Qed.

(** X13: harvesting a plot whose neighbor is not active.  The solver sees no
    neighbor for that plot, [handleHarvestClick] asks no question, and the
    active plots of the fields it stores are, in the same order, the list of
    branch A that [solve] explores for that plot. *)
Theorem harvest_without_neighbor_follows_branch_A (st : AppState) (i : nat) (s : Side)
    (f : FieldConfig.t) :
  NoDup (map FieldConfig.id (fields st)) ->
  fields st !! i = Some f ->
  PlotConfig.active (plotAt s f) = true ->
  PlotConfig.active (plotAt (otherSide s) f) = false ->
  exists j st',
    logicPlotsOf (fields st) !! j = Some (logicPlotOf f s) /\
    neighbor (logicPlotsOf (fields st)) j (logicPlotOf f s) = None /\
    handleHarvestClick st i s = Some st' /\
    neighborCheck st' = neighborCheck st /\
    logicPlotsOf (fields st')
    = nextPlotsA (logicPlotsOf (fields st)) j (logicPlotOf f s).
Proof.
  intros Hnd Hi Ha Ho.
  destruct (logicPlotOf_lookup (fields st) i f s Hi Ha) as [j Hj].
  destruct (harvest_alone_aux st i s f j Hnd Hi Ha Ho Hj) as (Hnb & st' & H1 & H2 & H3).
  exists j, st'. auto.
Qed.

(** X14: harvesting a plot whose neighbor is active.  The solver finds that
    neighbor, [handleHarvestClick] stores the question, and the two answers
    lead to the two branches of the search: after "withered" the active
    plots of the fields are the list of branch A, after "survived" they are
    the list of branch B up to the order of the plots (the neighbor, two
    levels up when its color differs, stays at its place instead of coming
    first). *)
Theorem harvest_with_neighbor_follows_both_branches (st : AppState) (i : nat) (s : Side)
    (f : FieldConfig.t) :
  NoDup (map FieldConfig.id (fields st)) ->
  fields st !! i = Some f ->
  PlotConfig.active (plotAt s f) = true ->
  PlotConfig.active (plotAt (otherSide s) f) = true ->
  exists j st1 stA stB,
    logicPlotsOf (fields st) !! j = Some (logicPlotOf f s) /\
    neighbor (logicPlotsOf (fields st)) j (logicPlotOf f s)
    = Some (logicPlotOf f (otherSide s)) /\
    handleHarvestClick st i s = Some st1 /\
    neighborCheck st1
    = Some {| targetFieldIdx := i; neighborSide := otherSide s;
              harvestedColor := PlotConfig.color (plotAt s f) |} /\
    handleNeighborResult st1 false = Some stA /\
    neighborCheck stA = None /\
    logicPlotsOf (fields stA)
    = nextPlotsA (logicPlotsOf (fields st)) j (logicPlotOf f s) /\
    handleNeighborResult st1 true = Some stB /\
    neighborCheck stB = None /\
    logicPlotsOf (fields stB)
    ≡ₚ nextPlotsB (logicPlotsOf (fields st)) j (logicPlotOf f s)
         (logicPlotOf f (otherSide s)).
Proof.
  intros Hnd Hi Ha Ho.
  destruct (logicPlotOf_lookup (fields st) i f s Hi Ha) as [j Hj].
  destruct (harvest_neighbor_aux st i s f j Hnd Hi Ha Ho Hj)
    as (Hnb & st1 & stA & stB & H).
  exists j, st1, stA, stB. auto.
Qed.

Lemma moveTotal_le_stateValue params plots j currentPlot :
  plots !! j = Some currentPlot ->
  (moveTotal (stateValue params) plots params j currentPlot
   <= stateValue params plots)%Qc.
Proof.
  intros Hj. rewrite (stateValue_unfold params plots)
    by (intros ->; discriminate).
  apply runningMax_ge, list_elem_of_lookup. exists j.
  rewrite moveTotals_lookup, Hj. reflexivity.
Qed.

(** X15: the value of a state is at least the value of harvesting any plot
    that stands alone.  In a reachable state, for an active plot whose
    neighbor is not active, the gain of the harvest plus the value [solve]
    gives to the state the game is in afterwards does not exceed the value
    [solve] gives to the present state. *)
Theorem solvedValue_bounds_lone_harvest (st st' : AppState) (params : GameParams)
    (i : nat) (s : Side) (f : FieldConfig.t) :
  Reachable st ->
  fields st !! i = Some f ->
  PlotConfig.active (plotAt s f) = true ->
  PlotConfig.active (plotAt (otherSide s) f) = false ->
  handleHarvestClick st i s = Some st' ->
  (immediateGain (logicPlotOf f s) params
   + solvedValue params (logicPlotsOf (fields st'))
   <= solvedValue params (logicPlotsOf (fields st)))%Qc.
Proof.
  intros Hr Hi Ha Ho Hh.
  pose proof (Reachable_fieldsOk st Hr) as Hok.
  pose proof (Reachable_fieldsOk st' (reach_harvest _ _ _ _ Hr Hh)) as Hok'.
  destruct (logicPlotOf_lookup (fields st) i f s Hi Ha) as [j Hj].
  destruct (harvest_alone_aux st i s f j (proj1 Hok) Hi Ha Ho Hj)
    as (Hnb & st'' & H1 & _ & H3).
  assert (st'' = st') by congruence. subst st''.
  rewrite !solvedValue_stateValue by now apply wellFormed_logicPlotsOf.
  pose proof (moveTotal_le_stateValue params _ j _ Hj) as Hle.
  unfold moveTotal in Hle. rewrite Hnb, <- H3 in Hle. exact Hle.
Qed.

(** X16: the value of a state is at least the expected value of harvesting
    any plot that has an active neighbor.  In a reachable state, the gain of
    the harvest, plus the value [solve] gives to the state of the game after
    the answer "withered" weighted by [1 - probSurvival], plus the value it
    gives to the state after the answer "survived" weighted by
    [probSurvival], does not exceed the value [solve] gives to the present
    state. *)
Theorem solvedValue_bounds_paired_harvest (st st1 stA stB : AppState)
    (params : GameParams) (i : nat) (s : Side) (f : FieldConfig.t) :
  Reachable st ->
  fields st !! i = Some f ->
  PlotConfig.active (plotAt s f) = true ->
  PlotConfig.active (plotAt (otherSide s) f) = true ->
  handleHarvestClick st i s = Some st1 ->
  handleNeighborResult st1 false = Some stA ->
  handleNeighborResult st1 true = Some stB ->
  (immediateGain (logicPlotOf f s) params
   + (1 - probSurvival params) * solvedValue params (logicPlotsOf (fields stA))
   + probSurvival params * solvedValue params (logicPlotsOf (fields stB))
   <= solvedValue params (logicPlotsOf (fields st)))%Qc.
Proof.
  intros Hr Hi Ha Ho Hh HA HB.
  pose proof (Reachable_fieldsOk st Hr) as Hok.
  pose proof (reach_harvest _ _ _ _ Hr Hh) as Hr1.
  pose proof (Reachable_fieldsOk stA (reach_neighbor _ _ _ Hr1 HA)) as HokA.
  pose proof (Reachable_fieldsOk stB (reach_neighbor _ _ _ Hr1 HB)) as HokB.
  destruct (logicPlotOf_lookup (fields st) i f s Hi Ha) as [j Hj].
  destruct (harvest_neighbor_aux st i s f j (proj1 Hok) Hi Ha Ho Hj)
    as (Hnb & st1' & stA' & stB' & H1 & _ & H2 & _ & H3 & H4 & _ & H5).
  assert (st1' = st1) by congruence. subst st1'.
  assert (stA' = stA) by congruence. subst stA'.
  assert (stB' = stB) by congruence. subst stB'.
  rewrite !solvedValue_stateValue by now apply wellFormed_logicPlotsOf.
  pose proof (moveTotal_le_stateValue params _ j _ Hj) as Hle.
  unfold moveTotal in Hle. rewrite Hnb, <- H3 in Hle.
  rewrite (stateValue_Permutation params _ _
             (proj2 (wellFormed_logicPlotsOf _ HokB)) H5).
  exact Hle.
Qed.

(** * What the handlers of the game never do *)

Lemma plotAdvances_refl n p : plotAdvances n p p.
Proof. unfold plotAdvances. repeat split; auto; lia. Qed.

Lemma fieldAdvances_refl n f : fieldAdvances n f f.
Proof. unfold fieldAdvances. auto using plotAdvances_refl. Qed.

Lemma plotAdvances_trans a b p q r :
  plotAdvances a p q -> plotAdvances b q r -> plotAdvances (a + b) p r.
Proof.
  unfold plotAdvances. intros (I1 & C1 & A1 & L1 & U1) (I2 & C2 & A2 & L2 & U2).
  repeat split; [congruence|congruence|auto|lia|lia].
Qed.

Lemma fieldAdvances_trans a b f g h :
  fieldAdvances a f g -> fieldAdvances b g h -> fieldAdvances (a + b) f h.
Proof.
  unfold fieldAdvances. intros (I1 & L1 & R1) (I2 & L2 & R2).
  repeat split; [congruence|eapply plotAdvances_trans; eassumption..].
Qed.

Lemma plotAdvances_deactivate p : plotAdvances 0 p (deactivate p).
Proof. unfold plotAdvances. cbn. repeat split; auto; try lia; try discriminate. Qed.

Lemma plotAdvances_addLevel p : plotAdvances 1 p (addLevel p).
Proof. unfold plotAdvances. cbn. repeat split; auto; lia. Qed.

Lemma plotAdvances_weaken a b p q : a <= b -> plotAdvances a p q -> plotAdvances b p q.
Proof. unfold plotAdvances. intros Hab (I & C & A & L & U). repeat split; auto; lia. Qed.

Lemma plotAdvances_globalUpdatePlot c p : plotAdvances 1 p (globalUpdatePlot c p).
Proof.
  unfold globalUpdatePlot.
  destruct (PlotConfig.active p && bool_decide (PlotConfig.color p <> c));
    [apply plotAdvances_addLevel|apply plotAdvances_refl].
Qed.

Lemma fieldAdvances_withPlot n s p f :
  plotAdvances n (plotAt s f) p -> fieldAdvances n f (withPlot s p f).
Proof.
  unfold fieldAdvances. destruct s; cbn; intros H;
    (split; [reflexivity|split]); first [exact H|apply plotAdvances_refl].
Qed.

Lemma fieldAdvances_insert n fs i f f' :
  fs !! i = Some f -> fieldAdvances n f f' ->
  Forall2 (fieldAdvances n) fs (<[i := f']> fs).
Proof.
  intros Hi Hf. rewrite <- (list_insert_id fs i f Hi) at 1.
  apply Forall2_insert; [|exact Hf].
  apply Forall2_same_length_lookup. split; [reflexivity|].
  intros j x y Hx Hy. assert (x = y) by congruence. subst. apply fieldAdvances_refl.
Qed.

Lemma fieldAdvances_applyGlobalUpdate fs c z :
  Forall2 (fieldAdvances 1) fs (applyGlobalUpdate fs c z).
Proof.
  unfold applyGlobalUpdate. induction fs as [|f fs IH]; cbn; constructor; [|exact IH].
  unfold fieldAdvances. cbn. auto using plotAdvances_globalUpdatePlot.
Qed.

Lemma Forall2_fieldAdvances_trans a b l1 l2 l3 :
  Forall2 (fieldAdvances a) l1 l2 -> Forall2 (fieldAdvances b) l2 l3 ->
  Forall2 (fieldAdvances (a + b)) l1 l3.
Proof. apply Forall2_trans. intros x y z. apply fieldAdvances_trans. Qed.

Lemma Forall2_fieldAdvances_weaken a b l1 l2 :
  a <= b -> Forall2 (fieldAdvances a) l1 l2 -> Forall2 (fieldAdvances b) l1 l2.
Proof.
  intros Hab H. eapply Forall2_impl; [exact H|]. intros f g (I & L & R).
  split; [exact I|split]; eapply plotAdvances_weaken; eassumption.
Qed.

(** X17: what a step of the game never does.  [handleHarvestClick] and
    [handleNeighborResult], whenever they return, keep the number of fields
    and the field count, the identifier of every field and of every plot, and
    the color of every plot; they never make a plot active again; and the
    level of a plot never decreases and gains at most 2 in one step. *)
Theorem harvest_handlers_only_advance (st st' : AppState) :
  (exists i s, handleHarvestClick st i s = Some st') \/
  (exists survived, handleNeighborResult st survived = Some st') ->
  fieldCount st' = fieldCount st /\
  length (fields st') = length (fields st) /\
  Forall2 (fieldAdvances 2) (fields st) (fields st').
Proof.
  intros H.
  assert (Hall : fieldCount st' = fieldCount st /\
                 Forall2 (fieldAdvances 2) (fields st) (fields st')).
  { destruct H as [(i & s & E)|(b & E)].
    - unfold handleHarvestClick in E.
      destruct (fields st !! i) as [f|] eqn:Hi; [|discriminate]. cbn zeta in E.
      pose proof (fieldAdvances_insert 0 _ i f _ Hi
                    (fieldAdvances_withPlot 0 s _ f
                       (plotAdvances_deactivate (plotAt s f)))) as Hins.
      destruct (PlotConfig.active (plotAt (otherSide s) f));
        injection E as <-; cbn; (split; [reflexivity|]).
      + now apply (Forall2_fieldAdvances_weaken 0 2); [lia|].
      + apply (Forall2_fieldAdvances_weaken (0 + 1) 2); [lia|].
        eapply Forall2_fieldAdvances_trans;
          [exact Hins|apply fieldAdvances_applyGlobalUpdate].
    - unfold handleNeighborResult in E.
      destruct (neighborCheck st) as [nc|].
      2:{ injection E as <-. split; [reflexivity|].
          apply Forall2_same_length_lookup. split; [reflexivity|].
          intros j x y Hx Hy. assert (x = y) by congruence. subst.
          apply fieldAdvances_refl. }
      destruct (fields st !! targetFieldIdx nc) as [f|] eqn:Hi; [|discriminate].
      cbn zeta in E. injection E as <-. cbn. split; [reflexivity|].
      eapply (Forall2_fieldAdvances_trans 1 1);
        [|apply fieldAdvances_applyGlobalUpdate].
      apply (fieldAdvances_insert 1 _ _ f _ Hi), fieldAdvances_withPlot.
      destruct b; [destruct (bool_decide _)|].
      + apply plotAdvances_addLevel.
      + apply plotAdvances_refl.
      + apply (plotAdvances_weaken 0 1); [lia|apply plotAdvances_deactivate]. }
  destruct Hall as [Hc Hf]. split; [exact Hc|]. split; [|exact Hf].
  symmetry. eapply Forall2_length, Hf.
Qed.

(** * The cache between calls, and the order of the plots *)

Lemma wellFormed_Permutation plots plots' :
  plots ≡ₚ plots' -> wellFormed plots -> wellFormed plots'.
Proof.
  intros Hp [Hall Hnd]. split.
  - now rewrite <- Hp.
  - now rewrite <- Hp.
Qed.

(** X18: the entries a call leaves in the cache do not change what a later
    call with the same parameters returns.  After a call on a well-formed
    list from a cleared cache, a call on any well-formed list, started from
    the cache that the first call left, returns the [maxEV] it returns from a
    cleared cache. *)
Theorem solve_reuses_cache_soundly (plots1 plots2 : list LogicPlot)
    (params : GameParams) (memo0 : gmap string SolveResult) :
  wellFormed plots1 -> wellFormed plots2 ->
  exists r1 memo1 r2 memo2,
    solve plots1 params (clearMemo memo0) = Some (r1, memo1) /\
    solve plots2 params memo1 = Some (r2, memo2) /\
    maxEV r2 = solvedValue params plots2.
Proof.
  intros Hwf1 Hwf2.
  destruct (solve_sound params plots1 ∅ Hwf1 (validCache_empty params))
    as (r1 & memo1 & E1 & _ & Hv1).
  destruct (solve_sound params plots2 memo1 Hwf2 Hv1) as (r2 & memo2 & E2 & Hr2 & _).
  exists r1, memo1, r2, memo2. split; [exact E1|]. split; [exact E2|].
  now rewrite solvedValue_stateValue.
Qed.

(** X19: the [maxEV] that [solve] returns from a cleared cache does not
    depend on the order of the plots in a well-formed list. *)
Theorem solvedValue_Permutation (plots plots' : list LogicPlot) (params : GameParams) :
  wellFormed plots -> plots ≡ₚ plots' ->
  solvedValue params plots = solvedValue params plots'.
Proof.
  intros Hwf Hp.
  rewrite !solvedValue_stateValue
    by (assumption || now apply (wellFormed_Permutation plots)).
  apply stateValue_Permutation; [apply Hwf|exact Hp].
Qed.

(** * The recommended move attains the value *)

Lemma solve_best_move_optimal params plots :
  wellFormed plots ->
  exists r memo',
    solve plots params ∅ = Some (r, memo') /\
    maxEV r = stateValue params plots /\
    forall id, bestMoveId r = Some id ->
      exists i currentPlot,
        plots !! i = Some currentPlot /\ id = plotId currentPlot /\
        maxEV r = moveTotal (stateValue params) plots params i currentPlot.
Proof.
  intros Hwf. destruct plots as [|p plots].
  { exists emptyResult, ∅. rewrite solve_nil. repeat split. discriminate. }
  destruct (solve_miss (p :: plots) params ∅) as (moves & memo' & Hm & E);
    [discriminate|apply lookup_empty|].
  destruct (moves_sound params (p :: plots)) with
    (i := 0) (rest := p :: plots) (memo := (∅ : gmap string SolveResult))
    (moves := moves) (memo' := memo')
    as [Emoves _]; try assumption; try reflexivity.
  { intros l m _ Hwfl Hvl. now apply solve_sound. }
  { apply validCache_empty. }
  eexists _, _. split; [exact E|]. split.
  { rewrite maxEV_bestOf by now apply (MovesEvaluated_length _ _ _ _ _ _ _ _ Hm).
    rewrite Emoves, stateValue_unfold by discriminate. reflexivity. }
  intros id Hid.
  destruct (bestOf_cases (p :: plots) moves initialBest)
    as [Eb|(i & cur & total & resA & Hi & Hmi & _ & Eb)]; rewrite Eb in Hid |- *.
  { cbn in Hid. discriminate Hid. }
  cbn in Hid. injection Hid as <-. exists i, cur.
  split; [exact Hi|]. split; [reflexivity|]. cbn [maxEV].
  assert (Hl : moves.*1 !! i = Some total).
  { rewrite list_lookup_fmap, Hmi. reflexivity. }
  rewrite Emoves, moveTotals_lookup, Hi in Hl. cbn in Hl. congruence.
Qed.

(** X20: the plot the interface highlights is a best harvest.  In a
    reachable state, when [runSolver] sets a suggestion with a [bestMoveId],
    that identifier is the identifier of an active plot of the fields, and
    harvesting that plot attains the suggested [maxEV]: when its neighbor is
    active, [maxEV] is the gain of the harvest plus the values [solve] gives
    to the states of the game after the answers "withered" and "survived",
    weighted by [1 - probSurvival] and [probSurvival]; when it stands alone,
    [maxEV] is the gain plus the value of the state after the harvest. *)
Theorem highlighted_harvest_attains_maxEV (st : AppState) (params : GameParams)
    (memo memo' : gmap string SolveResult) (r : SolveResult) (id : string) :
  Reachable st ->
  runSolver st params memo = Some (Some r, memo') ->
  bestMoveId r = Some id ->
  exists i s f st1,
    fields st !! i = Some f /\
    PlotConfig.active (plotAt s f) = true /\
    id = PlotConfig.id (plotAt s f) /\
    handleHarvestClick st i s = Some st1 /\
    if PlotConfig.active (plotAt (otherSide s) f) then
      exists stA stB,
        handleNeighborResult st1 false = Some stA /\
        handleNeighborResult st1 true = Some stB /\
        maxEV r
        = (immediateGain (logicPlotOf f s) params
           + (1 - probSurvival params) * solvedValue params (logicPlotsOf (fields stA))
           + probSurvival params * solvedValue params (logicPlotsOf (fields stB)))%Qc
    else
      maxEV r
      = (immediateGain (logicPlotOf f s) params
         + solvedValue params (logicPlotsOf (fields st1)))%Qc.
Proof.
  intros Hr Hrun Hid.
  pose proof (Reachable_fieldsOk st Hr) as Hok.
  pose proof (wellFormed_logicPlotsOf _ Hok) as Hwf.
  destruct (solve_best_move_optimal params _ Hwf) as (r' & m' & E & _ & Hbest).
  unfold runSolver, clearMemo in Hrun.
  destruct (Nat.ltb 0 (length (logicPlotsOf (fields st)))); [|discriminate].
  rewrite E in Hrun. injection Hrun as -> _.
  destruct (Hbest id Hid) as (j & cur & Hj & -> & Hval).
  assert (Hcur : cur ∈ logicPlotsOf (fields st)) by (apply list_elem_of_lookup; eauto).
  apply elem_of_logicPlotsOf in Hcur as (f & s & Hf & Ha & ->).
  apply list_elem_of_lookup in Hf as [i Hi].
  destruct (proj1 (Forall_forall _ _) (proj2 Hok) f) as (_ & El & Er);
    [apply list_elem_of_lookup; eauto|].
  unfold moveTotal in Hval.
  destruct (PlotConfig.active (plotAt (otherSide s) f)) eqn:Ho.
  - destruct (harvest_neighbor_aux st i s f j (proj1 Hok) Hi Ha Ho Hj)
      as (Hnb & st1 & stA & stB & H1 & _ & H2 & _ & H3 & H4 & _ & H5).
    pose proof (reach_harvest _ _ _ _ Hr H1) as Hr1.
    pose proof (Reachable_fieldsOk stA (reach_neighbor _ _ _ Hr1 H2)) as HokA.
    pose proof (Reachable_fieldsOk stB (reach_neighbor _ _ _ Hr1 H4)) as HokB.
    exists i, s, f, st1. split; [exact Hi|]. split; [exact Ha|].
    split; [now apply plotId_logicPlotOf|]. split; [exact H1|].
    rewrite Ho. exists stA, stB. split; [exact H2|]. split; [exact H4|].
    rewrite !solvedValue_stateValue by now apply wellFormed_logicPlotsOf.
    rewrite Hnb, <- H3 in Hval.
    rewrite (stateValue_Permutation params _ _
               (proj2 (wellFormed_logicPlotsOf _ HokB)) H5).
    exact Hval.
  - destruct (harvest_alone_aux st i s f j (proj1 Hok) Hi Ha Ho Hj)
      as (Hnb & st1 & H1 & _ & H3).
    pose proof (Reachable_fieldsOk st1 (reach_harvest _ _ _ _ Hr H1)) as Hok1.
    exists i, s, f, st1. split; [exact Hi|]. split; [exact Ha|].
    split; [now apply plotId_logicPlotOf|]. split; [exact H1|]. rewrite Ho.
    rewrite solvedValue_stateValue by now apply wellFormed_logicPlotsOf.
    rewrite Hnb, <- H3 in Hval. exact Hval.
Qed.

End Solver.

Local Close Scope Qc_scope.

(** * The code-unit collation *)

Lemma codeUnitCompare_le a b :
  (codeUnitCompare a b <= 0)%Z <-> String.compare a b <> Gt.
Proof. unfold codeUnitCompare. destruct (String.compare a b); split; (lia || congruence). Qed.

Lemma codeUnitCompare_consistent : ConsistentComparison codeUnitCompare.
Proof.
  split.
  - intros a b. unfold codeUnitCompare. rewrite (String.compare_antisym b a).
    now destruct (String.compare a b).
  - intros a b c. rewrite !codeUnitCompare_le. intros Hab Hbc.
    destruct (String.compare a b) eqn:Eab; [| |congruence].
    + apply String.compare_eq_iff in Eab. now subst.
    + destruct (String.compare b c) eqn:Ebc; [| |congruence].
      * apply String.compare_eq_iff in Ebc. subst. congruence.
      * apply String_as_OT.cmp_lt in Eab, Ebc.
        pose proof (String_as_OT.lt_trans _ _ _ Eab Ebc) as Hac.
        apply String_as_OT.cmp_lt in Hac. unfold String_as_OT.cmp in Hac. congruence.
Qed.

Lemma codeUnitCompare_eq a b : codeUnitCompare a b = 0%Z -> a = b.
Proof.
  unfold codeUnitCompare.
  destruct (String.compare a b) eqn:E; try discriminate.
  intros _. now apply String.compare_eq_iff.
Qed.

Lemma lengthCompare_consistent : ConsistentComparison lengthCompare.
Proof. split; unfold lengthCompare; intros; lia. Qed.

(** With a consistent comparison that ties on two different field
    identifiers, a list without two plots on one field and side changes its
    key under a permutation: the condition of C5 as amended asks for more
    than distinct fields and sides. *)
Lemma generateKey_tie_changes_key :
  (NoDup (map identity plainPlots)) /\
  (plainPlots ≡ₚ rev plainPlots) /\
  (generateKey lengthCompare plainPlots <> generateKey lengthCompare (rev plainPlots)).
Proof.
  split; [|split; [apply Permutation_rev|vm_compute; discriminate]].
  apply (bool_decide_unpack (NoDup (map identity plainPlots))). vm_compute. exact I.
Qed.

(** * The theorems at sample inputs *)





Lemma generateKey_distinguishes_witness :
  Forall (fun p => delimiterFree (fieldId p)) samplePlots /\
  Forall (fun p => delimiterFree (fieldId p)) scenarioPlots /\
  ~ samplePlots ≡ₚ scenarioPlots /\
  generateKey codeUnitCompare samplePlots <> generateKey codeUnitCompare scenarioPlots.
Proof.
  assert (H1 : Forall (fun p => delimiterFree (fieldId p)) samplePlots)
    by (repeat constructor).
  assert (H2 : Forall (fun p => delimiterFree (fieldId p)) scenarioPlots)
    by (repeat constructor).
  assert (H3 : ~ samplePlots ≡ₚ scenarioPlots)
    by (intros H; apply Permutation_length in H; discriminate H).
  exact (conj H1 (conj H2 (conj H3
    (generateKey_distinguishes codeUnitCompare samplePlots scenarioPlots H1 H2 H3)))).
Defined.

(** C3 fails as stated: a field identifier may hold the delimiters, and
    then two lists that differ as multisets have the same key. *)
Lemma generateKey_collision :
  ~ plainPlots ≡ₚ craftedPlots /\
  generateKey codeUnitCompare plainPlots = generateKey codeUnitCompare craftedPlots.
Proof.
  split; [|reflexivity].
  intros H. apply Permutation_length in H. discriminate H.
Qed.

Lemma generateKey_permutation_invariant_witness :
  ConsistentComparison codeUnitCompare /\
  tieFree codeUnitCompare samplePlots /\
  samplePlots ≡ₚ rev samplePlots /\
  generateKey codeUnitCompare samplePlots = generateKey codeUnitCompare (rev samplePlots).
Proof.
  assert (H1 : tieFree codeUnitCompare samplePlots).
  { apply tieFree_NoDup; [exact codeUnitCompare_eq|].
    apply (bool_decide_unpack (NoDup (map identity samplePlots))). vm_compute. exact I. }
  assert (H2 : samplePlots ≡ₚ rev samplePlots) by apply Permutation_rev.
  exact (conj codeUnitCompare_consistent (conj H1 (conj H2
    (generateKey_permutation_invariant codeUnitCompare codeUnitCompare_consistent
       samplePlots (rev samplePlots) H1 H2)))).
Defined.

(** C5 fails as stated: the sort looks at field and side only, and keeps
    the order of the input among plots that agree on both. *)
Lemma generateKey_permutation_changes_key :
  clashingPlots ≡ₚ clashingPlotsSwapped /\
  generateKey codeUnitCompare clashingPlots
  <> generateKey codeUnitCompare clashingPlotsSwapped.
Proof.
  split; [apply Permutation_swap|]. vm_compute. discriminate.
Qed.

Lemma wellFormed_samplePlots : wellFormed samplePlots.
Proof.
  split; [repeat constructor|].
  apply (bool_decide_unpack (NoDup (map identity samplePlots))). vm_compute. exact I.
Qed.

Lemma solve_maxEV_running_maximum_witness :
  samplePlots <> [] /\
  (∅ : gmap string SolveResult) !! generateKey codeUnitCompare samplePlots = None /\
  wellFormed samplePlots /\
  (exists r moves memo',
      solve codeUnitCompare samplePlots sampleParams ∅
      = Some (r, <[generateKey codeUnitCompare samplePlots := r]> memo') /\
      MovesEvaluated (solve codeUnitCompare) samplePlots sampleParams
        0 samplePlots ∅ moves memo' /\
      length moves = length samplePlots /\
      maxEV r = runningMax (- 1)%Qc (moves.*1)) /\
  solvedValue codeUnitCompare sampleParams samplePlots
  = runningMax (- 1)%Qc
      (perChoiceValues (solvedValue codeUnitCompare sampleParams) samplePlots sampleParams).
Proof.
  assert (H1 : samplePlots <> []) by discriminate.
  assert (H2 : (∅ : gmap string SolveResult)
               !! generateKey codeUnitCompare samplePlots = None) by apply lookup_empty.
  pose proof (solve_maxEV_running_maximum codeUnitCompare samplePlots sampleParams ∅ H1)
    as [Hrun Heq].
  destruct (Hrun H2) as (r & moves & memo' & E & Hm & Hlen & _ & Hmax & _).
  destruct (Heq wellFormed_samplePlots) as (Hv & _).
  refine (conj H1 (conj H2 (conj wellFormed_samplePlots (conj _ Hv)))).
  exists r, moves, memo'. auto.
Defined.

(** C1 fails as stated: for one plot whose value is -5 the only per-choice
    value is -5, and [solve] returns -1, the start of the running maximum,
    which is not the maximum over the plots. *)
Lemma solve_maxEV_not_maximum_of_choices :
  exists r memo',
    solve codeUnitCompare singlePlots negativeParams ∅ = Some (r, memo') /\
    perChoiceValues (solvedValue codeUnitCompare negativeParams) singlePlots negativeParams
    = [Q2Qc (-5)] /\
    maxEV r = Q2Qc (-1) /\
    maxEV r <> Q2Qc (-5).
Proof.
  eexists _, _. split; [vm_compute; reflexivity|].
  split; [|split].
  - vm_compute. reflexivity.
  - apply Qc_is_canon. reflexivity.
  - intros E. apply Qc_eq_Qeq in E. vm_compute in E. discriminate E.
Qed.

Lemma solve_two_plots_one_field_witness :
  exists r memo',
    solve codeUnitCompare scenarioPlots scenarioParams ∅ = Some (r, memo') /\
    maxEV r = valL1 scenarioParams /\
    path r = [stepDesc (mkPlot "field1" left purple 0)] /\
    length (path r) = 1 /\
    bestMoveId r = Some (plotId (mkPlot "field1" left purple 0)).
Proof.
  apply (solve_two_plots_one_field codeUnitCompare
           (mkPlot "field1" left purple 0) (mkPlot "field1" right blue 0)
           scenarioParams ∅);
    try reflexivity.
  - left. split; reflexivity.
Defined.

(** C2 fails as stated: in the scenario the harvest of either plot ends
    the game, since with survival probability 0 the neighbor withers; [solve]
    returns the tier-1 value once, not twice, and a path of one step. *)
Lemma solve_two_plots_one_field_not_twice :
  exists r memo',
    solve codeUnitCompare scenarioPlots scenarioParams ∅ = Some (r, memo') /\
    maxEV r = valL1 scenarioParams /\
    maxEV r <> (Q2Qc 2 * valL1 scenarioParams)%Qc /\
    length (path r) = 1 /\
    length (path r) <> 2.
Proof.
  eexists _, _. split; [vm_compute; reflexivity|].
  split; [apply Qc_is_canon; reflexivity|].
  split; [intros E; apply Qc_eq_Qeq in E; vm_compute in E; discriminate E|].
  split; [reflexivity|]. cbn. discriminate.
Qed.

Lemma solve_no_move_above_initial_witness :
  exists r memo'',
    solve codeUnitCompare alikePlots negativeParams ∅ = Some (r, memo'') /\
    maxEV r = (- 1)%Qc /\ path r = [] /\ bestMoveId r = None.
Proof.
  eapply (solve_no_move_above_initial codeUnitCompare alikePlots negativeParams ∅).
  - discriminate.
  - apply lookup_empty.
  - eapply Moves_alone; [reflexivity|vm_compute; reflexivity|].
    eapply Moves_alone; [reflexivity|vm_compute; reflexivity|].
    apply Moves_done.
  - repeat constructor; vm_compute; discriminate.
Defined.

Lemma solve_first_maximum_wins_witness :
  (exists total resA memo'',
      solve codeUnitCompare alikePlots scenarioParams ∅
      = Some ({| maxEV := total;
                 path := stepDesc (mkPlot "field1" left purple 0) :: path resA;
                 bestMoveId := Some (plotId (mkPlot "field1" left purple 0)) |},
              memo'')) /\
  (exists r memo',
      solve codeUnitCompare alikePlots scenarioParams ∅ = Some (r, memo') /\
      maxEV r = (immediateGain (mkPlot "field1" left purple 0) scenarioParams
                 + immediateGain (mkPlot "field1" left purple 0) scenarioParams)%Qc /\
      bestMoveId r = Some (plotId (mkPlot "field1" left purple 0))).
Proof.
  split.
  - eexists _, _.
    eapply (proj1 (solve_first_maximum_wins codeUnitCompare scenarioParams)
              alikePlots ∅ _ _ 0).
    + discriminate.
    + apply lookup_empty.
    + eapply Moves_alone; [reflexivity|vm_compute; reflexivity|].
      eapply Moves_alone; [reflexivity|vm_compute; reflexivity|].
      apply Moves_done.
    + reflexivity.
    + reflexivity.
    + vm_compute. reflexivity.
    + intros j mv Hj. lia.
    + intros [|[|j]] mv Hmv; cbn in Hmv; try discriminate Hmv;
        injection Hmv as <-; vm_compute; discriminate.
  - apply (proj2 (solve_first_maximum_wins codeUnitCompare scenarioParams)
             (mkPlot "field1" left purple 0) (mkPlot "field2" left purple 0));
      try reflexivity. discriminate.
Defined.

(** C7 fails as stated, in two ways.  With negative tier values two plots
    of one color and one level in two fields have equal values, -6 each, and
    no move is recorded, since neither value exceeds the initial -1.  And
    with the tier values of the scenario, after a call on the two plots in
    the other order the cache answers under the same key: the move returned
    is the second plot of the list. *)
Lemma solve_tie_not_first :
  (exists r memo' moves memoL,
      solve codeUnitCompare alikePlots negativeParams ∅ = Some (r, memo') /\
      MovesEvaluated (solve codeUnitCompare) alikePlots negativeParams
        0 alikePlots ∅ moves memoL /\
      Forall (fun mv => mv.1 = Q2Qc (-6)) moves /\
      length moves = 2 /\
      bestMoveId r = None /\
      bestMoveId r <> Some (plotId (mkPlot "field1" left purple 0))) /\
  (exists r1 memo1 r2 memo2,
      solve codeUnitCompare (rev alikePlots) scenarioParams ∅ = Some (r1, memo1) /\
      solve codeUnitCompare alikePlots scenarioParams memo1 = Some (r2, memo2) /\
      bestMoveId r2 = Some (plotId (mkPlot "field2" left purple 0)) /\
      bestMoveId r2 <> Some (plotId (mkPlot "field1" left purple 0))).
Proof.
  split.
  - eexists _, _, _, _. split; [vm_compute; reflexivity|].
    split.
    { eapply Moves_alone; [reflexivity|vm_compute; reflexivity|].
      eapply Moves_alone; [reflexivity|vm_compute; reflexivity|].
      apply Moves_done. }
    split; [repeat constructor; apply Qc_is_canon; reflexivity|].
    split; [reflexivity|]. split; [reflexivity|discriminate].
  - eexists _, _, _, _. split; [vm_compute; reflexivity|].
    split; [vm_compute; reflexivity|].
    split; [reflexivity|]. cbn. discriminate.
Qed.

Lemma solve_twice_same_result_witness :
  exists r memo1,
    solve codeUnitCompare samplePlots sampleParams ∅ = Some (r, memo1) /\
    solve codeUnitCompare samplePlots sampleParams memo1 = Some (r, memo1) /\
    memo1 !! generateKey codeUnitCompare samplePlots = Some r.
Proof.
  destruct (solve_twice_same_result codeUnitCompare samplePlots sampleParams ∅)
    as (r & memo1 & E1 & E2 & Hk).
  exists r, memo1. split; [exact E1|]. split; [exact E2|].
  apply Hk. discriminate.
Defined.

Lemma solve_total_witness :
  (exists r memo', solve codeUnitCompare samplePlots sampleParams ∅ = Some (r, memo')) /\
  length (nextPlotsA samplePlots 0 (mkPlot "field1" left purple 0)) < length samplePlots /\
  length (nextPlotsB samplePlots 0 (mkPlot "field1" left purple 0)
            (mkPlot "field1" right blue 0)) < length samplePlots.
Proof.
  destruct (solve_total codeUnitCompare samplePlots sampleParams ∅) as (Hex & _ & Hlen).
  destruct (Hlen 0 (mkPlot "field1" left purple 0) eq_refl) as [HA HB].
  split; [exact Hex|]. split; [exact HA|]. apply HB. reflexivity.
Defined.

(** * The further theorems at sample inputs *)

Lemma wellFormed_scenarioPlots : wellFormed scenarioPlots.
Proof.
  split; [repeat constructor|].
  apply (bool_decide_unpack (NoDup (map identity scenarioPlots))). vm_compute. exact I.
Qed.

Lemma harvest_startState : handleHarvestClick (startState 1) 0 left = Some askedState.
Proof. reflexivity. Qed.

Lemma survived_askedState : handleNeighborResult askedState true = Some loneState.
Proof. reflexivity. Qed.

Lemma withered_askedState : handleNeighborResult askedState false = Some witheredState.
Proof. reflexivity. Qed.

Lemma harvest_loneState : handleHarvestClick loneState 0 right = Some overState.
Proof. reflexivity. Qed.

Lemma Reachable_loneState : Reachable loneState.
Proof.
  apply (reach_neighbor askedState true loneState); [|exact survived_askedState].
  apply (reach_harvest (startState 1) 0 left askedState); [|exact harvest_startState].
  apply (reach_start 1).
Qed.

Lemma NoDup_one_field f : NoDup (map FieldConfig.id [f]).
Proof. apply NoDup_singleton. Qed.

Lemma getSeedEV_extreme_probabilities_witness :
  probL1toL2 scenarioParams = 0%Qc /\
  getSeedEV 5 scenarioParams = valL1 scenarioParams.
Proof.
  assert (H1 : probL1toL2 scenarioParams = 0%Qc) by (apply Qc_is_canon; reflexivity).
  assert (H2 : probL2toL3 scenarioParams = 0%Qc) by (apply Qc_is_canon; reflexivity).
  assert (H3 : probL3toL4 scenarioParams = 0%Qc) by (apply Qc_is_canon; reflexivity).
  exact (conj H1 (proj1 (getSeedEV_extreme_probabilities 5 scenarioParams) H1 H2 H3)).
Defined.

Lemma getCropMultiplier_range_witness :
  (0 < buyCount blue sampleParams)%Qc /\
  (1 <= getCropMultiplier blue sampleParams)%Qc.
Proof.
  assert (H : (0 < buyCount blue sampleParams)%Qc) by (vm_compute; reflexivity).
  exact (conj H (proj1 (proj1 (proj2 (getCropMultiplier_range blue sampleParams)) H))).
Defined.

Lemma solve_result_shape_witness :
  exists r moves memoL,
    solve codeUnitCompare samplePlots sampleParams ∅
    = Some (r, <[generateKey codeUnitCompare samplePlots := r]> memoL) /\
    MovesEvaluated (solve codeUnitCompare) samplePlots sampleParams 0 samplePlots ∅
      moves memoL /\
    ((maxEV r = (- 1)%Qc /\ path r = [] /\ bestMoveId r = None) \/
     (exists i currentPlot total resA,
         samplePlots !! i = Some currentPlot /\
         moves !! i = Some (total, resA) /\
         (- 1 < total)%Qc /\
         maxEV r = total /\
         bestMoveId r = Some (plotId currentPlot) /\
         path r = stepDesc currentPlot :: path resA)).
Proof.
  apply (solve_result_shape codeUnitCompare samplePlots sampleParams ∅).
  - discriminate.
  - apply lookup_empty.
Defined.

Lemma solve_path_bounded_witness :
  exists r memo',
    solve codeUnitCompare samplePlots sampleParams (clearMemo ∅) = Some (r, memo') /\
    length (path r) <= 4 /\ (- 1 <= maxEV r)%Qc.
Proof.
  destruct (solve_path_bounded codeUnitCompare samplePlots sampleParams ∅
              wellFormed_samplePlots) as (r & memo' & E & Hp & Hs & _ & Hv).
  exists r, memo'. split; [exact E|]. split; [|exact Hv].
  exact (Nat.le_trans _ _ _ Hp Hs).
Defined.

Lemma reachable_logicPlots_wellFormed_witness :
  Reachable loneState /\
  fieldsOk (fields loneState) /\ wellFormed (logicPlotsOf (fields loneState)).
Proof.
  exact (conj Reachable_loneState
           (reachable_logicPlots_wellFormed loneState Reachable_loneState)).
Defined.

Lemma runSolver_suggestion_witness :
  exists suggestion memo',
    runSolver codeUnitCompare (startState 2) sampleParams ∅ = Some (suggestion, memo') /\
    (suggestion = None <-> isGameOver (fields (startState 2)) = true) /\
    (forall r, suggestion = Some r ->
               maxEV r = stateValue sampleParams (logicPlotsOf (fields (startState 2)))).
Proof.
  exact (runSolver_suggestion codeUnitCompare (startState 2) sampleParams ∅
           (reach_start 2)).
Defined.

Lemma runSolver_highlights_one_plot_witness :
  exists r memo' id i s f,
    runSolver codeUnitCompare (startState 1) sampleParams ∅ = Some (Some r, memo') /\
    bestMoveId r = Some id /\
    fields (startState 1) !! i = Some f /\
    PlotConfig.active (plotAt s f) = true /\
    PlotConfig.id (plotAt s f) = id.
Proof.
  assert (Hrun : exists r memo' id,
             runSolver codeUnitCompare (startState 1) sampleParams ∅
             = Some (Some r, memo') /\ bestMoveId r = Some id).
  { eexists _, _, _. split; [vm_compute; reflexivity|reflexivity]. }
  destruct Hrun as (r & memo' & id & E & Hid).
  destruct (runSolver_highlights_one_plot codeUnitCompare (startState 1) sampleParams
              ∅ memo' r id (reach_start 1) E Hid)
    as (i & s & f & Hi & Ha & Eid & _).
  exists r, memo', id, i, s, f. auto 10.
Defined.

Lemma runSolver_path_length_witness :
  exists suggestion memo',
    runSolver codeUnitCompare (startState 2) sampleParams ∅ = Some (suggestion, memo') /\
    forall r, suggestion = Some r -> length (path r) <= 2.
Proof.
  exact (runSolver_path_length codeUnitCompare (startState 2) sampleParams ∅
           (reach_start 2)).
Defined.

Lemma harvest_without_neighbor_follows_branch_A_witness :
  exists j st',
    logicPlotsOf (fields loneState) !! j = Some (logicPlotOf (mkField false 0 true 2) right) /\
    neighbor (logicPlotsOf (fields loneState)) j (logicPlotOf (mkField false 0 true 2) right)
    = None /\
    handleHarvestClick loneState 0 right = Some st' /\
    neighborCheck st' = neighborCheck loneState /\
    logicPlotsOf (fields st')
    = nextPlotsA (logicPlotsOf (fields loneState)) j
        (logicPlotOf (mkField false 0 true 2) right).
Proof.
  apply (harvest_without_neighbor_follows_branch_A loneState 0 right
           (mkField false 0 true 2)).
  - apply NoDup_one_field.
  - reflexivity.
  - reflexivity.
  - reflexivity.
Defined.

Lemma harvest_with_neighbor_follows_both_branches_witness :
  exists j st1 stA stB,
    logicPlotsOf (fields (startState 1)) !! j
    = Some (logicPlotOf (mkField true 0 true 0) left) /\
    neighbor (logicPlotsOf (fields (startState 1))) j
      (logicPlotOf (mkField true 0 true 0) left)
    = Some (logicPlotOf (mkField true 0 true 0) right) /\
    handleHarvestClick (startState 1) 0 left = Some st1 /\
    handleNeighborResult st1 false = Some stA /\
    logicPlotsOf (fields stA)
    = nextPlotsA (logicPlotsOf (fields (startState 1))) j
        (logicPlotOf (mkField true 0 true 0) left) /\
    handleNeighborResult st1 true = Some stB /\
    logicPlotsOf (fields stB)
    ≡ₚ nextPlotsB (logicPlotsOf (fields (startState 1))) j
         (logicPlotOf (mkField true 0 true 0) left)
         (logicPlotOf (mkField true 0 true 0) right).
Proof.
  assert (Hnd : NoDup (map FieldConfig.id (fields (startState 1))))
    by apply NoDup_one_field.
  assert (Hi : fields (startState 1) !! 0 = Some (mkField true 0 true 0))
    by reflexivity.
  destruct (harvest_with_neighbor_follows_both_branches (startState 1) 0 left
              (mkField true 0 true 0) Hnd Hi eq_refl eq_refl)
    as (j & st1 & stA & stB & H1 & H2 & H3 & _ & H5 & _ & H7 & H8 & _ & H10).
  exists j, st1, stA, stB. auto 10.
Defined.

Lemma solvedValue_bounds_lone_harvest_witness :
  (immediateGain (logicPlotOf (mkField false 0 true 2) right) sampleParams
   + solvedValue codeUnitCompare sampleParams (logicPlotsOf (fields overState))
   <= solvedValue codeUnitCompare sampleParams (logicPlotsOf (fields loneState)))%Qc.
Proof.
  apply (solvedValue_bounds_lone_harvest codeUnitCompare loneState overState sampleParams
           0 right (mkField false 0 true 2)).
  - exact Reachable_loneState.
  - reflexivity.
  - reflexivity.
  - reflexivity.
  - exact harvest_loneState.
Defined.

Lemma solvedValue_bounds_paired_harvest_witness :
  (immediateGain (logicPlotOf (mkField true 0 true 0) left) sampleParams
   + (1 - probSurvival sampleParams)
     * solvedValue codeUnitCompare sampleParams (logicPlotsOf (fields witheredState))
   + probSurvival sampleParams
     * solvedValue codeUnitCompare sampleParams (logicPlotsOf (fields loneState))
   <= solvedValue codeUnitCompare sampleParams (logicPlotsOf (fields (startState 1))))%Qc.
Proof.
  apply (solvedValue_bounds_paired_harvest codeUnitCompare (startState 1) askedState
           witheredState loneState sampleParams 0 left (mkField true 0 true 0)).
  - apply (reach_start 1).
  - reflexivity.
  - reflexivity.
  - reflexivity.
  - exact harvest_startState.
  - exact withered_askedState.
  - exact survived_askedState.
Defined.

Lemma harvest_handlers_only_advance_witness :
  fieldCount loneState = fieldCount askedState /\
  length (fields loneState) = length (fields askedState) /\
  Forall2 (fieldAdvances 2) (fields askedState) (fields loneState).
Proof.
  apply (harvest_handlers_only_advance askedState loneState).
  right. exists true. exact survived_askedState.
Defined.

Lemma solve_reuses_cache_soundly_witness :
  exists r1 memo1 r2 memo2,
    solve codeUnitCompare samplePlots sampleParams (clearMemo ∅) = Some (r1, memo1) /\
    solve codeUnitCompare scenarioPlots sampleParams memo1 = Some (r2, memo2) /\
    maxEV r2 = solvedValue codeUnitCompare sampleParams scenarioPlots.
Proof.
  exact (solve_reuses_cache_soundly codeUnitCompare samplePlots scenarioPlots sampleParams ∅
           wellFormed_samplePlots wellFormed_scenarioPlots).
Defined.

Lemma solvedValue_Permutation_witness :
  samplePlots ≡ₚ rev samplePlots /\
  solvedValue codeUnitCompare sampleParams samplePlots
  = solvedValue codeUnitCompare sampleParams (rev samplePlots).
Proof.
  assert (Hp : samplePlots ≡ₚ rev samplePlots) by apply Permutation_rev.
  exact (conj Hp (solvedValue_Permutation codeUnitCompare samplePlots (rev samplePlots)
                    sampleParams wellFormed_samplePlots Hp)).
Defined.

Lemma highlighted_harvest_attains_maxEV_witness :
  exists r memo' id i s f st1,
    runSolver codeUnitCompare (startState 1) sampleParams ∅ = Some (Some r, memo') /\
    bestMoveId r = Some id /\
    fields (startState 1) !! i = Some f /\
    PlotConfig.active (plotAt s f) = true /\
    id = PlotConfig.id (plotAt s f) /\
    handleHarvestClick (startState 1) i s = Some st1.
Proof.
  assert (Hrun : exists r memo' id,
             runSolver codeUnitCompare (startState 1) sampleParams ∅
             = Some (Some r, memo') /\ bestMoveId r = Some id).
  { eexists _, _, _. split; [vm_compute; reflexivity|reflexivity]. }
  destruct Hrun as (r & memo' & id & E & Hid).
  destruct (highlighted_harvest_attains_maxEV codeUnitCompare (startState 1) sampleParams
              ∅ memo' r id (reach_start 1) E Hid)
    as (i & s & f & st1 & Hi & Ha & Eid & Hh & _).
  exists r, memo', id, i, s, f, st1. auto 10.
Defined.
